(* ===================================================================== *)
(* pytfa: thermodynamics-based flux analysis.                             *)
(*                                                                       *)
(* A shallow embedding of                                                *)
(*   - pytfa/core/tmodel.py     (ThermoModel: normalize_reactions,        *)
(*     prepare, convert, the registries, repair and the lookups by kind,  *)
(*     copy)                                                              *)
(*   - pytfa/analysis/chebyshev.py (is_inequality, chebyshev_center)      *)
(* and the properties of the formulation they emit.                      *)
(*                                                                       *)
(* Numbers.  Python floats and ints are read as real numbers: a linear    *)
(* program is a statement about reals, and every comparison the code      *)
(* makes is the comparison of the reals it denotes.                       *)
(* Objects.  A cobra Reaction or Metabolite is a record of its immutable  *)
(* attributes; the attributes the code assigns (met.thermo,               *)
(* reaction.thermo, reaction.compartment) live in stores of the model     *)
(* keyed by the object's id, so that a metabolite reached through         *)
(* model.metabolites and through reaction.metabolites is one object.      *)
(* Exceptions.  A method is a function from the model to a result and the *)
(* model it leaves behind: a raise keeps every mutation made before it.   *)
(* ===================================================================== *)

From Stdlib Require Import Reals Lra.
From stdpp Require Import base decidable option list gmap strings fin_maps.

#[local] Open Scope R_scope.
#[local] Open Scope string_scope.

(* --------------------------------------------------------------------- *)
(* Comparisons of numbers                                                 *)
(* --------------------------------------------------------------------- *)

#[global] Instance R_eq_dec : EqDecision R := Req_dec_T.
#[global] Instance Rlt_decision : RelDecision Rlt := Rlt_dec.
#[global] Instance Rle_decision : RelDecision Rle := Rle_dec.
#[global] Instance Rgt_decision : RelDecision Rgt := Rgt_dec.
#[global] Instance Rge_decision : RelDecision Rge := Rge_dec.

(* --------------------------------------------------------------------- *)
(* Exceptions and the method monad                                        *)
(* --------------------------------------------------------------------- *)

Inductive exn : Type :=
  | Exception (msg : string)
  | KeyError (key : string)
  | ValueError (msg : string)
  | TypeError (msg : string)
  | AttributeError (attr : string)
  | ZeroDivisionError
  | IndexError
  | NameError (name : string)
  | SolverError.

Inductive Res (A : Type) : Type :=
  | Ok (a : A)
  | Raise (e : exn).
Arguments Ok {A} a.
Arguments Raise {A} e.

(** A method of an object of type [S]: result first, then the object as the
    call leaves it. *)
Definition M (S A : Type) : Type := S -> Res A * S.

Definition ret {S A} (a : A) : M S A := fun s => (Ok a, s).
Definition raise {S A} (e : exn) : M S A := fun s => (Raise e, s).
Definition bind {S A B} (c : M S A) (k : A -> M S B) : M S B :=
  fun s => match c s with
           | (Ok a, s') => k a s'
           | (Raise e, s') => (Raise e, s')
           end.
Definition get {S} : M S S := fun s => (Ok s, s).
Definition modify {S} (f : S -> S) : M S unit := fun s => (Ok tt, f s).

Declare Scope meth_scope.
Delimit Scope meth_scope with meth.
Notation "'let*' x := c 'in' k" := (bind c (fun x => k))
  (at level 10, x name, c at level 100, k at level 200, only parsing) : meth_scope.
Notation "'let*' ' pat := c 'in' k" :=
  (bind c (fun x => match x with pat => k end))
  (at level 10, pat pattern, c at level 100, k at level 200, only parsing) : meth_scope.
Notation "'exec' c 'in' k" := (bind c (fun _ => k))
  (at level 10, c at level 100, k at level 200, only parsing) : meth_scope.
#[local] Open Scope meth_scope.

(** [for x in l: body x] *)
Fixpoint for_each {S A} (l : list A) (body : A -> M S unit) : M S unit :=
  match l with
  | [] => ret tt
  | x :: l' => exec body x in for_each l' body
  end.

(** A subscript [d[k]] on a dict: KeyError when the key is absent. *)
Definition subscript {S V} `{Countable K} (d : gmap K V) (k : K) (shown : string)
  : M S V :=
  match d !! k with
  | Some v => ret v
  | None => raise (KeyError shown)
  end.

(* --------------------------------------------------------------------- *)
(* Kinds of variables and constraints (pytfa.optim)                       *)
(* --------------------------------------------------------------------- *)

Inductive VarKind : Type :=
  | LogConcentration | DeltaG | DeltaGstd | ForwardUseVariable
  | BackwardUseVariable | ThermoDisplacement | ChebyshevRadius.

Inductive ConsKind : Type :=
  | SimultaneousUse | NegativeDeltaG | BackwardDeltaGCoupling
  | ForwardDeltaGCoupling | BackwardDirectionCoupling
  | ForwardDirectionCoupling | DisplacementCoupling.

#[global] Instance VarKind_eq_dec : EqDecision VarKind.
Proof. solve_decision. Defined.
#[global] Instance ConsKind_eq_dec : EqDecision ConsKind.
Proof. solve_decision. Defined.

Definition VarKind_code (k : VarKind) : nat :=
  match k with
  | LogConcentration => 0 | DeltaG => 1 | DeltaGstd => 2
  | ForwardUseVariable => 3 | BackwardUseVariable => 4
  | ThermoDisplacement => 5 | ChebyshevRadius => 6
  end%nat.
Definition VarKind_decode (n : nat) : option VarKind :=
  match n with
  | 0 => Some LogConcentration | 1 => Some DeltaG | 2 => Some DeltaGstd
  | 3 => Some ForwardUseVariable | 4 => Some BackwardUseVariable
  | 5 => Some ThermoDisplacement | 6 => Some ChebyshevRadius
  | _ => None
  end%nat.
#[global] Instance VarKind_countable : Countable VarKind.
Proof.
  refine (inj_countable VarKind_code VarKind_decode _).
  intros []; reflexivity.
Defined.

Definition ConsKind_code (k : ConsKind) : nat :=
  match k with
  | SimultaneousUse => 0 | NegativeDeltaG => 1 | BackwardDeltaGCoupling => 2
  | ForwardDeltaGCoupling => 3 | BackwardDirectionCoupling => 4
  | ForwardDirectionCoupling => 5 | DisplacementCoupling => 6
  end%nat.
Definition ConsKind_decode (n : nat) : option ConsKind :=
  match n with
  | 0 => Some SimultaneousUse | 1 => Some NegativeDeltaG
  | 2 => Some BackwardDeltaGCoupling | 3 => Some ForwardDeltaGCoupling
  | 4 => Some BackwardDirectionCoupling | 5 => Some ForwardDirectionCoupling
  | 6 => Some DisplacementCoupling
  | _ => None
  end%nat.
#[global] Instance ConsKind_countable : Countable ConsKind.
Proof.
  refine (inj_countable ConsKind_code ConsKind_decode _).
  intros []; reflexivity.
Defined.

(* --------------------------------------------------------------------- *)
(* Solver symbols and linear expressions (optlang / sympy)                *)
(* --------------------------------------------------------------------- *)

(** A solver variable: one created for a typed variable, or one of the two
    flux variables cobra keeps for a reaction. *)
Inductive Symbol : Type :=
  | TVar (k : VarKind) (hook : string)
  | forward_variable (rxn : string)
  | reverse_variable (rxn : string).

#[global] Instance Symbol_eq_dec : EqDecision Symbol.
Proof. solve_decision. Defined.

(** Expressions as the code builds them with [+], [-] and [*] by a number. *)
Inductive Expr : Type :=
  | Num (c : R)
  | Sym (x : Symbol)
  | Add (a b : Expr)
  | Sub (a b : Expr)
  | Scale (c : R) (a : Expr).

(** The value of an expression at a point. *)
Fixpoint eval (rho : Symbol -> R) (e : Expr) : R :=
  match e with
  | Num c => c
  | Sym x => rho x
  | Add a b => eval rho a + eval rho b
  | Sub a b => eval rho a - eval rho b
  | Scale c a => c * eval rho a
  end.

(** [e.coeff(x)]: the coefficient of [x] in the linear expression. *)
Fixpoint coeff (e : Expr) (x : Symbol) : R :=
  match e with
  | Num _ => 0
  | Sym y => if decide (y = x) then 1 else 0
  | Add a b => coeff a x + coeff b x
  | Sub a b => coeff a x - coeff b x
  | Scale c a => c * coeff a x
  end.

Fixpoint symbols (e : Expr) : list Symbol :=
  match e with
  | Num _ => []
  | Sym y => [y]
  | Add a b | Sub a b => symbols a ++ symbols b
  | Scale _ a => symbols a
  end.

(** [e.free_symbols]: sympy keeps an expression simplified, so a symbol is
    free in it exactly when its coefficient has not cancelled. *)
Definition free_symbols (e : Expr) : list Symbol :=
  filter (fun x => coeff e x <> 0) (remove_dups (symbols e)).

(* --------------------------------------------------------------------- *)
(* The host model (cobra) and the thermodynamic records                   *)
(* --------------------------------------------------------------------- *)

Module Metabolite.
Record t : Type := Build {
  id : string;
  name : string;
  formula : string;
  compartment : string;
  annotation : gmap string string
}.
End Metabolite.

Module Reaction.
(** [metabolites] is the dict of the reaction, metabolite to stoichiometric
    coefficient, in insertion order. *)
Record t : Type := Build {
  id : string;
  metabolites : list (Metabolite.t * R);
  lower_bound : R;
  upper_bound : R
}.

(** cobra: the metabolites of negative coefficient. *)
Definition reactants (r : t) : list Metabolite.t :=
  (filter (fun mv => snd mv < 0) (metabolites r)).*1.
End Reaction.

(** An entry of [model.compartments]. *)
Record Compartment : Type := {
  pH : R;
  ionicStr : R;
  c_min : R;
  c_max : R
}.

(** Modelled from the spec: the thermodynamic database is not among the
    sources; the spec has an entry of [thermo_data['metabolites']] as a
    record with the standard Gibbs energy of formation, the formula, the
    charge and the error of a compound. *)
Record CompoundData : Type := {
  cd_deltaGf_std : R;
  cd_formula : string;
  cd_charge : R;
  cd_error : R
}.

(** [met.thermo], as far as this module reads it. *)
Record MetaboliteThermo : Type := {
  deltaGf_std : R;
  deltaGf_tr : R;
  deltaGf_err : R
}.

(** [reaction.thermo]: a dict with these keys; [None] is an absent key. *)
Record ReactionThermo : Type := {
  isTrans : bool;
  computed : option bool;
  deltaGR : option R;
  deltaGRerr : option R;
  deltaGrxn : option R
}.

Definition set_isTrans (b : bool) (th : ReactionThermo) : ReactionThermo :=
  {| isTrans := b; computed := computed th; deltaGR := deltaGR th;
     deltaGRerr := deltaGRerr th; deltaGrxn := deltaGrxn th |}.
Definition set_computed (b : bool) (th : ReactionThermo) : ReactionThermo :=
  {| isTrans := isTrans th; computed := Some b; deltaGR := deltaGR th;
     deltaGRerr := deltaGRerr th; deltaGrxn := deltaGrxn th |}.
Definition set_deltaGR (x : R) (th : ReactionThermo) : ReactionThermo :=
  {| isTrans := isTrans th; computed := computed th; deltaGR := Some x;
     deltaGRerr := deltaGRerr th; deltaGrxn := deltaGrxn th |}.
Definition set_deltaGRerr (x : R) (th : ReactionThermo) : ReactionThermo :=
  {| isTrans := isTrans th; computed := computed th; deltaGR := deltaGR th;
     deltaGRerr := Some x; deltaGrxn := deltaGrxn th |}.
Definition set_deltaGrxn (x : R) (th : ReactionThermo) : ReactionThermo :=
  {| isTrans := isTrans th; computed := computed th; deltaGR := deltaGR th;
     deltaGRerr := deltaGRerr th; deltaGrxn := Some x |}.

(** Modelled from the spec: the variable and constraint classes of
    pytfa.optim are not among the sources.  The spec's data model has a typed
    variable as a (kind, hook, bounds) triple and a typed constraint as a
    (kind, hook, linear expression, bounds) tuple, each (kind, hook) pair
    unique within a model: the name under which the registry files an object
    is that pair, the hook given by its id.  A bound that the caller does not
    pass is [None] (for a variable: left to the class; for a constraint: an
    open side). *)
Record TypedVariable : Type := {
  v_kind : VarKind;
  v_hook : string;
  v_lb : option R;
  v_ub : option R
}.

Record TypedConstraint : Type := {
  c_kind : ConsKind;
  c_hook : string;
  c_expr : Expr;
  c_lb : option R;
  c_ub : option R
}.

(** [var.variable], the solver symbol behind a typed variable. *)
Definition variable (v : TypedVariable) : Symbol := TVar (v_kind v) (v_hook v).
Definition v_name (v : TypedVariable) : VarKind * string := (v_kind v, v_hook v).
Definition c_name (c : TypedConstraint) : ConsKind * string := (c_kind c, c_hook c).

(** [kind(hook, lb=.., ub=..)] and [kind(hook, expr, lb=.., ub=..)] *)
Definition Var (kind : VarKind) (hook : string) (lb ub : option R) : TypedVariable :=
  {| v_kind := kind; v_hook := hook; v_lb := lb; v_ub := ub |}.
Definition Cons (kind : ConsKind) (hook : string) (expr : Expr) (lb ub : option R)
  : TypedConstraint :=
  {| c_kind := kind; c_hook := hook; c_expr := expr; c_lb := lb; c_ub := ub |}.

(** [cons.change_expr(e)] *)
Definition change_expr (e : Expr) (c : TypedConstraint) : TypedConstraint :=
  {| c_kind := c_kind c; c_hook := c_hook c; c_expr := e;
     c_lb := c_lb c; c_ub := c_ub c |}.

(** The ThermoModel object.  [feasibility] and [optimality] are
    [solver.configuration.tolerances]. *)
Record ThermoModel : Type := {
  compartments : gmap string Compartment;
  metabolites : list Metabolite.t;
  reactions : list Reaction.t;
  compounds_data : gmap string CompoundData;
  RT : R;
  feasibility : R;
  optimality : R;
  met_thermo : gmap string MetaboliteThermo;
  rxn_thermo : gmap string ReactionThermo;
  _proton_of : option (gmap string Metabolite.t);
  LC_vars : option (gmap string TypedVariable);
  P_vars : option (gmap string TypedVariable);
  _var_dict : gmap (VarKind * string) TypedVariable;
  _cons_dict : gmap (ConsKind * string) TypedConstraint
}.

Definition upd_met_thermo (f : gmap string MetaboliteThermo -> gmap string MetaboliteThermo)
  (m : ThermoModel) : ThermoModel :=
  {| compartments := compartments m; metabolites := metabolites m;
     reactions := reactions m; compounds_data := compounds_data m; RT := RT m;
     feasibility := feasibility m; optimality := optimality m;
     met_thermo := f (met_thermo m); rxn_thermo := rxn_thermo m;
     _proton_of := _proton_of m; LC_vars := LC_vars m; P_vars := P_vars m;
     _var_dict := _var_dict m; _cons_dict := _cons_dict m |}.

Definition upd_rxn_thermo (f : gmap string ReactionThermo -> gmap string ReactionThermo)
  (m : ThermoModel) : ThermoModel :=
  {| compartments := compartments m; metabolites := metabolites m;
     reactions := reactions m; compounds_data := compounds_data m; RT := RT m;
     feasibility := feasibility m; optimality := optimality m;
     met_thermo := met_thermo m; rxn_thermo := f (rxn_thermo m);
     _proton_of := _proton_of m; LC_vars := LC_vars m; P_vars := P_vars m;
     _var_dict := _var_dict m; _cons_dict := _cons_dict m |}.

Definition set_proton_of (p : gmap string Metabolite.t) (m : ThermoModel) : ThermoModel :=
  {| compartments := compartments m; metabolites := metabolites m;
     reactions := reactions m; compounds_data := compounds_data m; RT := RT m;
     feasibility := feasibility m; optimality := optimality m;
     met_thermo := met_thermo m; rxn_thermo := rxn_thermo m;
     _proton_of := Some p; LC_vars := LC_vars m; P_vars := P_vars m;
     _var_dict := _var_dict m; _cons_dict := _cons_dict m |}.

Definition set_LC_vars (d : gmap string TypedVariable) (m : ThermoModel) : ThermoModel :=
  {| compartments := compartments m; metabolites := metabolites m;
     reactions := reactions m; compounds_data := compounds_data m; RT := RT m;
     feasibility := feasibility m; optimality := optimality m;
     met_thermo := met_thermo m; rxn_thermo := rxn_thermo m;
     _proton_of := _proton_of m; LC_vars := Some d; P_vars := P_vars m;
     _var_dict := _var_dict m; _cons_dict := _cons_dict m |}.

Definition set_P_vars (d : gmap string TypedVariable) (m : ThermoModel) : ThermoModel :=
  {| compartments := compartments m; metabolites := metabolites m;
     reactions := reactions m; compounds_data := compounds_data m; RT := RT m;
     feasibility := feasibility m; optimality := optimality m;
     met_thermo := met_thermo m; rxn_thermo := rxn_thermo m;
     _proton_of := _proton_of m; LC_vars := LC_vars m; P_vars := Some d;
     _var_dict := _var_dict m; _cons_dict := _cons_dict m |}.

Definition upd_var_dict
  (f : gmap (VarKind * string) TypedVariable -> gmap (VarKind * string) TypedVariable)
  (m : ThermoModel) : ThermoModel :=
  {| compartments := compartments m; metabolites := metabolites m;
     reactions := reactions m; compounds_data := compounds_data m; RT := RT m;
     feasibility := feasibility m; optimality := optimality m;
     met_thermo := met_thermo m; rxn_thermo := rxn_thermo m;
     _proton_of := _proton_of m; LC_vars := LC_vars m; P_vars := P_vars m;
     _var_dict := f (_var_dict m); _cons_dict := _cons_dict m |}.

Definition upd_cons_dict
  (f : gmap (ConsKind * string) TypedConstraint -> gmap (ConsKind * string) TypedConstraint)
  (m : ThermoModel) : ThermoModel :=
  {| compartments := compartments m; metabolites := metabolites m;
     reactions := reactions m; compounds_data := compounds_data m; RT := RT m;
     feasibility := feasibility m; optimality := optimality m;
     met_thermo := met_thermo m; rxn_thermo := rxn_thermo m;
     _proton_of := _proton_of m; LC_vars := LC_vars m; P_vars := P_vars m;
     _var_dict := _var_dict m; _cons_dict := f (_cons_dict m) |}.

(** An attribute that is read before anything assigned it. *)
Definition attribute {A} (a : option A) (shown : string) : M ThermoModel A :=
  match a with
  | Some x => ret x
  | None => raise (AttributeError shown)
  end.

(** [met.thermo] *)
Definition thermo_of (met : Metabolite.t) : M ThermoModel MetaboliteThermo :=
  let* self := get in
  attribute (met_thermo self !! Metabolite.id met) "thermo".

(** [self.add_variable(kind, hook, lb=.., ub=..)]:
    [self._var_dict[var.name] = var]. *)
Definition add_variable (kind : VarKind) (hook : string) (lb ub : option R)
  : M ThermoModel TypedVariable :=
  let var := {| v_kind := kind; v_hook := hook; v_lb := lb; v_ub := ub |} in
  exec modify (upd_var_dict (insert (v_name var) var)) in
  ret var.

(** [self.add_constraint(kind, hook, expr, lb=.., ub=..)]:
    [self._cons_dict[cons.name] = cons]. *)
Definition add_constraint (kind : ConsKind) (hook : string) (expr : Expr)
  (lb ub : option R) : M ThermoModel TypedConstraint :=
  let cons := {| c_kind := kind; c_hook := hook; c_expr := expr;
                 c_lb := lb; c_ub := ub |} in
  exec modify (upd_cons_dict (insert (c_name cons) cons)) in
  ret cons.

(* --------------------------------------------------------------------- *)
(* What the module imports from the rest of the package                   *)
(* --------------------------------------------------------------------- *)

(** pytfa.utils.numerics: the constants the module reads; their values are
    not among the sources. *)
Module numerics.
Record t : Type := Build {
  BIGM : R;
  BIGM_THERMO : R;
  BIGM_DG : R;
  BIGM_P : R
}.
End numerics.

(** An entry of the dict returned by [find_transported_mets]. *)
Record Transported : Type := {
  tr_coeff : R;
  tr_reactant : Metabolite.t;
  tr_product : Metabolite.t
}.

(** The functions of pytfa.core.thermo and pytfa.core.utils that the module
    calls; their bodies are not among the sources.  Those that read
    [met.thermo] are given the store of these records. *)
Module imports.
Record t : Type := Build {
  (* MetaboliteThermo(metData, pH, ionicStr, ...): the record it computes *)
  MetaboliteThermo_init : option CompoundData -> R -> R -> MetaboliteThermo;
  check_reaction_balance : Reaction.t -> option Metabolite.t -> string;
  check_transport_reaction : Reaction.t -> bool;
  find_transported_mets : Reaction.t -> list (string * Transported);
  (* (rhs, breakdown['sum_deltaGFis']) *)
  calcDGtpt_rhs : gmap string MetaboliteThermo -> Reaction.t ->
                  gmap string Compartment -> R * R;
  (* the second component of the tuple, DeltaGRerr *)
  calcDGR_cues : gmap string MetaboliteThermo -> Reaction.t -> R
}.
End imports.

Section tmodel.

Variable num : numerics.t.
Variable ext : imports.t.

Abbreviation BIGM := (numerics.BIGM num).
Abbreviation BIGM_THERMO := (numerics.BIGM_THERMO num).
Abbreviation BIGM_DG := (numerics.BIGM_DG num).
Abbreviation BIGM_P := (numerics.BIGM_P num).

(* --------------------------------------------------------------------- *)
(* ThermoModel.prepare                                                    *)
(* --------------------------------------------------------------------- *)

Definition _prepare_metabolite (met : Metabolite.t) : M ThermoModel unit :=
  let* self := get in
  match compartments self !! Metabolite.compartment met with
  | None => raise (Exception ("Compartment not found in model : "
                              +:+ Metabolite.compartment met))
  | Some comp =>
      match Metabolite.annotation met !! "seed_id" with
      | None => raise (Exception ("seed_id missing for " +:+ Metabolite.name met))
      | Some seed_id =>
          (* metData is None when the compound is not in the database *)
          let metData := compounds_data self !! seed_id in
          modify (upd_met_thermo
                    (insert (Metabolite.id met)
                       (imports.MetaboliteThermo_init ext metData
                          (pH comp) (ionicStr comp))))
      end
  end.

(** The loop that assigns [reaction.compartment]. *)
Definition reaction_compartment (reaction : Reaction.t) : option string :=
  foldl (fun (c : option string) (mv : Metabolite.t * R) =>
           match c with
           | None => Some (Metabolite.compartment (fst mv))
           | Some c' =>
               if decide (Metabolite.compartment (fst mv) <> c')
               then Some "c" else Some c'
           end)
        None (Reaction.metabolites reaction).

(** [for met in reaction.metabolites: if met.thermo.deltaGf_std > 0.9 * BIGM_DG:
    correctThermoValues = False; break] *)
Fixpoint correct_thermo_values (mets : list (Metabolite.t * R))
  : M ThermoModel bool :=
  match mets with
  | [] => ret true
  | mv :: rest =>
      let* th := thermo_of (fst mv) in
      if decide (deltaGf_std th > 0.9 * BIGM_DG) then ret false
      else correct_thermo_values rest
  end.

(** The accumulation of DeltaGrxn over the metabolites of a reaction that is
    not a transport.  (The DeltaGRerr summed next to it is overwritten by
    calcDGR_cues before it is read.) *)
Fixpoint sum_deltaGrxn (mets : list (Metabolite.t * R)) (acc : R)
  : M ThermoModel R :=
  match mets with
  | [] => ret acc
  | (met, v) :: rest =>
      if bool_decide (Metabolite.formula met <> "H")
         || match Metabolite.annotation met !! "seed_id" with
            | Some seed_id => bool_decide (seed_id <> "cpd00067")
            | None => false
            end
      then let* th := thermo_of met in
           sum_deltaGrxn rest (acc + v * deltaGf_tr th)
      else sum_deltaGrxn rest acc
  end.

(** A store into the dict [reaction.thermo]. *)
Definition thermo_store (reaction : Reaction.t) (f : ReactionThermo -> ReactionThermo)
  : M ThermoModel unit :=
  modify (upd_rxn_thermo (alter f (Reaction.id reaction))).

Definition _prepare_reaction (reaction : Reaction.t) : M ThermoModel unit :=
  let* self := get in
  let* proton_of := attribute (_proton_of self) "_proton_of" in
  let NotDrain :=
    if decide (length (Reaction.metabolites reaction) = 1%nat) then false else true in
  exec modify (upd_rxn_thermo
                 (insert (Reaction.id reaction)
                    {| isTrans := false; computed := None; deltaGR := None;
                       deltaGRerr := None; deltaGrxn := None |})) in
  let compartment := reaction_compartment reaction in
  let balanceResult :=
    imports.check_reaction_balance ext reaction
      (match compartment with
       | Some c => proton_of !! c
       | None => None
       end) in
  exec thermo_store reaction
         (set_isTrans (imports.check_transport_reaction ext reaction)) in
  let* correctThermoValues := correct_thermo_values (Reaction.metabolites reaction) in
  if negb NotDrain
     || negb correctThermoValues
     || bool_decide (100 <= length (Reaction.metabolites reaction))%nat
     || bool_decide (balanceResult ∈ ["missing atoms"; "drain flux"])
  then
    exec thermo_store reaction (set_computed false) in
    exec thermo_store reaction (set_deltaGR BIGM_DG) in
    thermo_store reaction (set_deltaGRerr BIGM_DG)
  else
    exec thermo_store reaction (set_computed true) in
    exec (if imports.check_transport_reaction ext reaction
          then
            let* self := get in
            let '(rhs, sum_deltaGFis) :=
              imports.calcDGtpt_rhs ext (met_thermo self) reaction
                (compartments self) in
            exec thermo_store reaction (set_deltaGR rhs) in
            thermo_store reaction (set_deltaGrxn sum_deltaGFis)
          else
            let* DeltaGrxn := sum_deltaGrxn (Reaction.metabolites reaction) 0 in
            thermo_store reaction (set_deltaGR DeltaGrxn)) in
    let* self := get in
    let DeltaGRerr := imports.calcDGR_cues ext (met_thermo self) reaction in
    let DeltaGRerr := if decide (DeltaGRerr = 0) then 2 else DeltaGRerr in
    thermo_store reaction (set_deltaGRerr DeltaGRerr).

(** The protons of the model, one per compartment, the last one found. *)
Definition find_protons (mets : list Metabolite.t) : gmap string Metabolite.t :=
  foldl (fun (proton : gmap string Metabolite.t) (met : Metabolite.t) =>
           if decide (Metabolite.formula met = "H"
                      \/ Metabolite.annotation met !! "seed_id" = Some "cpd00067")
           then <[Metabolite.compartment met := met]> proton
           else proton)
        ∅ mets.

Definition prepare : M ThermoModel unit :=
  let* self := get in
  exec for_each (metabolites self) _prepare_metabolite in
  let proton := find_protons (metabolites self) in
  exec (if decide (size proton = 0%nat)
        then raise (Exception "Cannot find proton")
        else modify (set_proton_of proton)) in
  for_each (reactions self) _prepare_reaction.

(* --------------------------------------------------------------------- *)
(* ThermoModel.convert                                                    *)
(* --------------------------------------------------------------------- *)

(** [math.log]: a ValueError outside the positive numbers. *)
Definition log (x : R) : M ThermoModel R :=
  if decide (0 < x) then ret (ln x) else raise (ValueError "math domain error").

(** ['seed_id' in met.annotation and met.annotation['seed_id'] == s] *)
Definition seed_id_is (met : Metabolite.t) (s : string) : bool :=
  bool_decide (Metabolite.annotation met !! "seed_id" = Some s).

Definition _convert_metabolite (met : Metabolite.t) (add_potentials verbose : bool)
  : M ThermoModel unit :=
  let* self := get in
  let metformula := Metabolite.formula met in
  let* thermo := thermo_of met in
  let metDeltaGF := deltaGf_tr thermo in
  let metComp := Metabolite.compartment met in
  let* comp := subscript (compartments self) metComp metComp in
  let* metLConc_lb := log (c_min comp) in
  let* metLConc_ub := log (c_max comp) in
  let Comp_pH := pH comp in
  let* LC :=
    if decide (metformula = "H2O") then
      let* LC := add_variable LogConcentration (Metabolite.id met) (Some 0) (Some 0) in
      ret (Some LC)
    else if decide (metformula = "H") then
      (* 10 ** -Comp_pH is positive, its logarithm is defined *)
      let* LC := add_variable LogConcentration (Metabolite.id met)
                   (Some (ln (Rpower 10 (- Comp_pH))))
                   (Some (ln (Rpower 10 (- Comp_pH)))) in
      ret (Some LC)
    else if seed_id_is met "cpd11416" then
      (* we do not create the thermo variables for biomass metabolite *)
      ret None
    else if decide (metDeltaGF < 10 ^ 6) then
      let* LC := add_variable LogConcentration (Metabolite.id met)
                   (Some metLConc_lb) (Some metLConc_ub) in
      exec (if add_potentials
            then
              (* self.add_variable('P_' + met.id, P_lb, P_ub): one positional
                 argument more than add_variable(self, kind, hook) takes *)
              raise (TypeError "add_variable() takes 3 positional arguments but 4 were given")
            else ret tt) in
      ret (Some LC)
    else ret None in
  match LC with
  | Some LC =>
      let* self := get in
      let* d := attribute (LC_vars self) "LC_vars" in
      modify (set_LC_vars (<[Metabolite.id met := LC]> d))
  | None => ret tt
  end.

(** [self.LC_vars[met]] *)
Definition LC_var (met : Metabolite.t) : M ThermoModel TypedVariable :=
  let* self := get in
  let* d := attribute (LC_vars self) "LC_vars" in
  subscript d (Metabolite.id met) (Metabolite.id met).

(** [self.P_vars[met]] *)
Definition P_var (met : Metabolite.t) : M ThermoModel TypedVariable :=
  let* self := get in
  let* d := attribute (P_vars self) "P_vars" in
  subscript d (Metabolite.id met) (Metabolite.id met).

(** [chem_stoich[met] += x] on a copy of the dict of the reaction. *)
Fixpoint stoich_add (d : list (Metabolite.t * R)) (met : Metabolite.t) (x : R)
  : option (list (Metabolite.t * R)) :=
  match d with
  | [] => None
  | (k, v) :: rest =>
      if decide (Metabolite.id k = Metabolite.id met) then Some ((k, v + x) :: rest)
      else cons (k, v) <$> stoich_add rest met x
  end.

(** One turn of [for type in ['reactant', 'product']]. *)
Definition transport_turn (RT : R) (trans : Transported) (is_reactant : bool)
  (acc : Expr * list (Metabolite.t * R))
  : M ThermoModel (Expr * list (Metabolite.t * R)) :=
  let '(LC_TransMet, chem_stoich) := acc in
  let met := if is_reactant then tr_reactant trans else tr_product trans in
  let* LC_TransMet :=
    if decide (Metabolite.formula met <> "H") then
      let* LC := LC_var met in
      ret (Add LC_TransMet
             (Scale (RT * tr_coeff trans * (if is_reactant then -1 else 1))
                (Sym (variable LC))))
    else ret LC_TransMet in
  match stoich_add chem_stoich met
          (tr_coeff trans * (if is_reactant then 1 else -1)) with
  | Some chem_stoich => ret (LC_TransMet, chem_stoich)
  | None => raise (KeyError (Metabolite.id met))
  end.

(** [for seed_id, trans in transportedMets.items()] *)
Fixpoint transport_terms (RT : R) (transportedMets : list (string * Transported))
  (acc : Expr * list (Metabolite.t * R))
  : M ThermoModel (Expr * list (Metabolite.t * R)) :=
  match transportedMets with
  | [] => ret acc
  | (_, trans) :: rest =>
      let* acc := transport_turn RT trans true acc in
      let* acc := transport_turn RT trans false acc in
      transport_terms RT rest acc
  end.

(** The sum of [self.LC_vars[met] * RT * stoich[met]] over the metabolites
    whose formula is neither H nor H2O. *)
Fixpoint chemical_terms (RT : R) (stoich : list (Metabolite.t * R)) (LC_ChemMet : Expr)
  : M ThermoModel Expr :=
  match stoich with
  | [] => ret LC_ChemMet
  | (met, v) :: rest =>
      if bool_decide (Metabolite.formula met ∉ ["H"; "H2O"]) then
        let* LC := LC_var met in
        chemical_terms RT rest (Add LC_ChemMet (Scale (RT * v) (Sym (variable LC))))
      else chemical_terms RT rest LC_ChemMet
  end.

(** The loop of the potential mode: RHS_DG and P_expr are summed and never
    read; what remains of the loop is the subscripts it evaluates. *)
Fixpoint potential_terms (mets : list (Metabolite.t * R)) : M ThermoModel unit :=
  match mets with
  | [] => ret tt
  | (met, v) :: rest =>
      let* thermo := thermo_of met in
      exec (if decide (Metabolite.formula met = "H2O") then ret tt
            else if decide (Metabolite.formula met <> "H")
                 then exec P_var met in ret tt
                 else ret tt) in
      potential_terms rest
  end.

(** [rxn.thermo[key]] *)
Definition rxn_thermo_of (rxn : Reaction.t) : M ThermoModel ReactionThermo :=
  let* self := get in
  attribute (rxn_thermo self !! Reaction.id rxn) "thermo".

Definition thermo_key {A} (v : option A) (key : string) : M ThermoModel A :=
  match v with
  | Some x => ret x
  | None => raise (KeyError key)
  end.

(** Is it a water transport reaction ? *)
Definition H2OtRxns (rxn : Reaction.t) (thermo : ReactionThermo) : M ThermoModel bool :=
  if isTrans thermo && bool_decide (length (Reaction.reactants rxn) = 1%nat) then
    match Reaction.reactants rxn with
    | met :: _ =>
        let* seed_id := subscript (Metabolite.annotation met) "seed_id" "seed_id" in
        ret (bool_decide (seed_id = "cpd00001"))
    | [] => ret false
    end
  else ret false.

(** The branch of [_convert_reaction] that adds the thermodynamic
    constraints; it returns the two use variables. *)
Definition thermo_branch (rxn : Reaction.t) (thermo : ReactionThermo)
  (add_potentials add_displacement : bool)
  : M ThermoModel (TypedVariable * TypedVariable) :=
  let* self := get in
  let RT := RT self in
  let DGR_lb := - BIGM_THERMO in
  let DGR_ub := BIGM_THERMO in
  let epsilon := feasibility self in
  let hook := Reaction.id rxn in
  let* DGR := add_variable DeltaG hook (Some DGR_lb) (Some DGR_ub) in
  let* RxnDGerror := thermo_key (deltaGRerr thermo) "deltaGRerr" in
  let* deltaGR := thermo_key (deltaGR thermo) "deltaGR" in
  let* DGoR := add_variable DeltaGstd hook
                 (Some (deltaGR - RxnDGerror)) (Some (deltaGR + RxnDGerror)) in
  let* '(LC_TransMet, LC_ChemMet) :=
    if isTrans thermo then
      let transportedMets := imports.find_transported_mets ext rxn in
      let chem_stoich := Reaction.metabolites rxn in
      let* '(LC_TransMet, chem_stoich) :=
        transport_terms RT transportedMets (Num 0, chem_stoich) in
      let chem_stoich := filter (fun mv => snd mv <> 0) chem_stoich in
      let* LC_ChemMet := chemical_terms RT chem_stoich (Num 0) in
      ret (LC_TransMet, LC_ChemMet)
    else if add_potentials then
      exec potential_terms (Reaction.metabolites rxn) in
      ret (Num 0, Num 0)
    else
      let* LC_ChemMet := chemical_terms RT (Reaction.metabolites rxn) (Num 0) in
      ret (Num 0, LC_ChemMet) in
  let CLHS := Add (Add (Sub (Sym (variable DGoR)) (Sym (variable DGR)))
                     LC_TransMet) LC_ChemMet in
  exec add_constraint NegativeDeltaG hook CLHS (Some 0) (Some 0) in
  exec (if add_displacement then
          let* lngamma := add_variable ThermoDisplacement hook
                            (Some (- BIGM_P)) (Some BIGM_P) in
          if decide (RT = 0) then raise ZeroDivisionError
          else
            let expr := Sub (Sym (variable lngamma))
                          (Scale (1 / RT) (Sym (variable DGR))) in
            exec add_constraint DisplacementCoupling hook expr (Some 0) (Some 0) in
            ret tt
        else ret tt) in
  let* FU_rxn := add_variable ForwardUseVariable hook None None in
  let CLHS := Add (Sym (variable DGR)) (Scale BIGM_THERMO (Sym (variable FU_rxn))) in
  exec add_constraint ForwardDeltaGCoupling hook CLHS
         None (Some (BIGM_THERMO - epsilon)) in
  let* BU_rxn := add_variable BackwardUseVariable hook None None in
  let CLHS := Sub (Scale BIGM_THERMO (Sym (variable BU_rxn))) (Sym (variable DGR)) in
  exec add_constraint BackwardDeltaGCoupling hook CLHS
         None (Some (BIGM_THERMO - epsilon)) in
  ret (FU_rxn, BU_rxn).

Definition _convert_reaction (rxn : Reaction.t)
  (add_potentials add_displacement verbose : bool) : M ThermoModel unit :=
  let hook := Reaction.id rxn in
  let* thermo := rxn_thermo_of rxn in
  let* H2OtRxns := H2OtRxns rxn thermo in
  let* computed := thermo_key (computed thermo) "computed" in
  let* '(FU_rxn, BU_rxn) :=
    if computed && negb H2OtRxns then
      thermo_branch rxn thermo add_potentials add_displacement
    else
      let* FU_rxn := add_variable ForwardUseVariable hook None None in
      let* BU_rxn := add_variable BackwardUseVariable hook None None in
      ret (FU_rxn, BU_rxn) in
  (* create the prevent simultaneous use constraints *)
  let CLHS := Add (Sym (variable FU_rxn)) (Sym (variable BU_rxn)) in
  exec add_constraint SimultaneousUse hook CLHS (Some 0) (Some 1) in
  (* create constraints that control fluxes with their use variables *)
  let F_rxn := forward_variable hook in
  let CLHS := Sub (Sym F_rxn) (Scale BIGM (Sym (variable FU_rxn))) in
  exec add_constraint ForwardDirectionCoupling hook CLHS None (Some 0) in
  let R_rxn := reverse_variable hook in
  let CLHS := Sub (Sym R_rxn) (Scale BIGM (Sym (variable BU_rxn))) in
  exec add_constraint BackwardDirectionCoupling hook CLHS None (Some 0) in
  ret tt.

(** Check each reactions' bounds *)
Definition check_bounds (reaction : Reaction.t) : M ThermoModel unit :=
  let bigM := BIGM in
  if decide (Reaction.lower_bound reaction < - bigM
             \/ Reaction.upper_bound reaction > bigM)
  then raise (Exception "flux bounds too wide or big M not big enough")
  else ret tt.

(** The [try] block of convert: ['isTrans' in reaction.thermo] raises when the
    reaction has no thermo attribute, and any exception becomes this one.  A
    thermo dict always has the key, so the body assigns nothing. *)
Definition check_thermo (reaction : Reaction.t) : M ThermoModel unit :=
  let* self := get in
  match rxn_thermo self !! Reaction.id reaction with
  | Some _ => ret tt
  | None => raise (Exception
                     "Reaction thermo data missing. Please run ThermoModel.prepare()")
  end.

(** [convert]: the rewriting of [item.name] that follows the checks touches no
    id and no name is read after it; [repair] rebuilds the groupings by kind,
    which are derived from the two registries. *)
Definition convert (add_potentials add_displacement verbose : bool)
  : M ThermoModel unit :=
  let* self := get in
  exec for_each (reactions self) check_bounds in
  exec for_each (reactions self) check_thermo in
  exec modify (set_LC_vars ∅) in
  exec modify (set_P_vars ∅) in
  exec for_each (metabolites self)
         (fun met => _convert_metabolite met add_potentials verbose) in
  for_each (reactions self)
    (fun rxn => _convert_reaction rxn add_potentials add_displacement verbose).

End tmodel.

(* --------------------------------------------------------------------- *)
(* ThermoModel.copy                                                       *)
(* --------------------------------------------------------------------- *)

(** What a typed variable hooks to: LogConcentration is added on a
    metabolite, the radius on the model (ModelVariable), the others on a
    reaction.  Every constraint kind is added on a reaction. *)
Inductive HookClass : Type := ReactionHook | MetaboliteHook | ModelHook.

Definition var_class (k : VarKind) : HookClass :=
  match k with
  | LogConcentration => MetaboliteHook
  | ChebyshevRadius => ModelHook
  | _ => ReactionHook
  end.

(** [new.reactions.get_by_id(id)] and [new.metabolites.get_by_id(id)] *)
Definition get_reaction_by_id (id : string) : M ThermoModel Reaction.t :=
  let* new := get in
  match list_find (fun r => Reaction.id r = id) (reactions new) with
  | Some (_, r) => ret r
  | None => raise (KeyError id)
  end.

Definition get_metabolite_by_id (id : string) : M ThermoModel Metabolite.t :=
  let* new := get in
  match list_find (fun m => Metabolite.id m = id) (metabolites new) with
  | Some (_, m) => ret m
  | None => raise (KeyError id)
  end.

Definition copy_variable (this_var : TypedVariable) : M ThermoModel unit :=
  match var_class (v_kind this_var) with
  | ReactionHook =>
      let* reaction := get_reaction_by_id (v_hook this_var) in
      exec add_variable (v_kind this_var) (Reaction.id reaction) None None in
      ret tt
  | MetaboliteHook =>
      let* metabolite := get_metabolite_by_id (v_hook this_var) in
      exec add_variable (v_kind this_var) (Metabolite.id metabolite) None None in
      ret tt
  | ModelHook => raise (TypeError "Class copy not handled yet")
  end.

(** The expression is read back from the cloned solver, which holds the one
    of [this_cons]; the bounds are assigned after the constraint is added. *)
Definition copy_constraint (this_cons : TypedConstraint) : M ThermoModel unit :=
  let* reaction := get_reaction_by_id (c_hook this_cons) in
  exec add_constraint (c_kind this_cons) (Reaction.id reaction) (c_expr this_cons)
         (c_lb this_cons) (c_ub this_cons) in
  ret tt.

(** [type(self)(self.thermo_data, self.parent, ...)] with the solver of
    [self] cloned into it: the host model and the constants of [self], none
    of the attributes that prepare and convert assign, empty registries. *)
Definition fresh_model (self : ThermoModel) : ThermoModel :=
  {| compartments := compartments self; metabolites := metabolites self;
     reactions := reactions self; compounds_data := compounds_data self;
     RT := RT self; feasibility := feasibility self;
     optimality := optimality self;
     met_thermo := ∅; rxn_thermo := ∅; _proton_of := None;
     LC_vars := None; P_vars := None; _var_dict := ∅; _cons_dict := ∅ |}.

Definition copy (self : ThermoModel) : Res ThermoModel :=
  let body : M ThermoModel unit :=
    exec for_each (map_to_list (_var_dict self)).*2 copy_variable in
    for_each (map_to_list (_cons_dict self)).*2 copy_constraint in
  match body (fresh_model self) with
  | (Ok _, new) => Ok new
  | (Raise e, _) => Raise e
  end.

(* --------------------------------------------------------------------- *)
(* pytfa.analysis.chebyshev                                               *)
(* --------------------------------------------------------------------- *)

Module chebyshev.

Definition BIGM : R := 1000.

(** The names the module binds: its imports and its own definitions. *)
Definition module_globals : list string :=
  ["tqdm"; "pd"; "np"; "norm"; "Constraint"; "GenericVariable";
   "ModelVariable"; "BIGM"; "ChebyshevRadius"; "is_inequality";
   "chebyshev_center"].

(** The builtins of Python that the module uses. *)
Definition builtins : list string :=
  ["isinstance"; "str"; "list"; "dict"; "type"; "set"; "float"; "len";
   "print"].

(** The evaluation of a global name: NameError when nothing binds it. *)
Definition global_name {S} (x : string) : M S unit :=
  if bool_decide (x ∈ (module_globals ++ builtins)%list) then ret tt
  else raise (NameError x).

(** A typed constraint is not an optlang Constraint: the bounds are those of
    [constraint.constraint]. *)
Definition is_inequality (constraint : TypedConstraint) : bool :=
  let the_cons := constraint in
  (* If one of the bounds is None, it's an inequality *)
  match c_lb the_cons, c_ub the_cons with
  | Some _, Some _ => false
  | _, _ => true
  end.

(** The argument [variables]: names of solver variables, or typed
    variables.  A name is written as the symbol it is the name of. *)
Inductive Variables : Type :=
  | names (l : list Symbol)
  | typed (l : list TypedVariable).

(** [norm(np.array(l, dtype=float), ord=2)] *)
Definition norm (l : list R) : R := sqrt (foldr Rplus 0 (map (fun x => x * x) l)).

(** The solver symbols that [variables] stands for. *)
Definition target_symbols (variables : Variables) : list Symbol :=
  match variables with
  | names l => l
  | typed l => map variable l
  end.

(** The radius variable and its solver symbol. *)
Definition radius (big_m : R) : TypedVariable :=
  Var ChebyshevRadius "radius" (Some 0) (Some big_m).
Definition r : Symbol := TVar ChebyshevRadius "radius".

(** The target variables that appear in a constraint, and the Euclidean norm
    of their coefficients. *)
Definition targets_in (vars : list Symbol) (cons : TypedConstraint) : list Symbol :=
  filter (fun x => x ∈ vars) (free_symbols (c_expr cons)).
Definition norm_a (vars : list Symbol) (cons : TypedConstraint) : R :=
  norm (map (fun x => coeff (c_expr cons) x) (targets_in vars cons)).

(** A constraint takes part in the reformulation: its kind passes the
    filter, it is an inequality, and it holds a target variable. *)
Definition takes_part (vars : list Symbol) (include exclude : list ConsKind)
  (cons : TypedConstraint) : Prop :=
  (c_kind cons ∉ exclude) /\ (c_kind cons ∈ include)
  /\ (c_lb cons = None \/ c_ub cons = None)
  /\ targets_in vars cons <> [].

(** The norm of the coefficients of the target variables in a constraint that
    takes part, [None] for a constraint that the first loop skips. *)
Definition to_edit (vars : list Symbol) (include exclude : list ConsKind)
  (cons : TypedConstraint) : option R :=
  if bool_decide (c_kind cons ∈ exclude) || bool_decide (c_kind cons ∉ include)
  then None
  else if negb (is_inequality cons) then None
  else
    let var_intersection := filter (fun x => x ∈ vars) (free_symbols (c_expr cons)) in
    match var_intersection with
    | [] => None
    | _ =>
        let a_i := map (fun x => coeff (c_expr cons) x) var_intersection in
        Some (norm a_i)
    end.

(** One turn of the second loop. *)
Definition edit (r : TypedVariable) (cons : TypedConstraint) (a_sq : R)
  : TypedConstraint :=
  let new_expr := c_expr cons in
  let new_expr :=
    match c_lb cons, c_ub cons with
    | None, _ =>
        (* It's a <= 0 constraint *)
        Add new_expr (Scale a_sq (Sym (variable r)))
    | Some _, None =>
        (* It's a >=0 constraint *)
        Sub new_expr (Scale a_sq (Sym (variable r)))
    | Some _, Some _ => new_expr
    end in
  change_expr new_expr cons.

(** The model once the radius is added and the two loops have run. *)
Definition reformulated (vars : list Symbol) (big_m : R)
  (include exclude : list ConsKind) (new : ThermoModel) : ThermoModel :=
  upd_cons_dict
    (map_imap (fun k cons =>
       match omap (to_edit vars include exclude) (_cons_dict new) !! k with
       | Some a_sq => Some (edit (radius big_m) cons a_sq)
       | None => Some cons
       end))
    (upd_var_dict (insert (ChebyshevRadius, "radius") (radius big_m)) new).

Section solver.

(** The solver behind [Model.optimize]: given the objective that
    chebyshev_center sets ([None]: the one the model carries) and the model,
    the primal values, or [None] for a SolverError. *)
Variable solver : option Symbol -> ThermoModel -> option (Symbol -> R).

(** [new.optimize()] *)
Definition optimize (objective : option Symbol) : M ThermoModel (Symbol -> R) :=
  let* new := get in
  match solver objective new with
  | Some primal => ret primal
  | None => raise SolverError
  end.

(** The object [new] the routine works on. *)
Definition working_model (model : ThermoModel) (inplace : bool) : Res ThermoModel :=
  if negb inplace then
    match copy model with
    | Ok new =>
        match optimize None new with
        | (Ok _, new) => Ok new
        | (Raise e, _) => Raise e
        end
    | Raise e => Raise e
    end
  else Ok model.

(** The body of chebyshev_center once [new] is bound. *)
Definition center (variables : Variables) (big_m : R)
  (include exclude : list ConsKind) : M ThermoModel (list (Symbol * R)) :=
  let* vars :=
    match variables with
    | names [] | typed [] => raise IndexError
    | names l => ret l
    | typed l => ret (map variable l)
    end in
  (* 0 - Create the Chebyshev radius variable *)
  let* r := add_variable ChebyshevRadius "radius" (Some 0) (Some big_m) in
  (* 1, 2 - Find the inequalities associated with the variables *)
  let* new := get in
  let cons_to_edit := omap (to_edit vars include exclude) (_cons_dict new) in
  (* 3 - Replace the constraint *)
  exec modify (upd_cons_dict
                 (map_imap (fun k cons =>
                              match cons_to_edit !! k with
                              | Some a_sq => Some (edit r cons a_sq)
                              | None => Some cons
                              end))) in
  (* 4 - Optimize *)
  let* primal := optimize (Some (variable r)) in
  exec (if decide (big_m - primal (variable r) <= optimality new)
        then global_name "warn"
        else ret tt) in
  ret (map (fun k => (k, primal k)) vars).

(** [chebyshev_center(model, variables, inplace, big_m, include, exclude)]:
    what it returns or raises, and the object [new] as it leaves it (the
    model itself when nothing was copied). *)
Definition chebyshev_center (model : ThermoModel) (variables : Variables)
  (inplace : bool) (big_m : R) (include exclude : list ConsKind)
  : Res (list (Symbol * R)) * ThermoModel :=
  match working_model model inplace with
  | Ok new => center variables big_m include exclude new
  | Raise e => (Raise e, model)
  end.

End solver.

End chebyshev.

(* --------------------------------------------------------------------- *)
(* The meaning of the formulation                                         *)
(* --------------------------------------------------------------------- *)

(** A point satisfies a constraint when the value of its expression lies
    between the bounds that are not open. *)
Definition satisfies (rho : Symbol -> R) (c : TypedConstraint) : Prop :=
  match c_lb c with Some lb => lb <= eval rho (c_expr c) | None => True end
  /\ match c_ub c with Some ub => eval rho (c_expr c) <= ub | None => True end.

(** A feasible solution of a model satisfies every registered constraint. *)
Definition feasible (rho : Symbol -> R) (m : ThermoModel) : Prop :=
  forall k c, _cons_dict m !! k = Some c -> satisfies rho c.

(** A transport reaction whose only reactant is water. *)
Definition water_transport (rxn : Reaction.t) (thermo : ReactionThermo) : Prop :=
  isTrans thermo = true
  /\ exists met, Reaction.reactants rxn = [met]
                 /\ Metabolite.annotation met !! "seed_id" = Some "cpd00001".

(** A model with the two registries replaced. *)
Definition with_registries
  (V : gmap (VarKind * string) TypedVariable)
  (C : gmap (ConsKind * string) TypedConstraint) (m : ThermoModel) : ThermoModel :=
  upd_cons_dict (fun _ => C) (upd_var_dict (fun _ => V) m).

(** Every object of a registry is filed under its own name. *)
Definition registry_ok (m : ThermoModel) : Prop :=
  (forall k v, _var_dict m !! k = Some v -> v_name v = k)
  /\ (forall k c, _cons_dict m !! k = Some c -> c_name c = k).

(** A computation that only reads the object. *)
Definition readonly {S A} (c : M S A) : Prop :=
  forall s r s', c s = (r, s') -> s' = s.

(** Every entry of LC_vars is the log-concentration variable of its key. *)
Definition lc_ok (m : ThermoModel) : Prop :=
  forall d k v, LC_vars m = Some d -> d !! k = Some v ->
                variable v = TVar LogConcentration k.

(** An expression over log-concentration variables only. *)
Definition lc_expr (e : Expr) : Prop :=
  forall x, x ∈ symbols e -> exists h, x = TVar LogConcentration h.

(** The objects that the thermodynamic branch registers for the reaction
    [id]: the variables, then the constraints. *)
Definition DeltaG_of (num : numerics.t) (id : string) : TypedVariable :=
  Var DeltaG id (Some (- numerics.BIGM_THERMO num)) (Some (numerics.BIGM_THERMO num)).
Definition DeltaGstd_of (id : string) (deltaGR deltaGRerr : R) : TypedVariable :=
  Var DeltaGstd id (Some (deltaGR - deltaGRerr)) (Some (deltaGR + deltaGRerr)).
Definition ThermoDisplacement_of (num : numerics.t) (id : string) : TypedVariable :=
  Var ThermoDisplacement id (Some (- numerics.BIGM_P num)) (Some (numerics.BIGM_P num)).
Definition ForwardUse_of (id : string) : TypedVariable :=
  Var ForwardUseVariable id None None.
Definition BackwardUse_of (id : string) : TypedVariable :=
  Var BackwardUseVariable id None None.

Definition NegativeDeltaG_of (id : string) (LC_TransMet LC_ChemMet : Expr)
  : TypedConstraint :=
  Cons NegativeDeltaG id
    (Add (Add (Sub (Sym (TVar DeltaGstd id)) (Sym (TVar DeltaG id))) LC_TransMet)
       LC_ChemMet)
    (Some 0) (Some 0).
Definition DisplacementCoupling_of (id : string) (RT : R) : TypedConstraint :=
  Cons DisplacementCoupling id
    (Sub (Sym (TVar ThermoDisplacement id)) (Scale (1 / RT) (Sym (TVar DeltaG id))))
    (Some 0) (Some 0).
Definition ForwardDeltaGCoupling_of (num : numerics.t) (id : string) (epsilon : R)
  : TypedConstraint :=
  Cons ForwardDeltaGCoupling id
    (Add (Sym (TVar DeltaG id))
       (Scale (numerics.BIGM_THERMO num) (Sym (TVar ForwardUseVariable id))))
    None (Some (numerics.BIGM_THERMO num - epsilon)).
Definition BackwardDeltaGCoupling_of (num : numerics.t) (id : string) (epsilon : R)
  : TypedConstraint :=
  Cons BackwardDeltaGCoupling id
    (Sub (Scale (numerics.BIGM_THERMO num) (Sym (TVar BackwardUseVariable id)))
       (Sym (TVar DeltaG id)))
    None (Some (numerics.BIGM_THERMO num - epsilon)).
Definition SimultaneousUse_of (id : string) : TypedConstraint :=
  Cons SimultaneousUse id
    (Add (Sym (TVar ForwardUseVariable id)) (Sym (TVar BackwardUseVariable id)))
    (Some 0) (Some 1).
Definition ForwardDirectionCoupling_of (num : numerics.t) (id : string)
  : TypedConstraint :=
  Cons ForwardDirectionCoupling id
    (Sub (Sym (forward_variable id))
       (Scale (numerics.BIGM num) (Sym (TVar ForwardUseVariable id))))
    None (Some 0).
Definition BackwardDirectionCoupling_of (num : numerics.t) (id : string)
  : TypedConstraint :=
  Cons BackwardDirectionCoupling id
    (Sub (Sym (reverse_variable id))
       (Scale (numerics.BIGM num) (Sym (TVar BackwardUseVariable id))))
    None (Some 0).

(** The registries after the thermodynamic branch ran on registries [V], [C]. *)
Definition thermo_branch_vars (num : numerics.t) (id : string)
  (deltaGR deltaGRerr : R) (add_displacement : bool)
  (V : gmap (VarKind * string) TypedVariable) : gmap (VarKind * string) TypedVariable :=
  <[(BackwardUseVariable, id) := BackwardUse_of id]>
    (<[(ForwardUseVariable, id) := ForwardUse_of id]>
       ((if add_displacement
         then <[(ThermoDisplacement, id) := ThermoDisplacement_of num id]>
         else fun V => V)
          (<[(DeltaGstd, id) := DeltaGstd_of id deltaGR deltaGRerr]>
             (<[(DeltaG, id) := DeltaG_of num id]> V)))).

Definition thermo_branch_cons (num : numerics.t) (id : string)
  (LC_TransMet LC_ChemMet : Expr) (RT epsilon : R) (add_displacement : bool)
  (C : gmap (ConsKind * string) TypedConstraint)
  : gmap (ConsKind * string) TypedConstraint :=
  <[(BackwardDeltaGCoupling, id) := BackwardDeltaGCoupling_of num id epsilon]>
    (<[(ForwardDeltaGCoupling, id) := ForwardDeltaGCoupling_of num id epsilon]>
       ((if add_displacement
         then <[(DisplacementCoupling, id) := DisplacementCoupling_of id RT]>
         else fun C => C)
          (<[(NegativeDeltaG, id) := NegativeDeltaG_of id LC_TransMet LC_ChemMet]> C))).

(** The registries after the part of _convert_reaction that every reaction
    goes through. *)
Definition use_cons (num : numerics.t) (id : string)
  (C : gmap (ConsKind * string) TypedConstraint)
  : gmap (ConsKind * string) TypedConstraint :=
  <[(BackwardDirectionCoupling, id) := BackwardDirectionCoupling_of num id]>
    (<[(ForwardDirectionCoupling, id) := ForwardDirectionCoupling_of num id]>
       (<[(SimultaneousUse, id) := SimultaneousUse_of id]> C)).

Definition use_vars (id : string) (V : gmap (VarKind * string) TypedVariable)
  : gmap (VarKind * string) TypedVariable :=
  <[(BackwardUseVariable, id) := BackwardUse_of id]>
    (<[(ForwardUseVariable, id) := ForwardUse_of id]> V).

(** Two states of one model: what prepare computed and what the solver is
    configured with are the same in both. *)
Definition same_host (m m' : ThermoModel) : Prop :=
  compartments m' = compartments m /\ metabolites m' = metabolites m
  /\ reactions m' = reactions m /\ RT m' = RT m
  /\ feasibility m' = feasibility m /\ optimality m' = optimality m
  /\ met_thermo m' = met_thermo m /\ rxn_thermo m' = rxn_thermo m.

(** The objects hooked to [h] are the same in both states. *)
Definition same_on_hook (h : string) (m m' : ThermoModel) : Prop :=
  forall h', h' = h ->
    (forall k, _var_dict m' !! (k, h') = _var_dict m !! (k, h'))
    /\ (forall k, _cons_dict m' !! (k, h') = _cons_dict m !! (k, h')).

(** The variable that _convert_metabolite registers for a metabolite with
    thermo record [th] in compartment [comp], if any. *)
Definition LC_of (met : Metabolite.t) (th : MetaboliteThermo) (comp : Compartment)
  : option TypedVariable :=
  if decide (Metabolite.formula met = "H2O") then
    Some (Var LogConcentration (Metabolite.id met) (Some 0) (Some 0))
  else if decide (Metabolite.formula met = "H") then
    Some (Var LogConcentration (Metabolite.id met)
            (Some (ln (Rpower 10 (- pH comp)))) (Some (ln (Rpower 10 (- pH comp)))))
  else if seed_id_is met "cpd11416" then None
  else if decide (deltaGf_tr th < 10 ^ 6) then
    Some (Var LogConcentration (Metabolite.id met)
            (Some (ln (c_min comp))) (Some (ln (c_max comp))))
  else None.

(** The registry holds the variable [v], and no other object of its kind on
    its hook; likewise for a constraint. *)
Definition exactly_one_var (m : ThermoModel) (v : TypedVariable) : Prop :=
  _var_dict m !! v_name v = Some v
  /\ forall key v', _var_dict m !! key = Some v' ->
        v_kind v' = v_kind v -> v_hook v' = v_hook v -> key = v_name v.

Definition exactly_one_cons (m : ThermoModel) (c : TypedConstraint) : Prop :=
  _cons_dict m !! c_name c = Some c
  /\ forall key c', _cons_dict m !! key = Some c' ->
        c_kind c' = c_kind c -> c_hook c' = c_hook c -> key = c_name c.

(* --------------------------------------------------------------------- *)
(* A small model: A <-> B in one compartment                              *)
(* --------------------------------------------------------------------- *)

Module example.

Definition num : numerics.t :=
  numerics.Build 1000 1000 1000 1000.

Definition ext : imports.t :=
  imports.Build
    (fun metData _ _ =>
       match metData with
       | Some d => {| deltaGf_std := cd_deltaGf_std d;
                      deltaGf_tr := cd_deltaGf_std d;
                      deltaGf_err := cd_error d |}
       | None => {| deltaGf_std := 10 ^ 7; deltaGf_tr := 10 ^ 7;
                    deltaGf_err := 10 ^ 7 |}
       end)
    (fun _ _ => "balanced")
    (fun _ => false)
    (fun _ => [])
    (fun _ _ _ => (0, 0))
    (fun _ _ => 0).

Definition cytosol : Compartment :=
  {| pH := 7; ionicStr := 0; c_min := / 100000; c_max := / 100 |}.

Definition A : Metabolite.t :=
  Metabolite.Build "A" "pyruvate" "C3H3O3" "c" {["seed_id" := "cpd00020"]}.
Definition B : Metabolite.t :=
  Metabolite.Build "B" "lactate" "C3H5O3" "c" {["seed_id" := "cpd00159"]}.
Definition proton : Metabolite.t :=
  Metabolite.Build "h" "proton" "H" "c" {["seed_id" := "cpd00067"]}.

(** A <-> B, with flux bounds on the big M itself. *)
Definition R1 : Reaction.t :=
  Reaction.Build "R1" [(A, -1); (B, 1)] (-1000) 1000.

(** The model before prepare. *)
Definition raw : ThermoModel :=
  {| compartments := {["c" := cytosol]};
     metabolites := [A; B; proton];
     reactions := [R1];
     compounds_data :=
       {["cpd00020" := {| cd_deltaGf_std := -100; cd_formula := "C3H3O3";
                          cd_charge := -1; cd_error := 1 |};
         "cpd00159" := {| cd_deltaGf_std := -120; cd_formula := "C3H5O3";
                          cd_charge := -1; cd_error := 1 |};
         "cpd00067" := {| cd_deltaGf_std := 0; cd_formula := "H";
                          cd_charge := 1; cd_error := 0 |}]};
     RT := 2;
     feasibility := / 1000000;
     optimality := / 1000000;
     met_thermo := ∅; rxn_thermo := ∅; _proton_of := None;
     LC_vars := None; P_vars := None; _var_dict := ∅; _cons_dict := ∅ |}.

Definition thermo_A : MetaboliteThermo :=
  {| deltaGf_std := -100; deltaGf_tr := -100; deltaGf_err := 1 |}.
Definition thermo_B : MetaboliteThermo :=
  {| deltaGf_std := -120; deltaGf_tr := -120; deltaGf_err := 1 |}.
Definition thermo_proton : MetaboliteThermo :=
  {| deltaGf_std := 0; deltaGf_tr := 0; deltaGf_err := 0 |}.
Definition thermo_R1 : ReactionThermo :=
  {| isTrans := false; computed := Some true; deltaGR := Some (-20);
     deltaGRerr := Some 2; deltaGrxn := None |}.

(** The model as prepare leaves it. *)
Definition prepared : ThermoModel :=
  set_proton_of {["c" := proton]}
    (upd_rxn_thermo (fun _ => {["R1" := thermo_R1]})
       (upd_met_thermo
          (fun _ => <["h" := thermo_proton]>
                      (<["B" := thermo_B]> (<["A" := thermo_A]> ∅)))
          raw)).

(** The state in which the loop of convert over the metabolites starts. *)
Definition emptied : ThermoModel := set_P_vars ∅ (set_LC_vars ∅ prepared).

(** The log-concentration variables of A, B and the proton. *)
Definition LC_A : TypedVariable :=
  Var LogConcentration "A" (Some (ln (/ 100000))) (Some (ln (/ 100))).
Definition LC_B : TypedVariable :=
  Var LogConcentration "B" (Some (ln (/ 100000))) (Some (ln (/ 100))).
Definition LC_proton : TypedVariable :=
  Var LogConcentration "h" (Some (ln (Rpower 10 (- 7)))) (Some (ln (Rpower 10 (- 7)))).

(** The state in which the loop of convert over the reactions starts. *)
Definition with_LC : ThermoModel :=
  set_LC_vars (<["h" := LC_proton]> (<["B" := LC_B]> (<["A" := LC_A]> ∅)))
    (upd_var_dict
       (fun _ => <[(LogConcentration, "h") := LC_proton]>
                   (<[(LogConcentration, "B") := LC_B]>
                      (<[(LogConcentration, "A") := LC_A]> ∅)))
       emptied).

(** The sum RT * (-1) * LC_A + RT * 1 * LC_B of R1. *)
Definition LC_ChemMet_R1 : Expr :=
  Add (Add (Num 0) (Scale (2 * -1) (Sym (TVar LogConcentration "A"))))
    (Scale (2 * 1) (Sym (TVar LogConcentration "B"))).

(** The model as convert leaves it. *)
Definition converted (add_displacement : bool) : ThermoModel :=
  with_registries
    (thermo_branch_vars num "R1" (-20) 2 add_displacement (_var_dict with_LC))
    (use_cons num "R1"
       (thermo_branch_cons num "R1" (Num 0) LC_ChemMet_R1 2 (/ 1000000)
          add_displacement ∅))
    with_LC.

(** The same model with a flux bound beyond the big M. *)
Definition too_wide : ThermoModel :=
  {| compartments := compartments prepared; metabolites := metabolites prepared;
     reactions := [Reaction.Build "R1" [(A, -1); (B, 1)] (-2000) 1000];
     compounds_data := compounds_data prepared; RT := RT prepared;
     feasibility := feasibility prepared; optimality := optimality prepared;
     met_thermo := met_thermo prepared; rxn_thermo := rxn_thermo prepared;
     _proton_of := _proton_of prepared; LC_vars := None; P_vars := None;
     _var_dict := ∅; _cons_dict := ∅ |}.

(** A proton that carries the annotation of the biomass marker, and a state
    that holds its thermo record. *)
Definition marked_proton : Metabolite.t :=
  Metabolite.Build "bm" "biomass" "H" "c" {["seed_id" := "cpd11416"]}.
Definition with_marked_proton : ThermoModel :=
  upd_met_thermo (insert "bm" thermo_proton) emptied.

(** The prepared model with the direction coupling of R1 registered. *)
Definition coupled : ThermoModel :=
  upd_cons_dict
    (fun _ => {[(ForwardDirectionCoupling, "R1")
                := ForwardDirectionCoupling_of num "R1"]})
    prepared.

(** A solver that finds the radius at its upper bound 1000 and every other
    variable at 0. *)
Definition solver (objective : option Symbol) (m : ThermoModel)
  : option (Symbol -> R) :=
  Some (fun x => if decide (x = chebyshev.r) then 1000 else 0).


End example.

(** The proton handed to the balance check of a reaction. *)
Definition proton_for (proton_of : gmap string Metabolite.t) (reaction : Reaction.t)
  : option Metabolite.t :=
  match reaction_compartment reaction with
  | Some c => proton_of !! c
  | None => None
  end.

(** Some metabolite of the reaction has a standard Gibbs energy of formation
    above 0.9 * BIGM_DG, the mark of a compound without usable data. *)
Definition lacks_thermo_data (num : numerics.t) (m : ThermoModel)
  (mets : list (Metabolite.t * R)) : Prop :=
  exists mv th, mv ∈ mets
    /\ met_thermo m !! Metabolite.id (fst mv) = Some th
    /\ deltaGf_std th > 0.9 * numerics.BIGM_DG num.

(** The reasons for which prepare gives up on the thermodynamics of a
    reaction. *)
Definition not_computed (num : numerics.t) (ext : imports.t) (m : ThermoModel)
  (proton_of : gmap string Metabolite.t) (reaction : Reaction.t) : Prop :=
  length (Reaction.metabolites reaction) = 1%nat
  \/ lacks_thermo_data num m (Reaction.metabolites reaction)
  \/ (100 <= length (Reaction.metabolites reaction))%nat
  \/ imports.check_reaction_balance ext reaction (proton_for proton_of reaction)
     ∈ ["missing atoms"; "drain flux"].

(** Two states that differ in the thermo records of the reactions only. *)
Definition rxn_thermo_only (m m' : ThermoModel) : Prop :=
  m' = upd_rxn_thermo (fun _ => rxn_thermo m') m.


(** What prepare leaves alone: the host model, the registries and the
    dicts of convert. *)
Definition prepare_frame (m m' : ThermoModel) : Prop :=
  compartments m' = compartments m /\ metabolites m' = metabolites m
  /\ reactions m' = reactions m /\ compounds_data m' = compounds_data m
  /\ RT m' = RT m /\ feasibility m' = feasibility m
  /\ optimality m' = optimality m
  /\ LC_vars m' = LC_vars m /\ P_vars m' = P_vars m
  /\ _var_dict m' = _var_dict m /\ _cons_dict m' = _cons_dict m.

(* --------------------------------------------------------------------- *)
(* The small model with a reaction that prepare gave up on                *)
(* --------------------------------------------------------------------- *)

Module scenario.

(** The thermo record of a reaction that is not computed. *)
Definition thermo_skipped : ReactionThermo :=
  {| isTrans := false; computed := Some false; deltaGR := Some 1000;
     deltaGRerr := Some 1000; deltaGrxn := None |}.

(** The example model with R1 not computed: prepared, then between the two
    loops of convert, then converted. *)
Definition skipped : ThermoModel :=
  upd_rxn_thermo (fun _ => {["R1" := thermo_skipped]}) example.prepared.

Definition skipped_with_LC : ThermoModel :=
  upd_rxn_thermo (fun _ => {["R1" := thermo_skipped]}) example.with_LC.

Definition skipped_converted : ThermoModel :=
  with_registries
    (use_vars "R1" (_var_dict example.with_LC))
    (use_cons example.num "R1" ∅)
    skipped_with_LC.

End scenario.


(** A metabolite to which the loop of convert over the metabolites gives a
    log-concentration variable. *)
Definition receives_LC (m : ThermoModel) (met : Metabolite.t) : Prop :=
  exists th comp,
    met_thermo m !! Metabolite.id met = Some th
    /\ compartments m !! Metabolite.compartment met = Some comp
    /\ is_Some (LC_of met th comp).

(** What a reaction asks of the model for _convert_reaction to go through
    without potentials: a thermo record with the key computed, an annotated
    reactant when the water-transport test reads it and, for a reaction that
    takes the thermodynamic branch, no transport, the two energies, a
    temperature when the displacement divides by RT, and a log-concentration
    variable for every participant other than protons and water. *)
Definition reaction_convertible (ad : bool) (m : ThermoModel) (r : Reaction.t)
  : Prop :=
  exists th c,
    rxn_thermo m !! Reaction.id r = Some th /\ computed th = Some c
    /\ (isTrans th = true -> forall met, Reaction.reactants r = [met] ->
          is_Some (Metabolite.annotation met !! "seed_id"))
    /\ (c = true -> ~ water_transport r th ->
        isTrans th = false
        /\ is_Some (deltaGR th) /\ is_Some (deltaGRerr th)
        /\ (ad = true -> RT m <> 0)
        /\ forall mv, mv ∈ Reaction.metabolites r ->
             Metabolite.formula (fst mv) ∉ ["H"; "H2O"] ->
             exists met, met ∈ metabolites m
               /\ Metabolite.id met = Metabolite.id (fst mv)
               /\ receives_LC m met).

(** A model on which convert, without potentials, returns. *)
Definition convertible (num : numerics.t) (ad : bool) (m : ThermoModel) : Prop :=
  (forall r, r ∈ reactions m ->
     - numerics.BIGM num <= Reaction.lower_bound r
     /\ Reaction.upper_bound r <= numerics.BIGM num)
  /\ (forall met, met ∈ metabolites m ->
        exists th comp,
          met_thermo m !! Metabolite.id met = Some th
          /\ compartments m !! Metabolite.compartment met = Some comp
          /\ 0 < c_min comp /\ 0 < c_max comp)
  /\ (forall r, r ∈ reactions m -> reaction_convertible ad m r).


(** The sum of a list of numbers, and the point [rho] moved by [d]. *)
Definition sum_list (l : list R) : R := foldr Rplus 0 l.

Definition moved (rho d : Symbol -> R) : Symbol -> R := fun x => rho x + d x.


(* --------------------------------------------------------------------- *)
(* ThermoModel.remove_variable, remove_constraint, normalize_reactions    *)
(* --------------------------------------------------------------------- *)


Definition remove_constraint (cons : TypedConstraint) : M ThermoModel unit :=
  let* self := get in
  exec subscript (_cons_dict self) (c_name cons) (c_hook cons) in
  modify (upd_cons_dict (delete (c_name cons))).

Definition MAX_STOICH : R := 10.

(** [max(values)]: [None] stands for the ValueError on an empty sequence. *)
Definition max_of (values : list R) : option R :=
  match values with
  | [] => None
  | x :: rest => Some (foldl Rmax x rest)
  end.

(** cobra's [reaction.add_metabolites(to_add)] with its default
    [combine=True]: the coefficient of a metabolite that the reaction has
    (found by its id) is added to, another metabolite is appended, and the
    metabolites whose coefficient comes to 0 leave the reaction. *)
Definition add_metabolites (to_add mets : list (Metabolite.t * R))
  : list (Metabolite.t * R) :=
  filter (fun mv => snd mv <> 0)
    (foldl (fun acc kx =>
              match stoich_add acc (fst kx) (snd kx) with
              | Some acc' => acc'
              | None => (acc ++ [kx])%list
              end)
       mets to_add).

(** One turn of the loop of normalize_reactions. *)
Definition normalize_reaction (this_reaction : Reaction.t) : Res Reaction.t :=
  let metabolites := Reaction.metabolites this_reaction in
  match max_of (snd <$> metabolites) with
  | None => Raise (ValueError "max() arg is an empty sequence")
  | Some max_stoichiometry =>
      if decide (max_stoichiometry > MAX_STOICH) then
        let new_metabolites :=
          map (fun kv => (fst kv, - snd kv + snd kv / max_stoichiometry))
            metabolites in
        Ok (Reaction.Build (Reaction.id this_reaction)
              (add_metabolites new_metabolites metabolites)
              (Reaction.lower_bound this_reaction)
              (Reaction.upper_bound this_reaction))
      else Ok this_reaction
  end.

(** The loop: the reactions are changed in place, one after the other, and
    an exception leaves the ones already visited changed. *)
Fixpoint normalize_loop (todo : list Reaction.t) : Res unit * list Reaction.t :=
  match todo with
  | [] => (Ok tt, [])
  | this_reaction :: rest =>
      match normalize_reaction this_reaction with
      | Ok r' => let '(res, rest') := normalize_loop rest in (res, r' :: rest')
      | Raise e => (Raise e, this_reaction :: rest)
      end
  end.

Definition set_reactions (l : list Reaction.t) (m : ThermoModel) : ThermoModel :=
  {| compartments := compartments m; metabolites := metabolites m;
     reactions := l; compounds_data := compounds_data m; RT := RT m;
     feasibility := feasibility m; optimality := optimality m;
     met_thermo := met_thermo m; rxn_thermo := rxn_thermo m;
     _proton_of := _proton_of m; LC_vars := LC_vars m; P_vars := P_vars m;
     _var_dict := _var_dict m; _cons_dict := _cons_dict m |}.

Definition normalize_reactions : M ThermoModel unit :=
  fun self =>
    let '(res, l) := normalize_loop (reactions self) in (res, set_reactions l self).

(** The ids of the metabolites of a reaction, and its coefficients. *)
Definition participant_ids (r : Reaction.t) : list string :=
  map (fun mv => Metabolite.id (fst mv)) (Reaction.metabolites r).
Definition coefficients (r : Reaction.t) : list R :=
  snd <$> Reaction.metabolites r.

(** A reaction as a cobra model holds it: a dict has one entry per
    metabolite. *)
Definition well_formed (r : Reaction.t) : Prop := NoDup (participant_ids r).

(** The small model with one reaction of greatest coefficient 20. *)
Module stoichiometry.

Definition R2 : Reaction.t :=
  Reaction.Build "R2" [(example.A, -1); (example.B, 20)] 0 1000.

Definition model : ThermoModel := set_reactions [R2] example.raw.

End stoichiometry.


(** The thermo record that prepare computes for a metabolite, when it has a
    known compartment and a seed_id. *)
Definition thermo_record (ext : imports.t) (m : ThermoModel) (met : Metabolite.t)
  : option MetaboliteThermo :=
  match compartments m !! Metabolite.compartment met,
        Metabolite.annotation met !! "seed_id" with
  | Some comp, Some seed_id =>
      Some (imports.MetaboliteThermo_init ext (compounds_data m !! seed_id)
              (pH comp) (ionicStr comp))
  | _, _ => None
  end.

(** A model that prepare and then convert, without potentials, go through:
    flux bounds within the big M, positive concentration bounds, no
    transport reaction, and every participant of a reaction other than
    protons and water a metabolite of the model that is not the biomass
    marker and whose Gibbs energy of formation is known. *)
Definition ready (num : numerics.t) (ext : imports.t) (ad : bool) (m : ThermoModel)
  : Prop :=
  NoDup (Metabolite.id <$> metabolites m)
  /\ NoDup (Reaction.id <$> reactions m)
  /\ (forall r, r ∈ reactions m ->
        - numerics.BIGM num <= Reaction.lower_bound r
        /\ Reaction.upper_bound r <= numerics.BIGM num)
  /\ (forall met comp, met ∈ metabolites m ->
        compartments m !! Metabolite.compartment met = Some comp ->
        0 < c_min comp /\ 0 < c_max comp)
  /\ (forall r, r ∈ reactions m -> imports.check_transport_reaction ext r = false)
  /\ (forall r mv, r ∈ reactions m -> mv ∈ Reaction.metabolites r ->
        Metabolite.formula (fst mv) ∉ ["H"; "H2O"] ->
        fst mv ∈ metabolites m
        /\ seed_id_is (fst mv) "cpd11416" = false
        /\ forall th, thermo_record ext m (fst mv) = Some th ->
                      deltaGf_tr th < 10 ^ 6)
  /\ (ad = true -> RT m <> 0).





(* --------------------------------------------------------------------- *)
(* ThermoModel.repair and the groupings by kind                           *)
(* --------------------------------------------------------------------- *)

(** The names of the classes, under which the groupings are filed. *)
Definition VarKind_name (k : VarKind) : string :=
  match k with
  | LogConcentration => "LogConcentration" | DeltaG => "DeltaG"
  | DeltaGstd => "DeltaGstd" | ForwardUseVariable => "ForwardUseVariable"
  | BackwardUseVariable => "BackwardUseVariable"
  | ThermoDisplacement => "ThermoDisplacement"
  | ChebyshevRadius => "ChebyshevRadius"
  end.

Definition ConsKind_name (k : ConsKind) : string :=
  match k with
  | SimultaneousUse => "SimultaneousUse" | NegativeDeltaG => "NegativeDeltaG"
  | BackwardDeltaGCoupling => "BackwardDeltaGCoupling"
  | ForwardDeltaGCoupling => "ForwardDeltaGCoupling"
  | BackwardDirectionCoupling => "BackwardDirectionCoupling"
  | ForwardDirectionCoupling => "ForwardDirectionCoupling"
  | DisplacementCoupling => "DisplacementCoupling"
  end.

(** What regenerate_variables and regenerate_constraints keep on the model
    next to the registries: the two defaultdicts [_var_kinds] and
    [_cons_kinds] ([None] before the first repair), and the attributes that
    setattr created, one per kind (camel2underscores of the class name; a
    field is written here by its kind). *)
Record Groupings : Type := {
  _var_kinds : option (gmap VarKind (list TypedVariable));
  _cons_kinds : option (gmap ConsKind (list TypedConstraint));
  var_fields : gset VarKind;
  cons_fields : gset ConsKind
}.

Definition set_var_kinds (d : gmap VarKind (list TypedVariable)) (g : Groupings)
  : Groupings :=
  {| _var_kinds := Some d; _cons_kinds := _cons_kinds g;
     var_fields := var_fields g; cons_fields := cons_fields g |}.
Definition set_cons_kinds (d : gmap ConsKind (list TypedConstraint)) (g : Groupings)
  : Groupings :=
  {| _var_kinds := _var_kinds g; _cons_kinds := Some d;
     var_fields := var_fields g; cons_fields := cons_fields g |}.
Definition set_var_fields (f : gset VarKind) (g : Groupings) : Groupings :=
  {| _var_kinds := _var_kinds g; _cons_kinds := _cons_kinds g;
     var_fields := f; cons_fields := cons_fields g |}.
Definition set_cons_fields (f : gset ConsKind) (g : Groupings) : Groupings :=
  {| _var_kinds := _var_kinds g; _cons_kinds := _cons_kinds g;
     var_fields := var_fields g; cons_fields := f |}.

(** A model as a new ThermoModel object has them. *)
Definition no_groupings : Groupings :=
  {| _var_kinds := None; _cons_kinds := None; var_fields := ∅; cons_fields := ∅ |}.

(** The object with its groupings; a method of the model proper leaves the
    groupings alone. *)
Definition Indexed : Type := ThermoModel * Groupings.

Definition lift {A} (c : M ThermoModel A) : M Indexed A :=
  fun s => let '(r, m') := c (fst s) in (r, (m', snd s)).

Definition upd_groupings (f : Groupings -> Groupings) : M Indexed unit :=
  modify (fun s => (fst s, f (snd s))).

Section grouping.

Context {K V : Type} `{Countable K}.
Variable kind : V -> K.
Variable id : V -> string.

(** Modelled from the spec: [kinds[name].append(v)] on a defaultdict of cobra
    DictLists.  A DictList refuses an object whose id it already holds; the
    id of a typed object is that of its hook, the spec having each (kind,
    hook) pair unique. *)
Definition append_to (kinds : gmap K (list V)) (v : V) : Res (gmap K (list V)) :=
  let l := default [] (kinds !! kind v) in
  if decide (id v ∈ (id <$> l))
  then Raise (ValueError ("id " +:+ id v +:+ " is already present in list"))
  else Ok (<[kind v := (l ++ [v])%list]> kinds).

(** [for k, v in d.items(): kinds[v.__class__.__name__].append(v)] *)
Fixpoint group_by (items : list V) (kinds : gmap K (list V))
  : Res (gmap K (list V)) :=
  match items with
  | [] => Ok kinds
  | v :: rest =>
      match append_to kinds v with
      | Ok kinds' => group_by rest kinds'
      | Raise e => Raise e
      end
  end.

End grouping.

(** [delattr(self, attrname)]: AttributeError when the object has no such
    attribute. *)
Definition delattr_var (k : VarKind) : M Indexed unit :=
  let* s := get in
  if decide (k ∈ var_fields (snd s))
  then upd_groupings (fun g => set_var_fields (var_fields g ∖ {[k]}) g)
  else raise (AttributeError (VarKind_name k)).

Definition delattr_cons (k : ConsKind) : M Indexed unit :=
  let* s := get in
  if decide (k ∈ cons_fields (snd s))
  then upd_groupings (fun g => set_cons_fields (cons_fields g ∖ {[k]}) g)
  else raise (AttributeError (ConsKind_name k)).

Definition regenerate_variables : M Indexed unit :=
  let* s := get in
  (* Let us not forget to remove fields that migh be empty by now *)
  exec (match _var_kinds (snd s) with
        | Some kinds => for_each (map_to_list kinds).*1 delattr_var
        | None => ret tt
        end) in
  let* s := get in
  match group_by v_kind v_hook (map_to_list (_var_dict (fst s))).*2 ∅ with
  | Raise e => raise e
  | Ok kinds =>
      exec upd_groupings (fun g => set_var_fields (var_fields g ∪ dom kinds) g) in
      upd_groupings (set_var_kinds kinds)
  end.

Definition regenerate_constraints : M Indexed unit :=
  let* s := get in
  (* Let us not forget to remove fields that migh be empty by now *)
  exec (match _cons_kinds (snd s) with
        | Some kinds => for_each (map_to_list kinds).*1 delattr_cons
        | None => ret tt
        end) in
  let* s := get in
  match group_by c_kind c_hook (map_to_list (_cons_dict (fst s))).*2 ∅ with
  | Raise e => raise e
  | Ok kinds =>
      exec upd_groupings (fun g => set_cons_fields (cons_fields g ∪ dom kinds) g) in
      upd_groupings (set_cons_kinds kinds)
  end.

(** [repair]: cobra's Model.repair rebuilds the indexes of the host model,
    which this model does not keep; then the two groupings. *)
Definition repair : M Indexed unit :=
  exec regenerate_constraints in
  regenerate_variables.

(** [self._cons_kinds[constraint_type.__name__]]: a defaultdict files an
    empty list under a key that it is asked for and does not hold. *)
Definition get_constraints_of_type (constraint_type : ConsKind)
  : M Indexed (list TypedConstraint) :=
  let* s := get in
  match _cons_kinds (snd s) with
  | None => raise (AttributeError "_cons_kinds")
  | Some kinds =>
      match kinds !! constraint_type with
      | Some l => ret l
      | None =>
          exec upd_groupings (set_cons_kinds (<[constraint_type := []]> kinds)) in
          ret []
      end
  end.

Definition get_variables_of_type (variable_type : VarKind)
  : M Indexed (list TypedVariable) :=
  let* s := get in
  match _var_kinds (snd s) with
  | None => raise (AttributeError "_var_kinds")
  | Some kinds =>
      match kinds !! variable_type with
      | Some l => ret l
      | None =>
          exec upd_groupings (set_var_kinds (<[variable_type := []]> kinds)) in
          ret []
      end
  end.

(** convert as the method is: the conversion proper, then [self.repair()]. *)
Definition convert_repair (num : numerics.t) (ext : imports.t)
  (add_potentials add_displacement verbose : bool) : M Indexed unit :=
  exec lift (convert num ext add_potentials add_displacement verbose) in
  repair.

(** The groupings agree with the attributes: each kind that a defaultdict
    holds has its attribute, and there is no other. *)
Definition tidy (g : Groupings) : Prop :=
  var_fields g = match _var_kinds g with Some kinds => dom kinds | None => ∅ end
  /\ cons_fields g
     = match _cons_kinds g with Some kinds => dom kinds | None => ∅ end.

(** The groupings are those of the registries. *)
Definition up_to_date (s : Indexed) : Prop :=
  (exists kinds, _var_kinds (snd s) = Some kinds
     /\ forall k v, v ∈ default [] (kinds !! k)
                    <-> (exists key, _var_dict (fst s) !! key = Some v) /\ v_kind v = k)
  /\ (exists kinds, _cons_kinds (snd s) = Some kinds
        /\ forall k c, c ∈ default [] (kinds !! k)
                       <-> (exists key, _cons_dict (fst s) !! key = Some c)
                           /\ c_kind c = k).


(* ===================================================================== *)
(* Properties                                                             *)
(* ===================================================================== *)

(* --------------------------------------------------------------------- *)
(* The method monad                                                       *)
(* --------------------------------------------------------------------- *)

Lemma bind_Ok {S A B} (c : M S A) (k : A -> M S B) s b s' :
  bind c k s = (Ok b, s') ->
  exists a s1, c s = (Ok a, s1) /\ k a s1 = (Ok b, s').
Proof.
  unfold bind. destruct (c s) as [[a|e] s1]; intros H.
  - exists a, s1. split; [reflexivity | exact H].
  - discriminate.
Qed.

Lemma bind_step {S A B} (c : M S A) (k : A -> M S B) s a s1 :
  c s = (Ok a, s1) -> bind c k s = k a s1.
Proof. unfold bind. intros ->. reflexivity. Qed.

Lemma readonly_ret {S A} (a : A) : readonly (@ret S A a).
Proof. intros s r s' H. injection H as _ <-. reflexivity. Qed.

Lemma readonly_raise {S A} e : readonly (@raise S A e).
Proof. intros s r s' H. injection H as _ <-. reflexivity. Qed.

Lemma readonly_get {S} : readonly (@get S).
Proof. intros s r s' H. injection H as _ <-. reflexivity. Qed.

Lemma readonly_bind {S A B} (c : M S A) (k : A -> M S B) :
  readonly c -> (forall a, readonly (k a)) -> readonly (bind c k).
Proof.
  intros Hc Hk s r s'. unfold bind.
  destruct (c s) as [[a|e] s1] eqn:E; intros H.
  - apply Hc in E as ->. exact (Hk a _ _ _ H).
  - apply Hc in E as ->. injection H as _ <-. reflexivity.
Qed.

Lemma readonly_for_each {S A} (l : list A) (body : A -> M S unit) :
  (forall x, readonly (body x)) -> readonly (for_each l body).
Proof.
  intros Hb. induction l as [|x l IH]; simpl.
  - apply readonly_ret.
  - apply readonly_bind; [apply Hb | intros _; exact IH].
Qed.

Lemma readonly_attribute {A} (a : option A) shown : readonly (attribute a shown).
Proof. destruct a; [apply readonly_ret | apply readonly_raise]. Qed.

Lemma readonly_subscript {S V} `{Countable K} (d : gmap K V) k shown :
  readonly (@subscript S V K _ _ d k shown).
Proof. unfold subscript. destruct (d !! k); [apply readonly_ret | apply readonly_raise]. Qed.

Lemma readonly_thermo_key {A} (v : option A) key : readonly (thermo_key v key).
Proof. destruct v; [apply readonly_ret | apply readonly_raise]. Qed.

Lemma readonly_thermo_of met : readonly (thermo_of met).
Proof.
  apply readonly_bind; [apply readonly_get | intros; apply readonly_attribute].
Qed.

Lemma readonly_log x : readonly (log x).
Proof. unfold log. case_decide; [apply readonly_ret | apply readonly_raise]. Qed.

(** A loop whose turns all succeed, cut at one of its elements. *)
Lemma for_each_app {S A} (l1 l2 : list A) (body : A -> M S unit) s s' :
  for_each (l1 ++ l2) body s = (Ok tt, s') ->
  exists s1, for_each l1 body s = (Ok tt, s1) /\ for_each l2 body s1 = (Ok tt, s').
Proof.
  revert s. induction l1 as [|x l1 IH]; simpl; intros s H.
  - exists s. split; [reflexivity | exact H].
  - apply bind_Ok in H as ([] & s0 & Hx & H).
    destruct (IH _ H) as (s1 & H1 & H2).
    exists s1. split; [|exact H2].
    rewrite (bind_step _ _ _ _ _ Hx). exact H1.
Qed.

Lemma for_each_cons {S A} (x : A) l (body : A -> M S unit) s s' :
  for_each (x :: l) body s = (Ok tt, s') ->
  exists s1, body x s = (Ok tt, s1) /\ for_each l body s1 = (Ok tt, s').
Proof.
  simpl. intros H. apply bind_Ok in H as ([] & s1 & Hx & H). eauto.
Qed.

(** An invariant of the turns is an invariant of the loop. *)
Lemma for_each_invariant {S A} (P : S -> S -> Prop) (l : list A)
  (body : A -> M S unit) :
  (forall s, P s s) ->
  (forall s1 s2 s3, P s1 s2 -> P s2 s3 -> P s1 s3) ->
  (forall x s s', x ∈ l -> body x s = (Ok tt, s') -> P s s') ->
  forall s s', for_each l body s = (Ok tt, s') -> P s s'.
Proof.
  intros Hrefl Htrans. induction l as [|x l IH]; intros Hb s s' H.
  - simpl in H. injection H as <-. apply Hrefl.
  - apply for_each_cons in H as (s1 & Hx & H).
    apply Htrans with s1.
    + apply (Hb x); [left | exact Hx].
    + apply IH; [|exact H]. intros y t t' Hy. apply Hb. right. exact Hy.
Qed.

(* --------------------------------------------------------------------- *)
(* The terms of the energy balance                                        *)
(* --------------------------------------------------------------------- *)

Lemma LC_var_Ok met s v s' :
  LC_var met s = (Ok v, s') ->
  s' = s /\ exists d, LC_vars s = Some d /\ d !! Metabolite.id met = Some v.
Proof.
  unfold LC_var, bind, get, attribute, subscript.
  destruct (LC_vars s) as [d|]; simpl; [|discriminate].
  destruct (d !! Metabolite.id met) as [w|] eqn:E; simpl; [|discriminate].
  intros H. injection H as <- <-. eauto.
Qed.

Lemma readonly_LC_var met : readonly (LC_var met).
Proof.
  apply readonly_bind; [apply readonly_get | intros self].
  apply readonly_bind; [apply readonly_attribute | intros d].
  apply readonly_subscript.
Qed.

Lemma readonly_P_var met : readonly (P_var met).
Proof.
  apply readonly_bind; [apply readonly_get | intros self].
  apply readonly_bind; [apply readonly_attribute | intros d].
  apply readonly_subscript.
Qed.

Lemma lc_expr_Num c : lc_expr (Num c).
Proof. intros x Hx. simpl in Hx. inversion Hx. Qed.

Lemma lc_expr_Add_term e c v k :
  lc_expr e -> variable v = TVar LogConcentration k ->
  lc_expr (Add e (Scale c (Sym (variable v)))).
Proof.
  intros He Hv x Hx. simpl in Hx. apply elem_of_app in Hx as [Hx|Hx].
  - apply He, Hx.
  - apply list_elem_of_singleton in Hx as ->. eauto.
Qed.

Lemma transport_turn_Ok RT trans b acc s acc' s' :
  lc_ok s -> lc_expr (fst acc) ->
  transport_turn RT trans b acc s = (Ok acc', s') ->
  s' = s /\ lc_expr (fst acc').
Proof.
  intros Hlc Hacc. destruct acc as [e cs]. unfold transport_turn.
  intros H. apply bind_Ok in H as (e' & s1 & H1 & H).
  assert (s1 = s /\ lc_expr e') as [-> He'].
  { case_decide.
    - apply bind_Ok in H1 as (v & s2 & Hv & H1).
      apply LC_var_Ok in Hv as (-> & d & Hd & Hk).
      injection H1 as <- <-. split; [reflexivity|].
      eapply lc_expr_Add_term; [exact Hacc | exact (Hlc _ _ _ Hd Hk)].
    - injection H1 as <- <-. split; [reflexivity | exact Hacc]. }
  destruct (stoich_add cs _ _); [|discriminate].
  injection H as <- <-. split; [reflexivity | exact He'].
Qed.

Lemma transport_terms_Ok RT l acc s acc' s' :
  lc_ok s -> lc_expr (fst acc) ->
  transport_terms RT l acc s = (Ok acc', s') ->
  s' = s /\ lc_expr (fst acc').
Proof.
  intros Hlc. revert acc. induction l as [|[sid trans] l IH]; intros acc Hacc H.
  - injection H as <- <-. split; [reflexivity | exact Hacc].
  - simpl in H.
    apply bind_Ok in H as (acc1 & s1 & H1 & H).
    apply transport_turn_Ok in H1 as [-> Hacc1]; [|exact Hlc|exact Hacc].
    apply bind_Ok in H as (acc2 & s2 & H2 & H).
    apply transport_turn_Ok in H2 as [-> Hacc2]; [|exact Hlc|exact Hacc1].
    exact (IH _ Hacc2 H).
Qed.

Lemma chemical_terms_Ok RT l e s e' s' :
  lc_ok s -> lc_expr e ->
  chemical_terms RT l e s = (Ok e', s') ->
  s' = s /\ lc_expr e'.
Proof.
  intros Hlc. revert e. induction l as [|[met v] l IH]; intros e He H.
  - injection H as <- <-. split; [reflexivity | exact He].
  - simpl in H. case_bool_decide.
    + apply bind_Ok in H as (w & s1 & Hw & H).
      apply LC_var_Ok in Hw as (-> & d & Hd & Hk).
      apply (IH _ (lc_expr_Add_term _ _ _ _ He (Hlc _ _ _ Hd Hk)) H).
    + exact (IH _ He H).
Qed.

Lemma readonly_potential_terms l : readonly (potential_terms l).
Proof.
  induction l as [|[met v] l IH]; simpl; [apply readonly_ret|].
  apply readonly_bind; [apply readonly_thermo_of | intros th].
  apply readonly_bind; [|intros _; exact IH].
  repeat case_decide; try apply readonly_ret.
  apply readonly_bind; [apply readonly_P_var | intros; apply readonly_ret].
Qed.

Lemma rxn_thermo_of_Ok rxn s th s' :
  rxn_thermo_of rxn s = (Ok th, s') ->
  s' = s /\ rxn_thermo s !! Reaction.id rxn = Some th.
Proof.
  unfold rxn_thermo_of, bind, get, attribute.
  destruct (rxn_thermo s !! Reaction.id rxn); simpl; [|discriminate].
  intros H. injection H as <- <-. auto.
Qed.

Lemma thermo_key_Ok {A} (v : option A) key s a s' :
  thermo_key v key s = (Ok a, s') -> s' = s /\ v = Some a.
Proof. destruct v; simpl; [|discriminate]. intros H. injection H as <- <-. auto. Qed.

(** The water-transport test returns true exactly on the transport reactions
    whose only reactant is water. *)
Lemma H2OtRxns_Ok rxn th s b s' :
  H2OtRxns rxn th s = (Ok b, s') ->
  s' = s /\ (b = true <-> water_transport rxn th).
Proof.
  unfold H2OtRxns, water_transport. intros H.
  destruct (isTrans th); simpl in H.
  - case_bool_decide as Hlen.
    + destruct (Reaction.reactants rxn) as [|met [|]] eqn:E; try discriminate Hlen.
      unfold bind, subscript in H.
      destruct (Metabolite.annotation met !! "seed_id") as [sid|] eqn:Es;
        simpl in H; [|discriminate].
      injection H as <- <-. split; [reflexivity|].
      rewrite bool_decide_eq_true. split.
      * intros ->. split; [reflexivity|]. exists met. auto.
      * intros (_ & met' & Hm & Hs). injection Hm as <-. congruence.
    + injection H as <- <-. split; [reflexivity|]. split; [discriminate|].
      intros (_ & met & Hm & _). rewrite Hm in Hlen. simpl in Hlen. congruence.
  - injection H as <- <-. split; [reflexivity|]. split; [discriminate|].
    intros (? & _). discriminate.
Qed.

(* --------------------------------------------------------------------- *)
(* What _convert_reaction registers                                       *)
(* --------------------------------------------------------------------- *)

Lemma thermo_branch_Ok num ext rxn th ap ad s FU BU s' :
  lc_ok s ->
  thermo_branch num ext rxn th ap ad s = (Ok (FU, BU), s') ->
  exists dGR err LCT LCC,
    deltaGR th = Some dGR /\ deltaGRerr th = Some err
    /\ lc_expr LCT /\ lc_expr LCC
    /\ (ad = true -> RT s <> 0)
    /\ FU = ForwardUse_of (Reaction.id rxn)
    /\ BU = BackwardUse_of (Reaction.id rxn)
    /\ s' = with_registries
              (thermo_branch_vars num (Reaction.id rxn) dGR err ad (_var_dict s))
              (thermo_branch_cons num (Reaction.id rxn) LCT LCC (RT s)
                 (feasibility s) ad (_cons_dict s))
              s.
Proof.
  intros Hlc H. unfold thermo_branch in H.
  apply bind_Ok in H as (self & s0 & E & H). injection E as <- <-.
  apply bind_Ok in H as (DGR & s0 & E & H). injection E as <- <-.
  apply bind_Ok in H as (err & s0 & E & H). apply thermo_key_Ok in E as [-> Herr].
  apply bind_Ok in H as (dGR & s0 & E & H). apply thermo_key_Ok in E as [-> HdGR].
  apply bind_Ok in H as (DGoR & s0 & E & H). injection E as <- <-.
  apply bind_Ok in H as ([LCT LCC] & s0 & E & H).
  match type of E with _ ?s1 = _ => set (t := s1) in * end.
  assert (Ht : lc_ok t) by exact Hlc.
  assert (s0 = t /\ lc_expr LCT /\ lc_expr LCC) as (-> & HT & HC).
  { destruct (isTrans th); [|destruct ap].
    - apply bind_Ok in E as ([e cs] & s2 & E1 & E).
      apply transport_terms_Ok in E1 as [-> He]; [|exact Ht|apply lc_expr_Num].
      apply bind_Ok in E as (e' & s2 & E2 & E).
      apply chemical_terms_Ok in E2 as [-> He']; [|exact Ht|apply lc_expr_Num].
      injection E as <- <- <-. auto.
    - apply bind_Ok in E as ([] & s2 & E1 & E).
      apply readonly_potential_terms in E1 as ->.
      injection E as <- <- <-. auto using lc_expr_Num.
    - apply bind_Ok in E as (e' & s2 & E2 & E).
      apply chemical_terms_Ok in E2 as [-> He']; [|exact Ht|apply lc_expr_Num].
      injection E as <- <- <-. auto using lc_expr_Num. }
  exists dGR, err, LCT, LCC.
  cbv [bind add_constraint add_variable modify ret raise] in H.
  destruct ad.
  - destruct (decide (RT s = 0)) as [|HRT]; [discriminate|].
    injection H as <- <- <-. repeat split; try assumption; auto.
  - injection H as <- <- <-. repeat split; try assumption; auto.
Qed.

Lemma _convert_reaction_Ok num ext rxn ap ad v s s' :
  lc_ok s ->
  _convert_reaction num ext rxn ap ad v s = (Ok tt, s') ->
  exists th c,
    rxn_thermo s !! Reaction.id rxn = Some th
    /\ computed th = Some c
    /\ ((c = true /\ ~ water_transport rxn th
         /\ exists dGR err LCT LCC,
              deltaGR th = Some dGR /\ deltaGRerr th = Some err
              /\ lc_expr LCT /\ lc_expr LCC
              /\ (ad = true -> RT s <> 0)
              /\ s' = with_registries
                        (thermo_branch_vars num (Reaction.id rxn) dGR err ad
                           (_var_dict s))
                        (use_cons num (Reaction.id rxn)
                           (thermo_branch_cons num (Reaction.id rxn) LCT LCC
                              (RT s) (feasibility s) ad (_cons_dict s)))
                        s)
        \/ ((c = false \/ water_transport rxn th)
            /\ s' = with_registries
                      (use_vars (Reaction.id rxn) (_var_dict s))
                      (use_cons num (Reaction.id rxn) (_cons_dict s))
                      s)).
Proof.
  intros Hlc H. unfold _convert_reaction in H.
  apply bind_Ok in H as (th & s0 & E & H). apply rxn_thermo_of_Ok in E as [-> Hth].
  apply bind_Ok in H as (w & s0 & E & H). apply H2OtRxns_Ok in E as [-> Hw].
  apply bind_Ok in H as (c & s0 & E & H). apply thermo_key_Ok in E as [-> Hc].
  exists th, c. split; [exact Hth|]. split; [exact Hc|].
  apply bind_Ok in H as ([FU BU] & s0 & E & H).
  destruct c, w; simpl in E.
  - right. cbv [bind add_constraint add_variable modify ret] in E, H.
    injection E as <- <- <-. injection H as <-.
    split; [right; apply Hw; reflexivity | reflexivity].
  - left. apply thermo_branch_Ok in E
      as (dGR & err & LCT & LCC & HdGR & Herr & HT & HC & HRT & -> & -> & ->);
      [|exact Hlc].
    cbv [bind add_constraint add_variable modify ret] in H. injection H as <-.
    split; [reflexivity|]. split.
    { intros Hwt. apply Hw in Hwt. discriminate. }
    exists dGR, err, LCT, LCC. repeat split; try assumption.
  - right. cbv [bind add_constraint add_variable modify ret] in E, H.
    injection E as <- <- <-. injection H as <-.
    split; [left; reflexivity | reflexivity].
  - right. cbv [bind add_constraint add_variable modify ret] in E, H.
    injection E as <- <- <-. injection H as <-.
    split; [left; reflexivity | reflexivity].
Qed.

Lemma same_host_refl m : same_host m m.
Proof. repeat split. Qed.

Lemma same_host_trans m1 m2 m3 :
  same_host m1 m2 -> same_host m2 m3 -> same_host m1 m3.
Proof. unfold same_host. intuition congruence. Qed.

Lemma same_host_with_registries V C m : same_host m (with_registries V C m).
Proof. repeat split. Qed.

Lemma same_on_hook_refl h m : same_on_hook h m m.
Proof. intros h' _. split; reflexivity. Qed.

Lemma same_on_hook_trans h m1 m2 m3 :
  same_on_hook h m1 m2 -> same_on_hook h m2 m3 -> same_on_hook h m1 m3.
Proof.
  intros H1 H2 h' Hh. destruct (H1 h' Hh) as [V1 C1], (H2 h' Hh) as [V2 C2].
  split; intros k; [rewrite V2; apply V1 | rewrite C2; apply C1].
Qed.

(** A successful _convert_reaction touches the objects of its own hook only. *)
Lemma _convert_reaction_frame num ext rxn ap ad v s s' h :
  lc_ok s -> h <> Reaction.id rxn ->
  _convert_reaction num ext rxn ap ad v s = (Ok tt, s') ->
  same_host s s' /\ lc_ok s' /\ same_on_hook h s s'.
Proof.
  intros Hlc Hh H.
  apply _convert_reaction_Ok in H as (th & c & _ & _ & H); [|exact Hlc].
  destruct H as [(_ & _ & dGR & err & LCT & LCC & _ & _ & _ & _ & _ & ->) | [_ ->]].
  - split; [apply same_host_with_registries|]. split; [exact Hlc|].
    intros h' ->. split; intros k; simpl.
    + unfold thermo_branch_vars. destruct ad;
        repeat (rewrite lookup_insert_ne by congruence); reflexivity.
    + unfold use_cons, thermo_branch_cons. destruct ad;
        repeat (rewrite lookup_insert_ne by congruence); reflexivity.
  - split; [apply same_host_with_registries|]. split; [exact Hlc|].
    intros h' ->. split; intros k; simpl.
    + unfold use_vars. repeat (rewrite lookup_insert_ne by congruence); reflexivity.
    + unfold use_cons. repeat (rewrite lookup_insert_ne by congruence); reflexivity.
Qed.

Lemma _convert_reaction_host num ext rxn ap ad v s s' :
  lc_ok s ->
  _convert_reaction num ext rxn ap ad v s = (Ok tt, s') ->
  same_host s s' /\ lc_ok s'.
Proof.
  intros Hlc H.
  apply _convert_reaction_Ok in H as (th & c & _ & _ & H); [|exact Hlc].
  destruct H as [(_ & _ & dGR & err & LCT & LCC & _ & _ & _ & _ & _ & ->) | [_ ->]];
    (split; [apply same_host_with_registries | exact Hlc]).
Qed.

(** The loop of convert over the reactions, seen from one of them: the turn
    of [r] runs in a state [s1] of the same host, and what it leaves on the
    hook of [r] is what the loop leaves there. *)
Lemma convert_reactions_at num ext ap ad v l s s' r :
  lc_ok s -> NoDup (Reaction.id <$> l) -> r ∈ l ->
  for_each l (fun rxn => _convert_reaction num ext rxn ap ad v) s = (Ok tt, s') ->
  exists s1 s2,
    same_host s s1 /\ lc_ok s1
    /\ _convert_reaction num ext r ap ad v s1 = (Ok tt, s2)
    /\ same_host s2 s' /\ same_on_hook (Reaction.id r) s2 s'.
Proof.
  intros Hlc Hnd Hr H.
  apply list_elem_of_split in Hr as (l1 & l2 & ->).
  apply for_each_app in H as (s1 & H1 & H).
  apply for_each_cons in H as (s2 & Hr & H2).
  rewrite fmap_app, fmap_cons in Hnd.
  apply NoDup_app in Hnd as (_ & _ & Hnd). apply NoDup_cons in Hnd as [Hnotin _].
  assert (same_host s s1 /\ lc_ok s1) as [Hh1 Hlc1].
  { revert Hlc.
    apply (for_each_invariant (fun s s' => lc_ok s -> same_host s s' /\ lc_ok s')
             l1 (fun rxn => _convert_reaction num ext rxn ap ad v))
      with (s := s) (s' := s1); [| | |exact H1].
    - intros t Ht. split; [apply same_host_refl | exact Ht].
    - intros t1 t2 t3 H12 H23 Ht. destruct (H12 Ht) as [A B].
      destruct (H23 B) as [A' B']. split; [eapply same_host_trans; eassumption | exact B'].
    - intros x t t' _ Hx Ht. eapply _convert_reaction_host; eassumption. }
  exists s1, s2. split; [exact Hh1|]. split; [exact Hlc1|]. split; [exact Hr|].
  destruct (_convert_reaction_host _ _ _ _ _ _ _ _ Hlc1 Hr) as [_ Hlc2].
  cut (same_host s2 s' /\ lc_ok s' /\ same_on_hook (Reaction.id r) s2 s');
    [tauto|].
  revert Hlc2.
  apply (for_each_invariant
           (fun s s' => lc_ok s ->
              same_host s s' /\ lc_ok s' /\ same_on_hook (Reaction.id r) s s')
           l2 (fun rxn => _convert_reaction num ext rxn ap ad v))
    with (s := s2) (s' := s'); [| | |exact H2].
  - intros t Ht. split; [apply same_host_refl|].
    split; [exact Ht | apply same_on_hook_refl].
  - intros t1 t2 t3 H12 H23 Ht.
    destruct (H12 Ht) as (A & B & C). destruct (H23 B) as (A' & B' & C').
    split; [eapply same_host_trans; eassumption|].
    split; [exact B' | eapply same_on_hook_trans; eassumption].
  - intros x t t' Hx Hrun Ht.
    eapply _convert_reaction_frame; [exact Ht| |exact Hrun].
    intros Heq. apply Hnotin. rewrite Heq. apply list_elem_of_fmap_2, Hx.
Qed.

(* --------------------------------------------------------------------- *)
(* What _convert_metabolite registers                                     *)
(* --------------------------------------------------------------------- *)

Lemma thermo_of_Ok met s th s' :
  thermo_of met s = (Ok th, s') ->
  s' = s /\ met_thermo s !! Metabolite.id met = Some th.
Proof.
  unfold thermo_of, bind, get, attribute.
  destruct (met_thermo s !! Metabolite.id met); simpl; [|discriminate].
  intros H. injection H as <- <-. auto.
Qed.

Lemma subscript_Ok {S V} `{Countable K} (d : gmap K V) k shown (s : S) x s' :
  subscript d k shown s = (Ok x, s') -> s' = s /\ d !! k = Some x.
Proof.
  unfold subscript. destruct (d !! k); simpl; [|discriminate].
  intros E. injection E as <- <-. auto.
Qed.

Lemma log_Ok x s y s' : log x s = (Ok y, s') -> s' = s /\ 0 < x /\ y = ln x.
Proof.
  unfold log. case_decide; simpl; [|discriminate].
  intros E. injection E as <- <-. auto.
Qed.

Lemma _convert_metabolite_Ok met ap v s s' :
  _convert_metabolite met ap v s = (Ok tt, s') ->
  exists th comp,
    met_thermo s !! Metabolite.id met = Some th
    /\ compartments s !! Metabolite.compartment met = Some comp
    /\ 0 < c_min comp /\ 0 < c_max comp
    /\ match LC_of met th comp with
       | Some LC =>
           exists d, LC_vars s = Some d
             /\ (ap = true ->
                 Metabolite.formula met = "H2O" \/ Metabolite.formula met = "H")
             /\ s' = set_LC_vars (<[Metabolite.id met := LC]> d)
                       (upd_var_dict
                          (insert (LogConcentration, Metabolite.id met) LC) s)
       | None => s' = s
       end.
Proof.
  intros H. unfold _convert_metabolite in H.
  apply bind_Ok in H as (self & s0 & E & H). injection E as <- <-.
  apply bind_Ok in H as (th & s0 & E & H). apply thermo_of_Ok in E as [-> Hth].
  apply bind_Ok in H as (comp & s0 & E & H). apply subscript_Ok in E as [-> Hcomp].
  apply bind_Ok in H as (lb & s0 & E & H). apply log_Ok in E as (-> & Hmin & ->).
  apply bind_Ok in H as (ub & s0 & E & H). apply log_Ok in E as (-> & Hmax & ->).
  exists th, comp. repeat (split; [assumption|]).
  apply bind_Ok in H as (LC & s0 & E & H).
  unfold LC_of.
  destruct (decide (Metabolite.formula met = "H2O")) as [HW|HW];
    [|destruct (decide (Metabolite.formula met = "H")) as [HH|HH];
      [|destruct (seed_id_is met "cpd11416");
        [|destruct (decide (deltaGf_tr th < 10 ^ 6)) as [HG|HG]; [destruct ap|]]]];
    cbv [bind add_variable modify ret raise] in E;
    try discriminate E; injection E as <- <-.
  - cbv [bind get attribute modify ret raise] in H. simpl in H.
    destruct (LC_vars s) as [d|]; [|discriminate]. injection H as <-.
    exists d. auto.
  - cbv [bind get attribute modify ret raise] in H. simpl in H.
    destruct (LC_vars s) as [d|]; [|discriminate]. injection H as <-.
    exists d. auto.
  - injection H as <-. reflexivity.
  - cbv [bind get attribute modify ret raise] in H. simpl in H.
    destruct (LC_vars s) as [d|]; [|discriminate]. injection H as <-.
    exists d. split; [reflexivity|]. split; [discriminate | reflexivity].
  - injection H as <-. reflexivity.
Qed.

Lemma _convert_metabolite_host met ap v s s' :
  lc_ok s ->
  _convert_metabolite met ap v s = (Ok tt, s') ->
  same_host s s' /\ lc_ok s' /\ _cons_dict s' = _cons_dict s.
Proof.
  intros Hlc H.
  apply _convert_metabolite_Ok in H as (th & comp & _ & _ & _ & _ & H).
  destruct (LC_of met th comp) as [LC|] eqn:E.
  - destruct H as (d & Hd & _ & ->).
    split; [repeat split|]. split; [|reflexivity].
    intros d' k w Hd' Hk. simpl in Hd'. injection Hd' as <-.
    destruct (decide (k = Metabolite.id met)) as [->|Hne].
    + rewrite lookup_insert_eq in Hk. injection Hk as <-.
      unfold LC_of in E. repeat case_match; try discriminate;
        injection E as <-; reflexivity.
    + rewrite lookup_insert_ne in Hk by congruence. exact (Hlc _ _ _ Hd Hk).
  - subst s'. split; [apply same_host_refl|]. split; [exact Hlc | reflexivity].
Qed.

(* --------------------------------------------------------------------- *)
(* convert                                                                *)
(* --------------------------------------------------------------------- *)

Lemma readonly_check_bounds num r : readonly (check_bounds num r).
Proof. unfold check_bounds. case_decide; [apply readonly_raise | apply readonly_ret]. Qed.

Lemma readonly_check_thermo r : readonly (check_thermo r).
Proof.
  apply readonly_bind; [apply readonly_get | intros self].
  destruct (rxn_thermo self !! Reaction.id r); [apply readonly_ret | apply readonly_raise].
Qed.

(** The loop over the bounds succeeds exactly when no reaction has a bound
    beyond the big M. *)
Lemma check_bounds_loop num l s :
  (forall r, r ∈ l ->
     ~ (Reaction.lower_bound r < - numerics.BIGM num
        \/ Reaction.upper_bound r > numerics.BIGM num))
  <-> for_each l (check_bounds num) s = (Ok tt, s).
Proof.
  induction l as [|x l IH]; simpl.
  - split; [reflexivity|]. intros _ r Hr. inversion Hr.
  - split.
    + intros Hall. unfold bind, check_bounds at 1.
      rewrite decide_False by (apply Hall; left). simpl.
      apply IH. intros r Hr. apply Hall. right. exact Hr.
    + unfold bind, check_bounds at 1. case_decide as Hx; simpl; [discriminate|].
      intros H r Hr. apply elem_of_cons in Hr as [->|Hr]; [exact Hx|].
      apply IH; assumption.
Qed.

Lemma check_bounds_loop_raise num l s r :
  r ∈ l ->
  Reaction.lower_bound r < - numerics.BIGM num
  \/ Reaction.upper_bound r > numerics.BIGM num ->
  for_each l (check_bounds num) s
  = (Raise (Exception "flux bounds too wide or big M not big enough"), s).
Proof.
  induction l as [|x l IH]; intros Hr Hbad; [inversion Hr|].
  simpl. unfold bind, check_bounds at 1.
  case_decide as Hx; simpl; [reflexivity|].
  apply elem_of_cons in Hr as [->|Hr]; [contradiction|].
  apply IH; assumption.
Qed.

Lemma lc_ok_fresh m : lc_ok (set_P_vars ∅ (set_LC_vars ∅ m)).
Proof.
  intros d k w Hd Hk. simpl in Hd. injection Hd as <-.
  rewrite lookup_empty in Hk. discriminate.
Qed.

(** A conversion that succeeds: the bounds passed the check, and the loop
    over the reactions ran from a state [s] of the same host that holds the
    log-concentration variables. *)
Lemma convert_Ok num ext ap ad v m m' :
  convert num ext ap ad v m = (Ok tt, m') ->
  (forall r, r ∈ reactions m ->
     ~ (Reaction.lower_bound r < - numerics.BIGM num
        \/ Reaction.upper_bound r > numerics.BIGM num))
  /\ exists s,
       same_host m s /\ lc_ok s
       /\ for_each (metabolites m) (fun met => _convert_metabolite met ap v)
            (set_P_vars ∅ (set_LC_vars ∅ m)) = (Ok tt, s)
       /\ for_each (reactions m)
            (fun rxn => _convert_reaction num ext rxn ap ad v) s = (Ok tt, m').
Proof.
  intros H. unfold convert in H.
  apply bind_Ok in H as (self & s0 & E & H). injection E as <- <-.
  apply bind_Ok in H as ([] & s0 & E & H).
  pose proof (readonly_for_each _ _ (readonly_check_bounds num) _ _ _ E) as ->.
  split; [exact (proj2 (check_bounds_loop num _ _) E)|].
  apply bind_Ok in H as ([] & s0 & E' & H).
  pose proof (readonly_for_each _ _ readonly_check_thermo _ _ _ E') as ->.
  cbv [bind modify] in H.
  destruct (for_each (metabolites m) _ _) as [[[]|e] s] eqn:Hm; [|discriminate].
  exists s. 
  assert (same_host (set_P_vars ∅ (set_LC_vars ∅ m)) s /\ lc_ok s) as [Hh Hlc].
  { generalize (lc_ok_fresh m).
    apply (for_each_invariant (fun s s' => lc_ok s -> same_host s s' /\ lc_ok s')
             (metabolites m) (fun met => _convert_metabolite met ap v))
      with (s := set_P_vars ∅ (set_LC_vars ∅ m)) (s' := s); [| | |exact Hm].
    - intros t Ht. split; [apply same_host_refl | exact Ht].
    - intros t1 t2 t3 H12 H23 Ht. destruct (H12 Ht) as [A B].
      destruct (H23 B) as [A' B'].
      split; [eapply same_host_trans; eassumption | exact B'].
    - intros x t t' _ Hx Ht.
      destruct (_convert_metabolite_host _ _ _ _ _ Ht Hx) as (A & B & _). auto. }
  split; [exact Hh|]. split; [exact Hlc|]. split; [reflexivity | exact H].
Qed.

Lemma convert_reaction_view num ext ap ad v m m' r :
  convert num ext ap ad v m = (Ok tt, m') ->
  NoDup (Reaction.id <$> reactions m) -> r ∈ reactions m ->
  exists s1 s2,
    same_host m s1 /\ lc_ok s1
    /\ _convert_reaction num ext r ap ad v s1 = (Ok tt, s2)
    /\ same_host s2 m' /\ same_on_hook (Reaction.id r) s2 m'.
Proof.
  intros H Hnd Hr.
  apply convert_Ok in H as (_ & s & Hh & Hlc & _ & H).
  destruct (convert_reactions_at _ _ _ _ _ _ _ _ _ Hlc Hnd Hr H)
    as (s1 & s2 & Hh1 & Hlc1 & Hrun & Hh2 & Hon).
  exists s1, s2. split; [eapply same_host_trans; eassumption|]. auto.
Qed.

(* --------------------------------------------------------------------- *)
(* The registries stay filed by name                                      *)
(* --------------------------------------------------------------------- *)

Lemma var_ok_insert (V : gmap (VarKind * string) TypedVariable) key v :
  v_name v = key ->
  (forall k w, V !! k = Some w -> v_name w = k) ->
  forall k w, <[key := v]> V !! k = Some w -> v_name w = k.
Proof.
  intros Hv HV k w. destruct (decide (key = k)) as [->|Hne].
  - rewrite lookup_insert_eq. intros E. injection E as <-. exact Hv.
  - rewrite lookup_insert_ne by exact Hne. apply HV.
Qed.

Lemma cons_ok_insert (C : gmap (ConsKind * string) TypedConstraint) key c :
  c_name c = key ->
  (forall k w, C !! k = Some w -> c_name w = k) ->
  forall k w, <[key := c]> C !! k = Some w -> c_name w = k.
Proof.
  intros Hc HC k w. destruct (decide (key = k)) as [->|Hne].
  - rewrite lookup_insert_eq. intros E. injection E as <-. exact Hc.
  - rewrite lookup_insert_ne by exact Hne. apply HC.
Qed.

Lemma registry_ok_convert_reaction num ext rxn ap ad v s s' :
  lc_ok s -> registry_ok s ->
  _convert_reaction num ext rxn ap ad v s = (Ok tt, s') -> registry_ok s'.
Proof.
  intros Hlc [HV HC] H.
  apply _convert_reaction_Ok in H as (th & c & _ & _ & H); [|exact Hlc].
  destruct H as [(_ & _ & dGR & err & LCT & LCC & _ & _ & _ & _ & _ & ->) | [_ ->]];
    split; simpl.
  - unfold thermo_branch_vars. destruct ad;
      repeat (apply var_ok_insert; [reflexivity|]); exact HV.
  - unfold use_cons, thermo_branch_cons. destruct ad;
      repeat (apply cons_ok_insert; [reflexivity|]); exact HC.
  - unfold use_vars. repeat (apply var_ok_insert; [reflexivity|]). exact HV.
  - unfold use_cons. repeat (apply cons_ok_insert; [reflexivity|]). exact HC.
Qed.

Lemma registry_ok_convert_metabolite met ap v s s' :
  registry_ok s ->
  _convert_metabolite met ap v s = (Ok tt, s') -> registry_ok s'.
Proof.
  intros [HV HC] H.
  apply _convert_metabolite_Ok in H as (th & comp & _ & _ & _ & _ & H).
  destruct (LC_of met th comp) as [LC|] eqn:E.
  - destruct H as (d & _ & _ & ->). split; simpl; [|exact HC].
    apply var_ok_insert; [|exact HV].
    unfold LC_of in E. repeat case_match; try discriminate;
      injection E as <-; reflexivity.
  - subst s'. split; assumption.
Qed.

Lemma registry_ok_convert num ext ap ad v m m' :
  registry_ok m -> convert num ext ap ad v m = (Ok tt, m') -> registry_ok m'.
Proof.
  intros Hok H. apply convert_Ok in H as (_ & s & _ & _ & Hm & Hr).
  assert (lc_ok s /\ registry_ok s) as [Hlc Hs].
  { cut (lc_ok (set_P_vars ∅ (set_LC_vars ∅ m))
         /\ registry_ok (set_P_vars ∅ (set_LC_vars ∅ m)));
      [|split; [apply lc_ok_fresh | exact Hok]].
    apply (for_each_invariant
             (fun s s' => lc_ok s /\ registry_ok s -> lc_ok s' /\ registry_ok s')
             (metabolites m) (fun met => _convert_metabolite met ap v))
      with (s := set_P_vars ∅ (set_LC_vars ∅ m)) (s' := s); [| | |exact Hm]; auto.
    intros x t t' _ Hx [A B]. split.
    - apply (_convert_metabolite_host _ _ _ _ _ A Hx).
    - apply (registry_ok_convert_metabolite _ _ _ _ _ B Hx). }
  cut (lc_ok m' /\ registry_ok m'); [tauto|].
  cut (lc_ok s /\ registry_ok s); [|auto].
  apply (for_each_invariant
           (fun s s' => lc_ok s /\ registry_ok s -> lc_ok s' /\ registry_ok s')
           (reactions m) (fun rxn => _convert_reaction num ext rxn ap ad v))
    with (s := s) (s' := m'); [| | |exact Hr]; auto.
  intros x t t' _ Hx [A B]. split.
  - apply (_convert_reaction_host _ _ _ _ _ _ _ _ A Hx).
  - apply (registry_ok_convert_reaction _ _ _ _ _ _ _ _ A B Hx).
Qed.

Lemma exactly_one_var_intro m v :
  registry_ok m -> _var_dict m !! v_name v = Some v -> exactly_one_var m v.
Proof.
  intros [HV _] Hv. split; [exact Hv|].
  intros key v' Hk Hkind Hhook. rewrite <- (HV _ _ Hk).
  unfold v_name. congruence.
Qed.

Lemma exactly_one_cons_intro m c :
  registry_ok m -> _cons_dict m !! c_name c = Some c -> exactly_one_cons m c.
Proof.
  intros [_ HC] Hc. split; [exact Hc|].
  intros key c' Hk Hkind Hhook. rewrite <- (HC _ _ Hk).
  unfold c_name. congruence.
Qed.

(* --------------------------------------------------------------------- *)
(* The formulation of a reaction                                          *)
(* --------------------------------------------------------------------- *)

Ltac lookup_registry :=
  repeat first
    [ rewrite lookup_insert_eq
    | rewrite lookup_insert_ne by (intros ?; discriminate) ].

(** The objects on the hook of a reaction that took the thermodynamic branch:
    they are those of the registries the branch builds. *)
Lemma convert_thermo_reaction num ext ap ad v m m' r th :
  convert num ext ap ad v m = (Ok tt, m') ->
  NoDup (Reaction.id <$> reactions m) -> r ∈ reactions m ->
  rxn_thermo m !! Reaction.id r = Some th ->
  computed th = Some true -> ~ water_transport r th ->
  exists dGR err LCT LCC V C,
    deltaGR th = Some dGR /\ deltaGRerr th = Some err
    /\ lc_expr LCT /\ lc_expr LCC
    /\ (ad = true -> RT m <> 0)
    /\ (forall k, _var_dict m' !! (k, Reaction.id r)
                  = thermo_branch_vars num (Reaction.id r) dGR err ad V
                    !! (k, Reaction.id r))
    /\ (forall k, _cons_dict m' !! (k, Reaction.id r)
                  = use_cons num (Reaction.id r)
                      (thermo_branch_cons num (Reaction.id r) LCT LCC (RT m)
                         (feasibility m) ad C)
                    !! (k, Reaction.id r)).
Proof.
  intros H Hnd Hr Hth Hc Hw.
  destruct (convert_reaction_view _ _ _ _ _ _ _ _ H Hnd Hr)
    as (s1 & s2 & Hh1 & Hlc1 & Hrun & _ & Hon).
  destruct Hh1 as (_ & _ & _ & HRT & Hfeas & _ & _ & Hrt).
  apply _convert_reaction_Ok in Hrun as (th' & c & Hth' & Hc' & Hrun);
    [|exact Hlc1].
  rewrite Hrt, Hth in Hth'. injection Hth' as <-.
  rewrite Hc in Hc'. injection Hc' as <-.
  destruct Hrun as [(_ & _ & dGR & err & LCT & LCC & A & B & HT & HC & HR & ->)
                   | [[?|?] _]]; [|discriminate|contradiction].
  destruct (Hon _ eq_refl) as [HV HCo]. simpl in HV, HCo.
  rewrite HRT, Hfeas in *.
  exists dGR, err, LCT, LCC, (_var_dict s1), (_cons_dict s1).
  split; [exact A|]. split; [exact B|]. split; [exact HT|]. split; [exact HC|].
  split; [exact HR|]. split; [exact HV | exact HCo].
Qed.

(** C3.  For every reaction of the model, whatever its thermo record, a
    conversion that succeeds leaves in the registries exactly one
    ForwardUseVariable and one BackwardUseVariable hooked to the reaction,
    exactly one SimultaneousUse constraint ForwardUse + BackwardUse with
    bounds [0, 1], one ForwardDirectionCoupling constraint
    forward_flux - BIGM*ForwardUse <= 0 and one BackwardDirectionCoupling
    constraint reverse_flux - BIGM*BackwardUse <= 0. *)
Theorem convert_use_constraints num ext ap ad v m m' r :
  convert num ext ap ad v m = (Ok tt, m') ->
  registry_ok m ->
  NoDup (Reaction.id <$> reactions m) -> r ∈ reactions m ->
  exactly_one_var m' (ForwardUse_of (Reaction.id r))
  /\ exactly_one_var m' (BackwardUse_of (Reaction.id r))
  /\ exactly_one_cons m' (SimultaneousUse_of (Reaction.id r))
  /\ exactly_one_cons m' (ForwardDirectionCoupling_of num (Reaction.id r))
  /\ exactly_one_cons m' (BackwardDirectionCoupling_of num (Reaction.id r)).
Proof.
  intros H Hok Hnd Hr.
  pose proof (registry_ok_convert _ _ _ _ _ _ _ Hok H) as Hok'.
  destruct (convert_reaction_view _ _ _ _ _ _ _ _ H Hnd Hr)
    as (s1 & s2 & _ & Hlc1 & Hrun & _ & Hon).
  destruct (Hon _ eq_refl) as [HV HC].
  apply _convert_reaction_Ok in Hrun as (th & c & _ & _ & Hrun); [|exact Hlc1].
  assert (_var_dict s2 !! (ForwardUseVariable, Reaction.id r)
          = Some (ForwardUse_of (Reaction.id r))
          /\ _var_dict s2 !! (BackwardUseVariable, Reaction.id r)
             = Some (BackwardUse_of (Reaction.id r))
          /\ exists C, _cons_dict s2 = use_cons num (Reaction.id r) C)
    as (HFU & HBU & C & HCs).
  { destruct Hrun as [(_ & _ & dGR & err & LCT & LCC & _ & _ & _ & _ & _ & ->)
                     | [_ ->]]; simpl.
    - unfold thermo_branch_vars. repeat split; [lookup_registry; reflexivity..|].
      eexists; reflexivity.
    - unfold use_vars. repeat split; [lookup_registry; reflexivity..|].
      eexists; reflexivity. }
  repeat split;
    first [ apply exactly_one_var_intro | apply exactly_one_cons_intro ];
    try exact Hok'; unfold v_name, c_name; simpl;
    rewrite ?HV, ?HC, ?HCs; try assumption;
    unfold use_cons; lookup_registry; reflexivity.
Qed.

(** C1.  For every reaction with computed = true that is not a
    single-reactant water transport, a conversion that succeeds registers the
    ForwardDeltaGCoupling constraint
    DeltaG + BIGM_THERMO*ForwardUse <= BIGM_THERMO - epsilon and the
    BackwardDeltaGCoupling constraint
    BIGM_THERMO*BackwardUse - DeltaG <= BIGM_THERMO - epsilon, epsilon being
    the feasibility tolerance of the solver; hence in every feasible solution
    ForwardUse = 1 implies DeltaG <= -epsilon and BackwardUse = 1 implies
    DeltaG >= epsilon. *)
Theorem convert_deltaG_coupling num ext ap ad v m m' r th :
  convert num ext ap ad v m = (Ok tt, m') ->
  NoDup (Reaction.id <$> reactions m) -> r ∈ reactions m ->
  rxn_thermo m !! Reaction.id r = Some th ->
  computed th = Some true -> ~ water_transport r th ->
  let id := Reaction.id r in
  let epsilon := feasibility m in
  _cons_dict m' !! (ForwardDeltaGCoupling, id)
  = Some (ForwardDeltaGCoupling_of num id epsilon)
  /\ _cons_dict m' !! (BackwardDeltaGCoupling, id)
     = Some (BackwardDeltaGCoupling_of num id epsilon)
  /\ forall rho, feasible rho m' ->
       (rho (TVar ForwardUseVariable id) = 1 -> rho (TVar DeltaG id) <= - epsilon)
       /\ (rho (TVar BackwardUseVariable id) = 1 -> rho (TVar DeltaG id) >= epsilon).
Proof.
  intros H Hnd Hr Hth Hc Hw id epsilon.
  destruct (convert_thermo_reaction _ _ _ _ _ _ _ _ _ H Hnd Hr Hth Hc Hw)
    as (dGR & err & LCT & LCC & V & C & _ & _ & _ & _ & _ & _ & HC).
  assert (_cons_dict m' !! (ForwardDeltaGCoupling, id)
          = Some (ForwardDeltaGCoupling_of num id epsilon)) as HF.
  { rewrite HC. unfold use_cons, thermo_branch_cons. lookup_registry. reflexivity. }
  assert (_cons_dict m' !! (BackwardDeltaGCoupling, id)
          = Some (BackwardDeltaGCoupling_of num id epsilon)) as HB.
  { rewrite HC. unfold use_cons, thermo_branch_cons. lookup_registry. reflexivity. }
  split; [exact HF|]. split; [exact HB|].
  intros rho Hrho. split; intros Huse.
  - destruct (Hrho _ _ HF) as [_ Hub]. simpl in Hub. rewrite Huse in Hub. lra.
  - destruct (Hrho _ _ HB) as [_ Hub]. simpl in Hub. rewrite Huse in Hub. lra.
Qed.


(** C8, as the code has it.  When add_displacement is requested, for every
    thermo-constrained reaction a conversion that succeeds registers a
    ThermoDisplacement variable bounded by [-BIGM_P, BIGM_P] and a
    DisplacementCoupling constraint lnGamma - (1/RT)*DeltaG with both bounds
    0: a point satisfies it exactly when lnGamma = DeltaG/RT (plus, not
    minus). *)
Theorem convert_displacement num ext ap v m m' r th :
  convert num ext ap true v m = (Ok tt, m') ->
  NoDup (Reaction.id <$> reactions m) -> r ∈ reactions m ->
  rxn_thermo m !! Reaction.id r = Some th ->
  computed th = Some true -> ~ water_transport r th ->
  let id := Reaction.id r in
  _var_dict m' !! (ThermoDisplacement, id)
  = Some (Var ThermoDisplacement id (Some (- numerics.BIGM_P num))
            (Some (numerics.BIGM_P num)))
  /\ _cons_dict m' !! (DisplacementCoupling, id)
     = Some (DisplacementCoupling_of id (RT m))
  /\ RT m <> 0
  /\ forall rho,
       satisfies rho (DisplacementCoupling_of id (RT m))
       <-> rho (TVar ThermoDisplacement id) = rho (TVar DeltaG id) / RT m.
Proof.
  intros H Hnd Hr Hth Hc Hw id.
  destruct (convert_thermo_reaction _ _ _ _ _ _ _ _ _ H Hnd Hr Hth Hc Hw)
    as (dGR & err & LCT & LCC & V & C & _ & _ & _ & _ & HRT & HVl & HCl).
  split; [|split; [|split]].
  - rewrite HVl. unfold thermo_branch_vars. lookup_registry. reflexivity.
  - rewrite HCl. unfold use_cons, thermo_branch_cons. lookup_registry. reflexivity.
  - apply HRT. reflexivity.
  - intros rho. unfold satisfies. simpl.
    replace (1 / RT m * rho (TVar DeltaG id)) with (rho (TVar DeltaG id) / RT m)
      by (unfold Rdiv; ring).
    split; [intros [? ?]|intros ?; split]; lra.
Qed.

(** C7, as the code has it.  convert raises before it registers anything
    whenever some reaction has a flux bound beyond the big M
    (lower_bound < -BIGM or upper_bound > BIGM), and it gets past this check
    only when every reaction has -BIGM <= lower_bound and
    upper_bound <= BIGM: the containment in [-BIGM, BIGM] is not strict. *)
Theorem convert_checks_bounds num ext ap ad v m :
  (forall r, r ∈ reactions m ->
     Reaction.lower_bound r < - numerics.BIGM num
     \/ Reaction.upper_bound r > numerics.BIGM num ->
     convert num ext ap ad v m
     = (Raise (Exception "flux bounds too wide or big M not big enough"), m))
  /\ (forall m', convert num ext ap ad v m = (Ok tt, m') ->
        forall r, r ∈ reactions m ->
          - numerics.BIGM num <= Reaction.lower_bound r
          /\ Reaction.upper_bound r <= numerics.BIGM num).
Proof.
  split.
  - intros r Hr Hbad. unfold convert.
    rewrite (bind_step _ _ m m m) by reflexivity.
    unfold bind at 1.
    rewrite (check_bounds_loop_raise num _ m r Hr Hbad). reflexivity.
  - intros m' H r Hr. apply convert_Ok in H as [Hb _].
    specialize (Hb r Hr). split; lra.
Qed.

(** C9, as the code has it.  A call of _convert_metabolite that returns has
    treated the metabolite by the first case that applies: formula H2O, a
    LogConcentration variable with bounds [0, 0]; formula H, one with both
    bounds ln(10^-pH) of its compartment; otherwise, for the biomass marker
    (seed_id cpd11416), nothing at all; otherwise, for a transformed Gibbs
    energy of formation of 10^6 or more, nothing at all; for the remaining
    metabolites a LogConcentration variable bounded by the logarithms of
    c_min and c_max of the compartment. *)
Theorem _convert_metabolite_cases met ap v s s' th comp :
  _convert_metabolite met ap v s = (Ok tt, s') ->
  met_thermo s !! Metabolite.id met = Some th ->
  compartments s !! Metabolite.compartment met = Some comp ->
  let id := Metabolite.id met in
  let formula := Metabolite.formula met in
  let marker := Metabolite.annotation met !! "seed_id" = Some "cpd11416" in
  (formula = "H2O" ->
   _var_dict s' !! (LogConcentration, id)
   = Some (Var LogConcentration id (Some 0) (Some 0)))
  /\ (formula = "H" ->
      _var_dict s' !! (LogConcentration, id)
      = Some (Var LogConcentration id (Some (ln (Rpower 10 (- pH comp))))
                (Some (ln (Rpower 10 (- pH comp))))))
  /\ (formula <> "H2O" -> formula <> "H" -> marker -> s' = s)
  /\ (formula <> "H2O" -> formula <> "H" -> 10 ^ 6 <= deltaGf_tr th -> s' = s)
  /\ (formula <> "H2O" -> formula <> "H" -> ~ marker -> deltaGf_tr th < 10 ^ 6 ->
      _var_dict s' !! (LogConcentration, id)
      = Some (Var LogConcentration id (Some (ln (c_min comp)))
                (Some (ln (c_max comp))))).
Proof.
  intros H Hth Hcomp id formula marker.
  apply _convert_metabolite_Ok in H as (th' & comp' & Hth' & Hcomp' & _ & _ & H).
  rewrite Hth in Hth'. injection Hth' as <-.
  rewrite Hcomp in Hcomp'. injection Hcomp' as <-.
  unfold LC_of, seed_id_is in H. fold formula id marker in H.
  repeat split.
  - intros HW. rewrite decide_True in H by exact HW.
    destruct H as (d & _ & _ & ->). simpl. apply lookup_insert_eq.
  - intros HH. rewrite decide_False in H by (rewrite HH; discriminate).
    rewrite decide_True in H by exact HH.
    destruct H as (d & _ & _ & ->). simpl. apply lookup_insert_eq.
  - intros HW HH Hm. rewrite !decide_False in H by assumption.
    rewrite bool_decide_eq_true_2 in H by exact Hm. exact H.
  - intros HW HH HG. rewrite !decide_False in H by assumption.
    destruct (bool_decide marker); [exact H|].
    rewrite decide_False in H by lra. exact H.
  - intros HW HH Hm HG. rewrite !decide_False in H by assumption.
    rewrite bool_decide_eq_false_2 in H by exact Hm.
    rewrite decide_True in H by exact HG.
    destruct H as (d & _ & _ & ->). simpl. apply lookup_insert_eq.
Qed.

(* --------------------------------------------------------------------- *)
(* prepare                                                                *)
(* --------------------------------------------------------------------- *)

Lemma correct_thermo_values_Ok num mets s b s' :
  correct_thermo_values num mets s = (Ok b, s') ->
  s' = s /\ (b = false <-> lacks_thermo_data num s mets).
Proof.
  revert b. induction mets as [|mv mets IH]; intros b H; simpl in H.
  - injection H as <- <-. split; [reflexivity|]. split; [discriminate|].
    intros (mv & th & Hin & _). inversion Hin.
  - apply bind_Ok in H as (th & s0 & E & H). apply thermo_of_Ok in E as [-> Hth].
    case_decide as Hs.
    + injection H as <- <-. split; [reflexivity|]. split; [|reflexivity].
      intros _. exists mv, th. split; [left|]. auto.
    + destruct (IH _ H) as [-> Hb]. split; [reflexivity|].
      rewrite Hb. split.
      * intros (mv' & th' & Hin & A & B). exists mv', th'. split; [right|]; auto.
      * intros (mv' & th' & Hin & A & B).
        apply elem_of_cons in Hin as [->|Hin].
        -- rewrite Hth in A. injection A as <-. contradiction.
        -- exists mv', th'. auto.
Qed.

Lemma readonly_sum_deltaGrxn mets acc : readonly (sum_deltaGrxn mets acc).
Proof.
  revert acc. induction mets as [|[met v] mets IH]; intros acc; simpl.
  - apply readonly_ret.
  - destruct (_ || _); [|apply IH].
    apply readonly_bind; [apply readonly_thermo_of | intros th; apply IH].
Qed.

(** One turn of the loop of prepare over the reactions: it writes the thermo
    record of its reaction and nothing else, and the record is computed
    unless one of the four reasons holds. *)
Lemma _prepare_reaction_Ok num ext reaction s s' :
  _prepare_reaction num ext reaction s = (Ok tt, s') ->
  s' = upd_rxn_thermo (fun _ => rxn_thermo s') s
  /\ (forall h, h <> Reaction.id reaction ->
                rxn_thermo s' !! h = rxn_thermo s !! h)
  /\ exists proton_of th c,
       _proton_of s = Some proton_of
       /\ rxn_thermo s' !! Reaction.id reaction = Some th
       /\ computed th = Some c
       /\ (c = false <-> not_computed num ext s proton_of reaction).
Proof.
  intros H. unfold _prepare_reaction in H.
  apply bind_Ok in H as (self & s0 & E & H). injection E as <- <-.
  apply bind_Ok in H as (p & s0 & E & H).
  pose proof (readonly_attribute _ _ _ _ _ E) as ->.
  destruct (_proton_of s) as [p'|] eqn:Hp; [|discriminate]. injection E as ->.
  apply bind_Ok in H as ([] & s0 & E & H). injection E as <-.
  apply bind_Ok in H as ([] & s0 & E & H). injection E as <-.
  apply bind_Ok in H as (b & s0 & E & H).
  apply correct_thermo_values_Ok in E as [-> Hb].
  fold (proton_for p reaction) in H.
  assert (forall c : bool,
            c = negb (negb (if decide (length (Reaction.metabolites reaction) = 1%nat)
                            then false else true)
                      || negb b
                      || bool_decide (100 <= length (Reaction.metabolites reaction))%nat
                      || bool_decide
                           (imports.check_reaction_balance ext reaction
                              (proton_for p reaction)
                            ∈ ["missing atoms"; "drain flux"])) ->
            c = false <-> not_computed num ext s p reaction) as Hiff.
  { intros c ->. unfold not_computed. rewrite negb_false_iff, !orb_true_iff.
    rewrite !bool_decide_eq_true, !negb_true_iff.
    assert (lacks_thermo_data num s (Reaction.metabolites reaction) <-> b = false)
      as -> by (symmetry; exact Hb).
    case_decide; intuition congruence. }
  destruct (_ || _) eqn:Hcond.
  - cbv [bind thermo_store modify] in H. injection H as <-. simpl.
    split; [reflexivity|]. split.
    { intros h Hh. rewrite !lookup_alter_ne, lookup_insert_ne by congruence.
      reflexivity. }
    eexists p, _, false. split; [reflexivity|]. split.
    { rewrite !lookup_alter_eq, lookup_insert_eq. simpl. reflexivity. }
    split; [reflexivity|]. apply Hiff. reflexivity.
  - apply bind_Ok in H as ([] & s0 & E & H). injection E as <-.
    apply bind_Ok in H as ([] & s0 & E & H).
    assert (exists f, s0 = upd_rxn_thermo (alter f (Reaction.id reaction))
                            (upd_rxn_thermo
                               (alter (set_computed true) (Reaction.id reaction))
                               (upd_rxn_thermo
                                  (alter (set_isTrans
                                            (imports.check_transport_reaction ext reaction))
                                     (Reaction.id reaction))
                                  (upd_rxn_thermo
                                     (insert (Reaction.id reaction)
                                        {| isTrans := false; computed := None;
                                           deltaGR := None; deltaGRerr := None;
                                           deltaGrxn := None |}) s)))
                      /\ forall th, computed (f th) = computed th) as (f & -> & Hf).
    { destruct (imports.check_transport_reaction ext reaction).
      - apply bind_Ok in E as (self & s1 & E1 & E). injection E1 as <- <-.
        simpl in E. destruct (imports.calcDGtpt_rhs _ _ _ _) as [rhs sm].
        cbv [bind thermo_store modify] in E. injection E as <-.
        exists (fun th => set_deltaGrxn sm (set_deltaGR rhs th)). split.
        + simpl. unfold upd_rxn_thermo. simpl. f_equal.
          apply alter_alter_eq.
        + reflexivity.
      - apply bind_Ok in E as (x & s1 & E1 & E).
        apply readonly_sum_deltaGrxn in E1 as ->.
        cbv [thermo_store modify] in E. injection E as <-.
        exists (set_deltaGR x). split; reflexivity. }
    cbv [bind get thermo_store modify] in H. injection H as <-. simpl.
    split; [reflexivity|]. split.
    { intros h Hh. rewrite !lookup_alter_ne, lookup_insert_ne by congruence.
      reflexivity. }
    eexists p, _, true. split; [reflexivity|]. split.
    { rewrite !lookup_alter_eq, lookup_insert_eq. simpl. reflexivity. }
    split; [simpl; rewrite Hf; reflexivity|].
    split; [discriminate|]. intros Hn. apply (Hiff true eq_refl) in Hn.
    discriminate.
Qed.

Lemma rxn_thermo_only_refl m : rxn_thermo_only m m.
Proof. destruct m. reflexivity. Qed.

Lemma rxn_thermo_only_trans m1 m2 m3 :
  rxn_thermo_only m1 m2 -> rxn_thermo_only m2 m3 -> rxn_thermo_only m1 m3.
Proof. unfold rxn_thermo_only. intros -> ->. reflexivity. Qed.

Lemma rxn_thermo_only_met_thermo m m' :
  rxn_thermo_only m m' -> met_thermo m' = met_thermo m /\ _proton_of m' = _proton_of m.
Proof. intros ->. split; reflexivity. Qed.

(** The loop of prepare over the reactions, seen from one of them. *)
Lemma prepare_reactions_at num ext l s s' r :
  NoDup (Reaction.id <$> l) -> r ∈ l ->
  for_each l (_prepare_reaction num ext) s = (Ok tt, s') ->
  exists s1 s2,
    rxn_thermo_only s s1
    /\ _prepare_reaction num ext r s1 = (Ok tt, s2)
    /\ rxn_thermo_only s2 s'
    /\ rxn_thermo s' !! Reaction.id r = rxn_thermo s2 !! Reaction.id r.
Proof.
  intros Hnd Hr H.
  apply list_elem_of_split in Hr as (l1 & l2 & ->).
  apply for_each_app in H as (s1 & H1 & H).
  apply for_each_cons in H as (s2 & Hr & H2).
  rewrite fmap_app, fmap_cons in Hnd.
  apply NoDup_app in Hnd as (_ & _ & Hnd). apply NoDup_cons in Hnd as [Hnotin _].
  exists s1, s2. split; [|split; [exact Hr|]].
  - apply (for_each_invariant rxn_thermo_only l1 (_prepare_reaction num ext))
      with (s := s) (s' := s1); [| | |exact H1].
    + apply rxn_thermo_only_refl.
    + apply rxn_thermo_only_trans.
    + intros x t t' _ Hx. apply _prepare_reaction_Ok in Hx as [Hx _]. exact Hx.
  - apply (for_each_invariant
             (fun s s' => rxn_thermo_only s s'
                          /\ rxn_thermo s' !! Reaction.id r
                             = rxn_thermo s !! Reaction.id r)
             l2 (_prepare_reaction num ext))
      with (s := s2) (s' := s'); [| | |exact H2].
    + intros t. split; [apply rxn_thermo_only_refl | reflexivity].
    + intros t1 t2 t3 [A B] [A' B'].
      split; [eapply rxn_thermo_only_trans; eassumption | congruence].
    + intros x t t' Hx Hrun.
      apply _prepare_reaction_Ok in Hrun as (A & B & _). split; [exact A|].
      apply B. intros Heq. apply Hnotin. rewrite Heq.
      apply list_elem_of_fmap_2, Hx.
Qed.

(** C4.  After prepare, for every reaction the thermo record has
    computed = false if and only if the reaction has a single metabolite, or
    some participating metabolite has a standard Gibbs energy of formation
    above 0.9*BIGM_DG, or the reaction has at least 100 participating
    metabolites, or the balance check reports 'missing atoms' or
    'drain flux'; in every other case computed = true. *)
Theorem prepare_computed num ext m m' r :
  prepare num ext m = (Ok tt, m') ->
  NoDup (Reaction.id <$> reactions m) -> r ∈ reactions m ->
  exists proton_of th c,
    _proton_of m' = Some proton_of
    /\ rxn_thermo m' !! Reaction.id r = Some th
    /\ computed th = Some c
    /\ (c = false <->
        length (Reaction.metabolites r) = 1%nat
        \/ lacks_thermo_data num m' (Reaction.metabolites r)
        \/ (100 <= length (Reaction.metabolites r))%nat
        \/ imports.check_reaction_balance ext r (proton_for proton_of r)
           ∈ ["missing atoms"; "drain flux"]).
Proof.
  intros H Hnd Hr. unfold prepare in H.
  apply bind_Ok in H as (self & s0 & E & H). injection E as <- <-.
  apply bind_Ok in H as ([] & sa & _ & H).
  apply bind_Ok in H as ([] & sb & _ & H).
  destruct (prepare_reactions_at _ _ _ _ _ _ Hnd Hr H)
    as (s1 & s2 & _ & Hrun & H2 & Hlook).
  apply _prepare_reaction_Ok in Hrun as (Hstep & _ & p & th & c & Hp & Hth & Hc & Hiff).
  fold (rxn_thermo_only s1 s2) in Hstep.
  pose proof (rxn_thermo_only_trans _ _ _ Hstep H2) as H12.
  apply rxn_thermo_only_met_thermo in H12 as [Hmt Hpr].
  exists p, th, c. split; [congruence|]. split; [congruence|].
  split; [exact Hc|].
  rewrite Hiff. unfold not_computed, lacks_thermo_data. rewrite Hmt. reflexivity.
Qed.

(* --------------------------------------------------------------------- *)
(* chebyshev_center                                                       *)
(* --------------------------------------------------------------------- *)

(* --------------------------------------------------------------------- *)
(* copy keeps the constraints                                             *)
(* --------------------------------------------------------------------- *)

Lemma get_reaction_by_id_Ok id s r s' :
  get_reaction_by_id id s = (Ok r, s') -> s' = s /\ Reaction.id r = id.
Proof.
  unfold get_reaction_by_id, bind, get.
  destruct (list_find _ (reactions s)) as [[i x]|] eqn:E; simpl; [|discriminate].
  intros H. injection H as <- <-. split; [reflexivity|].
  apply list_find_Some in E as (_ & E & _). exact E.
Qed.

Lemma copy_constraint_Ok c s s' :
  copy_constraint c s = (Ok tt, s') ->
  s' = upd_cons_dict (insert (c_name c) c) s.
Proof.
  unfold copy_constraint. intros H.
  apply bind_Ok in H as (r & s0 & E & H).
  apply get_reaction_by_id_Ok in E as [-> Hid].
  cbv [bind add_constraint modify ret] in H. injection H as <-.
  rewrite Hid. destruct c. reflexivity.
Qed.

Lemma copy_variable_cons_dict v s s' :
  copy_variable v s = (Ok tt, s') -> _cons_dict s' = _cons_dict s.
Proof.
  unfold copy_variable. intros H.
  destruct (var_class (v_kind v)); [| |discriminate].
  - apply bind_Ok in H as (r & s0 & E & H).
    apply get_reaction_by_id_Ok in E as [-> _].
    cbv [bind add_variable modify ret] in H. injection H as <-. reflexivity.
  - apply bind_Ok in H as (x & s0 & E & H).
    assert (s0 = s) as ->.
    { unfold get_metabolite_by_id, bind, get in E.
      destruct (list_find _ (metabolites s)) as [[i y]|]; [|discriminate].
      injection E as _ <-. reflexivity. }
    cbv [bind add_variable modify ret] in H. injection H as <-. reflexivity.
Qed.

(** Inserting the pairs of a list without duplicate keys, first to last,
    builds the map of the list over the map one starts from. *)
Lemma foldl_insert_union {V} `{Countable K} (l : list (K * V)) (d : gmap K V) :
  NoDup l.*1 ->
  foldl (fun d kv => <[kv.1 := kv.2]> d) d l = list_to_map l ∪ d.
Proof.
  revert d. induction l as [|[k v] l IH]; intros d Hnd; simpl.
  - symmetry. apply (left_id_L ∅ (∪)).
  - apply NoDup_cons in Hnd as [Hk Hnd].
    rewrite (IH _ Hnd), <- insert_union_l.
    symmetry. apply insert_union_r.
    apply not_elem_of_list_to_map_1, Hk.
Qed.

Lemma copy_constraints_loop (l : list ((ConsKind * string) * TypedConstraint)) s s' :
  (forall kv, kv ∈ l -> c_name kv.2 = kv.1) ->
  for_each l.*2 copy_constraint s = (Ok tt, s') ->
  _cons_dict s' = foldl (fun d kv => <[kv.1 := kv.2]> d) (_cons_dict s) l.
Proof.
  revert s. induction l as [|[k c] l IH]; intros s Hl H.
  - simpl in H. injection H as <-. reflexivity.
  - rewrite fmap_cons in H. apply for_each_cons in H as (s1 & Hc & H).
    apply copy_constraint_Ok in Hc as ->.
    rewrite (IH _ (fun kv Hkv => Hl kv (proj2 (elem_of_cons _ _ _) (or_intror Hkv))) H).
    simpl. assert (c_name c = k) as -> by (apply (Hl (k, c)); left).
    reflexivity.
Qed.

(** A copy that succeeds holds the constraints of the model it was made of. *)
Lemma copy_cons_dict self new :
  registry_ok self -> copy self = Ok new -> _cons_dict new = _cons_dict self.
Proof.
  intros [_ HC] H. unfold copy in H.
  destruct (bind _ _ (fresh_model self)) as [[[]|e] s'] eqn:E; [|discriminate].
  injection H as ->.
  apply bind_Ok in E as ([] & s1 & Hv & Hc).
  assert (_cons_dict s1 = ∅) as Hs1.
  { apply (for_each_invariant (fun s s' => _cons_dict s' = _cons_dict s)
             (map_to_list (_var_dict self)).*2 copy_variable)
      with (s := fresh_model self) (s' := s1); [| | |exact Hv].
    - reflexivity.
    - intros; congruence.
    - intros x t t' _ Hx. exact (copy_variable_cons_dict _ _ _ Hx). }
  apply copy_constraints_loop in Hc.
  - rewrite Hc, Hs1, foldl_insert_union by apply NoDup_fst_map_to_list.
    rewrite (right_id_L ∅ (∪)). apply list_to_map_to_list.
  - intros [k c] Hkc. apply elem_of_map_to_list in Hkc. exact (HC _ _ Hkc).
Qed.

Lemma targets_in_nil cons : chebyshev.targets_in [] cons = [].
Proof.
  unfold chebyshev.targets_in.
  induction (free_symbols (c_expr cons)) as [|x l IH]; [reflexivity|].
  rewrite filter_cons_False; [exact IH|]. apply not_elem_of_nil.
Qed.

Lemma global_name_warn {S} (s : S) :
  chebyshev.global_name "warn" s = (Raise (NameError "warn"), s).
Proof.
  unfold chebyshev.global_name. rewrite bool_decide_eq_false_2; [reflexivity|].
  unfold chebyshev.module_globals, chebyshev.builtins. simpl.
  rewrite !elem_of_cons, elem_of_nil. intros H.
  repeat (destruct H as [H|H]; [discriminate H|]). exact H.
Qed.

Section chebyshev_facts.

Variable solver : option Symbol -> ThermoModel -> option (Symbol -> R).

(** The first loop keeps a constraint exactly when it takes part. *)
Lemma to_edit_Some vars include exclude cons :
  chebyshev.takes_part vars include exclude cons ->
  chebyshev.to_edit vars include exclude cons = Some (chebyshev.norm_a vars cons).
Proof.
  intros (Hex & Hin & Hineq & Ht). unfold chebyshev.to_edit.
  rewrite bool_decide_eq_false_2 by exact Hex.
  rewrite bool_decide_eq_false_2 by (intros Hn; exact (Hn Hin)). simpl.
  assert (chebyshev.is_inequality cons = true) as ->.
  { unfold chebyshev.is_inequality. destruct Hineq as [-> | ->];
      [reflexivity | destruct (c_lb cons); reflexivity]. }
  simpl. fold (chebyshev.targets_in vars cons).
  unfold chebyshev.norm_a.
  destruct (chebyshev.targets_in vars cons); [contradiction | reflexivity].
Qed.

Lemma to_edit_None vars include exclude cons :
  ~ chebyshev.takes_part vars include exclude cons ->
  chebyshev.to_edit vars include exclude cons = None.
Proof.
  intros Hn. unfold chebyshev.to_edit.
  case_bool_decide as Hex; [reflexivity|].
  case_bool_decide as Hin; [reflexivity|]. simpl.
  destruct (chebyshev.is_inequality cons) eqn:Hineq; [|reflexivity]. simpl.
  fold (chebyshev.targets_in vars cons).
  destruct (chebyshev.targets_in vars cons) eqn:Ht; [reflexivity|].
  exfalso. apply Hn. split; [exact Hex|]. split.
  { destruct (decide (c_kind cons ∈ include)); [assumption | contradiction]. }
  split; [|rewrite Ht; discriminate].
  unfold chebyshev.is_inequality in Hineq.
  destruct (c_lb cons), (c_ub cons); try discriminate; auto.
Qed.

(** The object the routine works on holds the constraints of the model:
    it is the model, or a copy of it. *)
Lemma working_model_cons_dict model inplace new :
  registry_ok model ->
  chebyshev.working_model solver model inplace = Ok new ->
  _cons_dict new = _cons_dict model.
Proof.
  intros Hok H. unfold chebyshev.working_model in H. destruct inplace; simpl in H.
  - injection H as <-. reflexivity.
  - destruct (copy model) as [new0|e] eqn:Hcopy; [|discriminate].
    unfold chebyshev.optimize, bind, get in H.
    destruct (solver None new0); [|discriminate]. injection H as <-.
    exact (copy_cons_dict _ _ Hok Hcopy).
Qed.

(** What [center] does on a non-empty list of targets: the reformulation,
    then the solver, then the test on the radius. *)
Lemma center_run variables big_m include exclude new :
  let vars := chebyshev.target_symbols variables in
  let new' := chebyshev.reformulated vars big_m include exclude new in
  vars <> [] ->
  chebyshev.center solver variables big_m include exclude new
  = match solver (Some chebyshev.r) new' with
    | None => (Raise SolverError, new')
    | Some primal =>
        if decide (big_m - primal chebyshev.r <= optimality new)
        then (Raise (NameError "warn"), new')
        else (Ok (map (fun k => (k, primal k)) vars), new')
    end.
Proof.
  intros vars new' Hne. unfold chebyshev.center.
  assert (forall l : list Symbol,
            bind (ret l : M ThermoModel (list Symbol))
              (fun vars =>
                 bind (add_variable ChebyshevRadius "radius" (Some 0) (Some big_m))
                   (fun r => bind get (fun new =>
                      bind (modify (upd_cons_dict
                              (map_imap (fun k cons =>
                                 match omap (chebyshev.to_edit vars include exclude)
                                         (_cons_dict new) !! k with
                                 | Some a_sq => Some (chebyshev.edit r cons a_sq)
                                 | None => Some cons
                                 end))))
                        (fun _ => bind (chebyshev.optimize solver (Some (variable r)))
                           (fun primal =>
                              bind (if decide (big_m - primal (variable r)
                                               <= optimality new)
                                    then chebyshev.global_name "warn"
                                    else ret tt)
                                (fun _ => ret (map (fun k => (k, primal k)) vars)))))))
              new
            = match solver (Some chebyshev.r)
                      (chebyshev.reformulated l big_m include exclude new) with
              | None => (Raise SolverError,
                         chebyshev.reformulated l big_m include exclude new)
              | Some primal =>
                  if decide (big_m - primal chebyshev.r <= optimality new)
                  then (Raise (NameError "warn"),
                        chebyshev.reformulated l big_m include exclude new)
                  else (Ok (map (fun k => (k, primal k)) l),
                        chebyshev.reformulated l big_m include exclude new)
              end) as Hrun.
  { intros l. cbv [bind ret add_variable modify get chebyshev.optimize].
    change (solver (Some (variable (Var ChebyshevRadius "radius" (Some 0) (Some big_m))))
              (upd_cons_dict _ _))
      with (solver (Some chebyshev.r)
              (chebyshev.reformulated l big_m include exclude new)).
    destruct (solver _ _) as [primal|]; [|reflexivity].
    change (variable _) with chebyshev.r.
    change (optimality _) with (optimality new).
    case_decide; [|reflexivity].
    rewrite global_name_warn. reflexivity. }
  destruct variables as [[|x l]|[|x l]]; simpl in vars; subst vars;
    try contradiction; apply Hrun.
Qed.

(** The registry of constraints that [center] leaves. *)
Lemma center_state variables big_m include exclude new :
  let vars := chebyshev.target_symbols variables in
  snd (chebyshev.center solver variables big_m include exclude new)
  = if decide (vars = []) then new
    else chebyshev.reformulated vars big_m include exclude new.
Proof.
  intros vars. destruct (decide (vars = [])) as [Hnil|Hne].
  - unfold chebyshev.center.
    destruct variables as [[|x l]|[|x l]]; try discriminate Hnil; reflexivity.
  - fold vars. rewrite (center_run _ _ _ _ _ Hne).
    destruct (solver _ _); [case_decide|]; reflexivity.
Qed.

End chebyshev_facts.

(** C5.  In chebyshev_center, once the object to work on is bound, a
    constraint of it is rewritten if and only if it takes part: its kind
    passes the include/exclude filter, one of its bounds is open, and its
    expression holds at least one of the target variables.  The rewrite adds
    norm(a)*r to the expression when the lower bound is open and subtracts
    norm(a)*r when the upper bound is open and the lower one is not, norm(a)
    being the Euclidean norm of the coefficients of the target variables that
    appear in the constraint; a constraint that does not take part is left as
    it was. *)
Theorem chebyshev_center_rewrites
  (solver : option Symbol -> ThermoModel -> option (Symbol -> R))
  model new variables inplace big_m include exclude key cons :
  chebyshev.working_model solver model inplace = Ok new ->
  _cons_dict new !! key = Some cons ->
  let vars := chebyshev.target_symbols variables in
  let final := snd (chebyshev.chebyshev_center solver model variables inplace
                      big_m include exclude) in
  let shift := Scale (chebyshev.norm_a vars cons) (Sym chebyshev.r) in
  (chebyshev.takes_part vars include exclude cons -> c_lb cons = None ->
   _cons_dict final !! key = Some (change_expr (Add (c_expr cons) shift) cons))
  /\ (chebyshev.takes_part vars include exclude cons ->
      c_ub cons = None -> is_Some (c_lb cons) ->
      _cons_dict final !! key = Some (change_expr (Sub (c_expr cons) shift) cons))
  /\ (~ chebyshev.takes_part vars include exclude cons ->
      _cons_dict final !! key = Some cons).
Proof.
  intros Hwm Hkey vars final shift.
  assert (final = snd (chebyshev.center solver variables big_m include exclude new))
    as Hfinal.
  { unfold final, chebyshev.chebyshev_center. rewrite Hwm. reflexivity. }
  rewrite Hfinal, center_state. fold vars.
  destruct (decide (vars = [])) as [Hnil|Hne].
  - assert (~ chebyshev.takes_part vars include exclude cons) as Hno.
    { intros (_ & _ & _ & Ht). apply Ht. rewrite Hnil. apply targets_in_nil. }
    repeat split; intros; try contradiction; exact Hkey.
  - unfold chebyshev.reformulated. simpl.
    rewrite map_lookup_imap, Hkey. simpl. rewrite lookup_omap, Hkey. simpl.
    repeat split.
    + intros Ht Hlb. rewrite (to_edit_Some _ _ _ _ Ht).
      unfold chebyshev.edit. rewrite Hlb. reflexivity.
    + intros Ht Hub [lb Hlb]. rewrite (to_edit_Some _ _ _ _ Ht).
      unfold chebyshev.edit. rewrite Hlb, Hub. reflexivity.
    + intros Hno. rewrite (to_edit_None _ _ _ _ Hno). reflexivity.
Qed.

(** C10.  When chebyshev_center is called with the empty include list, its
    default, the kind filter rejects every constraint: the registry of
    constraints is left as it was, so that a radius that no constraint
    mentioned before is mentioned by none after and is limited by its own
    bounds [0, big_m] only; a constraint can only be rewritten when the
    caller passes a non-empty include list. *)
Theorem chebyshev_center_default_include
  (solver : option Symbol -> ThermoModel -> option (Symbol -> R))
  model new variables inplace big_m exclude :
  chebyshev.working_model solver model inplace = Ok new ->
  let final include :=
    snd (chebyshev.chebyshev_center solver model variables inplace big_m
           include exclude) in
  _cons_dict (final []) = _cons_dict new
  /\ (chebyshev.target_symbols variables <> [] ->
      _var_dict (final []) !! (ChebyshevRadius, "radius")
      = Some (Var ChebyshevRadius "radius" (Some 0) (Some big_m)))
  /\ ((forall key cons, _cons_dict new !! key = Some cons ->
                        chebyshev.r ∉ symbols (c_expr cons)) ->
      forall key cons, _cons_dict (final []) !! key = Some cons ->
                       chebyshev.r ∉ symbols (c_expr cons))
  /\ (forall include key cons,
        _cons_dict new !! key = Some cons ->
        _cons_dict (final include) !! key <> Some cons ->
        include <> []).
Proof.
  intros Hwm final.
  assert (forall include,
            final include
            = snd (chebyshev.center solver variables big_m include exclude new))
    as Hfinal.
  { intros include. unfold final, chebyshev.chebyshev_center.
    rewrite Hwm. reflexivity. }
  assert (_cons_dict (final []) = _cons_dict new) as Hsame.
  { rewrite Hfinal, center_state.
    destruct (decide (chebyshev.target_symbols variables = [])); [reflexivity|].
    unfold chebyshev.reformulated. simpl.
    apply map_eq. intros key. rewrite map_lookup_imap.
    destruct (_cons_dict new !! key) as [cons|] eqn:Hkey; [|reflexivity].
    simpl. rewrite lookup_omap, Hkey. simpl.
    rewrite to_edit_None; [reflexivity|].
    intros (_ & Hin & _). inversion Hin. }
  split; [exact Hsame|]. split; [|split].
  - intros Hne. rewrite Hfinal, center_state.
    rewrite decide_False by exact Hne. unfold chebyshev.reformulated. simpl.
    apply lookup_insert_eq.
  - intros Hnew key cons. rewrite Hsame. apply Hnew.
  - intros include key cons Hkey Hchanged ->.
    apply Hchanged. rewrite Hsame. exact Hkey.
Qed.

(** Whenever the radius that the solver returns is within the optimality
    tolerance of big_m, the evaluation of the unbound name [warn] ends the
    routine. *)
Lemma chebyshev_center_warn
  (solver : option Symbol -> ThermoModel -> option (Symbol -> R))
  variables big_m include exclude new primal :
  chebyshev.target_symbols variables <> [] ->
  solver (Some chebyshev.r)
    (snd (chebyshev.center solver variables big_m include exclude new))
  = Some primal ->
  big_m - primal chebyshev.r <= optimality new ->
  fst (chebyshev.center solver variables big_m include exclude new)
  = Raise (NameError "warn").
Proof.
  intros Hne Hsolve Hclose. rewrite center_state in Hsolve.
  rewrite decide_False in Hsolve by exact Hne.
  rewrite (center_run _ _ _ _ _ _ Hne), Hsolve.
  rewrite decide_True by exact Hclose. reflexivity.
Qed.

(* --------------------------------------------------------------------- *)
(* Runs on the example model                                              *)
(* --------------------------------------------------------------------- *)

Lemma run_bind {S A B} (c : M S A) (k : A -> M S B) s a s1 r :
  c s = (Ok a, s1) -> k a s1 = r -> bind c k s = r.
Proof. intros Hc <-. apply bind_step, Hc. Defined.

Ltac run_lookup :=
  repeat first
    [ rewrite lookup_insert_eq
    | rewrite lookup_singleton_eq
    | rewrite lookup_insert_ne by (intros ?; discriminate) ].

Ltac run_decide :=
  first
    [ rewrite decide_True by lra
    | rewrite decide_False by lra
    | rewrite decide_True by lia
    | rewrite decide_False by lia
    | rewrite bool_decide_eq_true_2 by (first [lra | lia | set_solver])
    | rewrite bool_decide_eq_false_2 by (first [lra | lia | set_solver]) ].

(** Symbolic execution of a method on a concrete model. *)
Ltac run_prim :=
  match goal with
  | |- ret _ _ = _ => reflexivity
  | |- raise _ _ = _ => reflexivity
  | |- get _ = _ => reflexivity
  | |- modify _ _ = _ => reflexivity
  | |- add_variable _ _ _ _ _ = _ => reflexivity
  | |- add_constraint _ _ _ _ _ _ = _ => reflexivity
  | |- (_, _) = _ => reflexivity
  end.

Ltac run :=
  repeat (simpl; run_lookup;
          first [ run_prim
                | eapply run_bind
                | run_decide
                | progress unfold thermo_of, subscript, attribute, log, LC_var,
                    rxn_thermo_of, thermo_key, H2OtRxns, check_thermo, check_bounds,
                    _convert_metabolite, _convert_reaction, thermo_branch,
                    _prepare_metabolite, _prepare_reaction, thermo_store ]).


Lemma check_thermo_run r s th :
  rxn_thermo s !! Reaction.id r = Some th -> check_thermo r s = (Ok tt, s).
Proof. unfold check_thermo, bind, get. intros ->. reflexivity. Defined.

Lemma example_metabolites_run :
  for_each (metabolites example.prepared)
    (fun met => _convert_metabolite met false true) example.emptied
  = (Ok tt, example.with_LC).
Proof. run. Defined.

Lemma example_reaction_run ad :
  _convert_reaction example.num example.ext example.R1 false ad true example.with_LC
  = (Ok tt, example.converted ad).
Proof. destruct ad; run. Defined.

(** The conversion of the example model returns, and leaves the formulation
    [example.converted]. *)
Lemma example_convert_runs ad :
  convert example.num example.ext false ad true example.prepared
  = (Ok tt, example.converted ad).
Proof.
  unfold convert.
  eapply run_bind; [reflexivity|].
  eapply run_bind.
  { apply check_bounds_loop. intros r Hr.
    apply list_elem_of_singleton in Hr as ->. simpl. lra. }
  eapply run_bind.
  { eapply run_bind; [|reflexivity].
    eapply check_thermo_run. apply lookup_singleton_eq. }
  eapply run_bind; [reflexivity|].
  eapply run_bind; [reflexivity|].
  eapply run_bind; [exact example_metabolites_run|].
  eapply run_bind; [exact (example_reaction_run ad)|].
  reflexivity.
Defined.

Lemma example_NoDup : NoDup (Reaction.id <$> reactions example.prepared).
Proof. apply NoDup_singleton. Defined.

Lemma example_R1 : example.R1 ∈ reactions example.prepared.
Proof. apply list_elem_of_singleton. reflexivity. Defined.

Lemma example_registry_ok : registry_ok example.prepared.
Proof. split; intros k w H; simpl in H; rewrite lookup_empty in H; discriminate. Defined.

Lemma example_thermo_R1 :
  rxn_thermo example.prepared !! Reaction.id example.R1 = Some example.thermo_R1.
Proof. apply lookup_singleton_eq. Defined.

Lemma example_not_water : ~ water_transport example.R1 example.thermo_R1.
Proof. intros [H _]. discriminate H. Defined.

Lemma example_protons :
  find_protons (metabolites example.raw) = {["c" := example.proton]}.
Proof. reflexivity. Defined.

(** prepare returns on the example model. *)
Lemma example_prepare_runs :
  exists m', prepare example.num example.ext example.raw = (Ok tt, m').
Proof.
  eexists. unfold prepare.
  eapply run_bind; [reflexivity|].
  eapply run_bind; [run|].
  rewrite example_protons.
  rewrite decide_False by (rewrite map_size_singleton; discriminate).
  eapply run_bind; [reflexivity|].
  run.
Defined.

Lemma example_A_run :
  exists s', _convert_metabolite example.A false true example.emptied = (Ok tt, s').
Proof. eexists. run. Defined.

(* --------------------------------------------------------------------- *)
(* The theorems at the example model                                      *)
(* --------------------------------------------------------------------- *)

Lemma convert_use_constraints_witness :
  convert example.num example.ext false false true example.prepared
  = (Ok tt, example.converted false)
  /\ registry_ok example.prepared
  /\ NoDup (Reaction.id <$> reactions example.prepared)
  /\ example.R1 ∈ reactions example.prepared
  /\ exactly_one_var (example.converted false) (ForwardUse_of "R1")
  /\ exactly_one_var (example.converted false) (BackwardUse_of "R1")
  /\ exactly_one_cons (example.converted false) (SimultaneousUse_of "R1")
  /\ exactly_one_cons (example.converted false)
       (ForwardDirectionCoupling_of example.num "R1")
  /\ exactly_one_cons (example.converted false)
       (BackwardDirectionCoupling_of example.num "R1").
Proof.
  split; [exact (example_convert_runs false)|].
  split; [exact example_registry_ok|].
  split; [exact example_NoDup|].
  split; [exact example_R1|].
  exact (convert_use_constraints example.num example.ext false false true
           example.prepared (example.converted false) example.R1
           (example_convert_runs false) example_registry_ok example_NoDup
           example_R1).
Defined.

Lemma convert_deltaG_coupling_witness :
  convert example.num example.ext false false true example.prepared
  = (Ok tt, example.converted false)
  /\ computed example.thermo_R1 = Some true
  /\ ~ water_transport example.R1 example.thermo_R1
  /\ _cons_dict (example.converted false) !! (ForwardDeltaGCoupling, "R1")
     = Some (ForwardDeltaGCoupling_of example.num "R1"
               (feasibility example.prepared))
  /\ _cons_dict (example.converted false) !! (BackwardDeltaGCoupling, "R1")
     = Some (BackwardDeltaGCoupling_of example.num "R1"
               (feasibility example.prepared))
  /\ forall rho, feasible rho (example.converted false) ->
       (rho (TVar ForwardUseVariable "R1") = 1 ->
        rho (TVar DeltaG "R1") <= - feasibility example.prepared)
       /\ (rho (TVar BackwardUseVariable "R1") = 1 ->
           rho (TVar DeltaG "R1") >= feasibility example.prepared).
Proof.
  split; [exact (example_convert_runs false)|].
  split; [reflexivity|].
  split; [exact example_not_water|].
  exact (convert_deltaG_coupling example.num example.ext false false true
           example.prepared (example.converted false) example.R1
           example.thermo_R1 (example_convert_runs false) example_NoDup
           example_R1 example_thermo_R1 eq_refl example_not_water).
Defined.


Lemma convert_displacement_witness :
  convert example.num example.ext false true true example.prepared
  = (Ok tt, example.converted true)
  /\ _var_dict (example.converted true) !! (ThermoDisplacement, "R1")
     = Some (Var ThermoDisplacement "R1" (Some (- numerics.BIGM_P example.num))
               (Some (numerics.BIGM_P example.num)))
  /\ _cons_dict (example.converted true) !! (DisplacementCoupling, "R1")
     = Some (DisplacementCoupling_of "R1" (RT example.prepared))
  /\ RT example.prepared <> 0
  /\ forall rho,
       satisfies rho (DisplacementCoupling_of "R1" (RT example.prepared))
       <-> rho (TVar ThermoDisplacement "R1")
           = rho (TVar DeltaG "R1") / RT example.prepared.
Proof.
  split; [exact (example_convert_runs true)|].
  exact (convert_displacement example.num example.ext false true
           example.prepared (example.converted true) example.R1
           example.thermo_R1 (example_convert_runs true) example_NoDup
           example_R1 example_thermo_R1 eq_refl example_not_water).
Defined.

Lemma prepare_computed_witness :
  exists m',
    prepare example.num example.ext example.raw = (Ok tt, m')
    /\ NoDup (Reaction.id <$> reactions example.raw)
    /\ example.R1 ∈ reactions example.raw
    /\ exists proton_of th c,
         _proton_of m' = Some proton_of
         /\ rxn_thermo m' !! "R1" = Some th
         /\ computed th = Some c
         /\ (c = false <->
             length (Reaction.metabolites example.R1) = 1%nat
             \/ lacks_thermo_data example.num m' (Reaction.metabolites example.R1)
             \/ (100 <= length (Reaction.metabolites example.R1))%nat
             \/ imports.check_reaction_balance example.ext example.R1
                  (proton_for proton_of example.R1)
                ∈ ["missing atoms"; "drain flux"]).
Proof.
  destruct example_prepare_runs as [m' H]. exists m'.
  split; [exact H|].
  split; [exact example_NoDup|].
  split; [exact example_R1|].
  exact (prepare_computed example.num example.ext example.raw m' example.R1
           H example_NoDup example_R1).
Defined.

Lemma convert_checks_bounds_witness :
  (Reaction.Build "R1" [(example.A, -1); (example.B, 1)] (-2000) 1000
     ∈ reactions example.too_wide
   /\ -2000 < - numerics.BIGM example.num
   /\ convert example.num example.ext false false true example.too_wide
      = (Raise (Exception "flux bounds too wide or big M not big enough"),
         example.too_wide))
  /\ (convert example.num example.ext false false true example.prepared
      = (Ok tt, example.converted false)
      /\ - numerics.BIGM example.num <= Reaction.lower_bound example.R1
      /\ Reaction.upper_bound example.R1 <= numerics.BIGM example.num).
Proof.
  assert (Reaction.Build "R1" [(example.A, -1); (example.B, 1)] (-2000) 1000
            ∈ reactions example.too_wide) as Hin
    by (apply list_elem_of_singleton; reflexivity).
  assert (-2000 < - numerics.BIGM example.num) as Hlt by (simpl; lra).
  split.
  - split; [exact Hin|]. split; [exact Hlt|].
    exact (proj1 (convert_checks_bounds example.num example.ext false false true
                    example.too_wide) _ Hin (or_introl Hlt)).
  - split; [exact (example_convert_runs false)|].
    exact (proj2 (convert_checks_bounds example.num example.ext false false true
                    example.prepared) _ (example_convert_runs false)
             example.R1 example_R1).
Defined.

(** A reaction whose lower bound is -BIGM itself is not strictly inside
    [-BIGM, BIGM], and convert does not raise on it. *)
Lemma convert_accepts_bounds_on_big_M :
  Reaction.lower_bound example.R1 = - numerics.BIGM example.num
  /\ ~ (- numerics.BIGM example.num < Reaction.lower_bound example.R1)
  /\ convert example.num example.ext false false true example.prepared
     = (Ok tt, example.converted false).
Proof.
  split; [reflexivity|]. split; [simpl; lra|].
  exact (example_convert_runs false).
Qed.

(** The displacement constraint that convert registers is satisfied at a
    point where lnGamma = 1 and DeltaG = 2 = RT, so that lnGamma is
    DeltaG/RT = 1 and not -DeltaG/RT = -1. *)
Lemma displacement_is_not_minus_deltaG_over_RT :
  convert example.num example.ext false true true example.prepared
  = (Ok tt, example.converted true)
  /\ _cons_dict (example.converted true) !! (DisplacementCoupling, "R1")
     = Some (DisplacementCoupling_of "R1" 2)
  /\ exists rho,
       satisfies rho (DisplacementCoupling_of "R1" 2)
       /\ rho (TVar ThermoDisplacement "R1") <> - rho (TVar DeltaG "R1") / 2.
Proof.
  split; [exact (example_convert_runs true)|]. split.
  - unfold example.converted, with_registries, use_cons, thermo_branch_cons.
    simpl. lookup_registry. reflexivity.
  - exists (fun x => match x with
                     | TVar DeltaG _ => 2
                     | TVar ThermoDisplacement _ => 1
                     | _ => 0
                     end).
    split; [|lra]. unfold satisfies. simpl. lra.
Qed.

Lemma _convert_metabolite_cases_witness :
  exists s',
    _convert_metabolite example.A false true example.emptied = (Ok tt, s')
    /\ met_thermo example.emptied !! "A" = Some example.thermo_A
    /\ compartments example.emptied !! "c" = Some example.cytosol
    /\ _var_dict s' !! (LogConcentration, "A")
       = Some (Var LogConcentration "A" (Some (ln (c_min example.cytosol)))
                 (Some (ln (c_max example.cytosol)))).
Proof.
  destruct example_A_run as [s' H]. exists s'.
  assert (met_thermo example.emptied !! "A" = Some example.thermo_A) as Hth.
  { simpl. lookup_registry. reflexivity. }
  assert (compartments example.emptied !! "c" = Some example.cytosol) as Hc
    by apply lookup_singleton_eq.
  split; [exact H|]. split; [exact Hth|]. split; [exact Hc|].
  apply (_convert_metabolite_cases example.A false true example.emptied s'
           example.thermo_A example.cytosol H Hth Hc).
  - discriminate.
  - discriminate.
  - simpl. rewrite lookup_singleton_eq. discriminate.
  - simpl. lra.
Defined.

(** A metabolite that carries the annotation of the biomass marker and has
    formula H receives a log-concentration variable. *)
Lemma marker_of_formula_H_receives_variable :
  Metabolite.annotation example.marked_proton !! "seed_id" = Some "cpd11416"
  /\ exists s',
       _convert_metabolite example.marked_proton false true
         example.with_marked_proton = (Ok tt, s')
       /\ _var_dict s' !! (LogConcentration, "bm")
          = Some (Var LogConcentration "bm" (Some (ln (Rpower 10 (- 7))))
                    (Some (ln (Rpower 10 (- 7))))).
Proof.
  split; [apply lookup_singleton_eq|].
  eexists. split; [run|]. simpl. apply lookup_insert_eq.
Qed.

Lemma example_coupling_lookup :
  _cons_dict example.coupled !! (ForwardDirectionCoupling, "R1")
  = Some (ForwardDirectionCoupling_of example.num "R1").
Proof. apply lookup_singleton_eq. Defined.

(** The forward flux of R1 is a target that appears in its direction
    coupling. *)
Lemma example_targets :
  chebyshev.targets_in [forward_variable "R1"]
    (ForwardDirectionCoupling_of example.num "R1")
  = [forward_variable "R1"].
Proof.
  unfold chebyshev.targets_in, free_symbols. simpl.
  rewrite filter_cons_True by (simpl; lra).
  rewrite filter_cons_True by (apply list_elem_of_singleton; reflexivity).
  rewrite filter_cons_True by (simpl; lra).
  rewrite filter_nil.
  rewrite filter_cons_False
    by (intros H; apply list_elem_of_singleton in H; discriminate H).
  reflexivity.
Defined.

(** Its coefficient there is 1, and so is the norm. *)
Lemma example_norm :
  chebyshev.norm_a [forward_variable "R1"]
    (ForwardDirectionCoupling_of example.num "R1") = 1.
Proof.
  unfold chebyshev.norm_a. rewrite example_targets.
  unfold chebyshev.norm. simpl.
  replace ((1 - 1000 * 0) * (1 - 1000 * 0) + 0) with 1 by ring.
  apply sqrt_1.
Qed.

Lemma example_takes_part :
  chebyshev.takes_part [forward_variable "R1"] [ForwardDirectionCoupling] []
    (ForwardDirectionCoupling_of example.num "R1").
Proof.
  split; [apply not_elem_of_nil|].
  split; [apply list_elem_of_singleton; reflexivity|].
  split; [left; reflexivity|].
  rewrite example_targets. discriminate.
Defined.

Lemma chebyshev_center_rewrites_witness :
  chebyshev.working_model example.solver example.coupled true = Ok example.coupled
  /\ chebyshev.takes_part [forward_variable "R1"] [ForwardDirectionCoupling] []
       (ForwardDirectionCoupling_of example.num "R1")
  /\ c_lb (ForwardDirectionCoupling_of example.num "R1") = None
  /\ _cons_dict
       (snd (chebyshev.chebyshev_center example.solver example.coupled
               (chebyshev.names [forward_variable "R1"]) true chebyshev.BIGM
               [ForwardDirectionCoupling] []))
     !! (ForwardDirectionCoupling, "R1")
     = Some (change_expr
               (Add (c_expr (ForwardDirectionCoupling_of example.num "R1"))
                  (Scale
                     (chebyshev.norm_a [forward_variable "R1"]
                        (ForwardDirectionCoupling_of example.num "R1"))
                     (Sym chebyshev.r)))
               (ForwardDirectionCoupling_of example.num "R1")).
Proof.
  split; [reflexivity|]. split; [exact example_takes_part|].
  split; [reflexivity|].
  exact (proj1 (chebyshev_center_rewrites example.solver example.coupled
                  example.coupled (chebyshev.names [forward_variable "R1"])
                  true chebyshev.BIGM [ForwardDirectionCoupling] []
                  (ForwardDirectionCoupling, "R1")
                  (ForwardDirectionCoupling_of example.num "R1")
                  eq_refl example_coupling_lookup)
           example_takes_part eq_refl).
Defined.

Lemma chebyshev_center_default_include_witness :
  chebyshev.working_model example.solver example.coupled true = Ok example.coupled
  /\ _cons_dict
       (snd (chebyshev.chebyshev_center example.solver example.coupled
               (chebyshev.names [forward_variable "R1"]) true chebyshev.BIGM
               [] []))
     = _cons_dict example.coupled.
Proof.
  split; [reflexivity|].
  exact (proj1 (chebyshev_center_default_include example.solver example.coupled
                  example.coupled (chebyshev.names [forward_variable "R1"])
                  true chebyshev.BIGM [] eq_refl)).
Defined.

(** C6, where the code departs from it.  The radius is created with bounds
    [0, big_m]; but when the radius that the solver returns is within the
    optimality tolerance of big_m, the routine does not warn and return: the
    name [warn] is bound nowhere in the module, and the call ends in a
    NameError.  Here the call with the default include list on the example
    model, where the solver finds the radius at big_m = 1000. *)
Theorem chebyshev_center_warn_is_unbound :
  fst (chebyshev.chebyshev_center example.solver example.coupled
         (chebyshev.names [forward_variable "R1"]) true chebyshev.BIGM [] [])
  = Raise (NameError "warn").
Proof.
  unfold chebyshev.chebyshev_center.
  change (chebyshev.working_model example.solver example.coupled true)
    with (Ok example.coupled).
  apply (chebyshev_center_warn example.solver
           (chebyshev.names [forward_variable "R1"]) chebyshev.BIGM [] []
           example.coupled
           (fun x => if decide (x = chebyshev.r) then 1000 else 0)).
  - discriminate.
  - reflexivity.
  - rewrite decide_True by reflexivity. unfold chebyshev.BIGM. simpl. lra.
Qed.

(* ===================================================================== *)
(* Further properties of prepare                                          *)
(* ===================================================================== *)

(** A loop whose turns all succeed, cut around one of its elements. *)
Lemma for_each_elem {S A} (l : list A) (body : A -> M S unit) s s' x :
  x ∈ l -> for_each l body s = (Ok tt, s') ->
  exists l1 l2 s1 s2,
    l = (l1 ++ x :: l2)%list
    /\ for_each l1 body s = (Ok tt, s1)
    /\ body x s1 = (Ok tt, s2)
    /\ for_each l2 body s2 = (Ok tt, s').
Proof.
  intros Hx H. apply list_elem_of_split in Hx as (l1 & l2 & ->).
  apply for_each_app in H as (s1 & H1 & H).
  apply for_each_cons in H as (s2 & Hx & H2).
  exists l1, l2, s1, s2. auto.
Qed.

Lemma _prepare_metabolite_Ok ext met s s' :
  _prepare_metabolite ext met s = (Ok tt, s') ->
  exists comp seed_id,
    compartments s !! Metabolite.compartment met = Some comp
    /\ Metabolite.annotation met !! "seed_id" = Some seed_id
    /\ s' = upd_met_thermo
              (insert (Metabolite.id met)
                 (imports.MetaboliteThermo_init ext (compounds_data s !! seed_id)
                    (pH comp) (ionicStr comp))) s.
Proof.
  unfold _prepare_metabolite, bind, get. 
  destruct (compartments s !! Metabolite.compartment met) as [comp|];
    [|discriminate].
  destruct (Metabolite.annotation met !! "seed_id") as [sid|]; [|discriminate].
  intros H. injection H as <-. exists comp, sid. auto.
Qed.

(** The loop of prepare over the metabolites assigns each one the record
    that MetaboliteThermo computes from its entry of the database (none when
    the compound is absent) and the pH and ionic strength of its compartment;
    it returns only if every metabolite has a known compartment and a
    seed_id. *)
Lemma prepare_metabolites_loop ext l s s' met :
  NoDup (Metabolite.id <$> l) -> met ∈ l ->
  for_each l (_prepare_metabolite ext) s = (Ok tt, s') ->
  exists comp seed_id,
    compartments s !! Metabolite.compartment met = Some comp
    /\ Metabolite.annotation met !! "seed_id" = Some seed_id
    /\ met_thermo s' !! Metabolite.id met
       = Some (imports.MetaboliteThermo_init ext (compounds_data s !! seed_id)
                 (pH comp) (ionicStr comp)).
Proof.
  intros Hnd Hmet H.
  apply (for_each_elem _ _ _ _ _ Hmet) in H
    as (l1 & l2 & s1 & s2 & -> & H1 & Hx & H2).
  rewrite fmap_app, fmap_cons in Hnd.
  apply NoDup_app in Hnd as (_ & _ & Hnd). apply NoDup_cons in Hnd as [Hnotin _].
  assert (compartments s1 = compartments s /\ compounds_data s1 = compounds_data s)
    as [Hc Hd].
  { apply (for_each_invariant
             (fun s s' => compartments s' = compartments s
                          /\ compounds_data s' = compounds_data s)
             l1 (_prepare_metabolite ext)) with (s := s) (s' := s1);
      [| | |exact H1].
    - auto.
    - intros t1 t2 t3 [A B] [A' B']. split; congruence.
    - intros x t t' _ Ht. apply _prepare_metabolite_Ok in Ht as (? & ? & _ & _ & ->).
      auto. }
  apply _prepare_metabolite_Ok in Hx as (comp & sid & Hcomp & Hsid & ->).
  exists comp, sid. rewrite <- Hc, <- Hd. split; [exact Hcomp|]. split; [exact Hsid|].
  assert (met_thermo s' !! Metabolite.id met
          = met_thermo (upd_met_thermo
                          (insert (Metabolite.id met)
                             (imports.MetaboliteThermo_init ext
                                (compounds_data s1 !! sid) (pH comp) (ionicStr comp)))
                          s1) !! Metabolite.id met) as ->.
  { apply (for_each_invariant
             (fun s s' => met_thermo s' !! Metabolite.id met
                          = met_thermo s !! Metabolite.id met)
             l2 (_prepare_metabolite ext)) with (s' := s'); [| | |exact H2].
    - auto.
    - intros; congruence.
    - intros x t t' Hx Ht.
      apply _prepare_metabolite_Ok in Ht as (? & ? & _ & _ & ->). simpl.
      apply lookup_insert_ne. intros Heq. apply Hnotin. rewrite <- Heq.
      apply list_elem_of_fmap_2, Hx. }
  simpl. apply lookup_insert_eq.
Qed.

(** X1.  After a prepare that returns, every metabolite of the model has a
    known compartment and a seed_id, and its thermo record is the one that
    MetaboliteThermo computes from its entry of the thermodynamic database
    (no entry at all when the compound is absent, which is not an error) and
    the pH and ionic strength of its compartment. *)
Theorem prepare_metabolite_thermo num ext m m' met :
  prepare num ext m = (Ok tt, m') ->
  NoDup (Metabolite.id <$> metabolites m) -> met ∈ metabolites m ->
  exists comp seed_id,
    compartments m !! Metabolite.compartment met = Some comp
    /\ Metabolite.annotation met !! "seed_id" = Some seed_id
    /\ met_thermo m' !! Metabolite.id met
       = Some (imports.MetaboliteThermo_init ext (compounds_data m !! seed_id)
                 (pH comp) (ionicStr comp)).
Proof.
  intros H Hnd Hmet. unfold prepare in H.
  apply bind_Ok in H as (self & s0 & E & H). injection E as <- <-.
  apply bind_Ok in H as ([] & sa & Hm & H).
  apply bind_Ok in H as ([] & sb & Hp & H).
  destruct (prepare_metabolites_loop _ _ _ _ _ Hnd Hmet Hm)
    as (comp & sid & A & B & C).
  exists comp, sid. split; [exact A|]. split; [exact B|].
  assert (met_thermo sb = met_thermo sa) as Hsb.
  { case_decide; [discriminate|]. injection Hp as <-. reflexivity. }
  assert (rxn_thermo_only sb m') as Hr.
  { apply (for_each_invariant rxn_thermo_only (reactions m)
             (_prepare_reaction num ext)) with (s := sb) (s' := m');
      [apply rxn_thermo_only_refl | apply rxn_thermo_only_trans | | exact H].
    intros x t t' _ Hx. apply _prepare_reaction_Ok in Hx as [Hx _]. exact Hx. }
  apply rxn_thermo_only_met_thermo in Hr as [-> _]. rewrite Hsb. exact C.
Qed.

Lemma prepare_metabolite_thermo_witness :
  exists m',
    prepare example.num example.ext example.raw = (Ok tt, m')
    /\ NoDup (Metabolite.id <$> metabolites example.raw)
    /\ example.A ∈ metabolites example.raw
    /\ exists comp seed_id,
         compartments example.raw !! "c" = Some comp
         /\ Metabolite.annotation example.A !! "seed_id" = Some seed_id
         /\ met_thermo m' !! "A"
            = Some (imports.MetaboliteThermo_init example.ext
                      (compounds_data example.raw !! seed_id)
                      (pH comp) (ionicStr comp)).
Proof.
  destruct example_prepare_runs as [m' H]. exists m'.
  assert (NoDup (Metabolite.id <$> metabolites example.raw)) as Hnd.
  { simpl. repeat (apply NoDup_cons; split;
                   [rewrite ?elem_of_cons, elem_of_nil; intros Hx;
                    repeat (destruct Hx as [Hx|Hx]; [discriminate Hx|]); exact Hx|]).
    apply NoDup_nil. exact I. }
  assert (example.A ∈ metabolites example.raw) as Hin by (simpl; left).
  split; [exact H|]. split; [exact Hnd|]. split; [exact Hin|].
  exact (prepare_metabolite_thermo example.num example.ext example.raw m'
           example.A H Hnd Hin).
Defined.







(** The record that one turn of the loop over the reactions writes. *)
Lemma _prepare_reaction_keys num ext reaction s s' :
  _prepare_reaction num ext reaction s = (Ok tt, s') ->
  exists th c g e,
    rxn_thermo s' !! Reaction.id reaction = Some th
    /\ isTrans th = imports.check_transport_reaction ext reaction
    /\ computed th = Some c /\ deltaGR th = Some g /\ deltaGRerr th = Some e
    /\ (c = false -> g = numerics.BIGM_DG num /\ e = numerics.BIGM_DG num)
    /\ (c = true -> e <> 0).
Proof.
  intros H. unfold _prepare_reaction in H.
  apply bind_Ok in H as (self & s0 & E & H). injection E as <- <-.
  apply bind_Ok in H as (p & s0 & E & H).
  pose proof (readonly_attribute _ _ _ _ _ E) as ->. clear E.
  apply bind_Ok in H as ([] & s0 & E & H). injection E as <-.
  apply bind_Ok in H as ([] & s0 & E & H). injection E as <-.
  apply bind_Ok in H as (b & s0 & E & H).
  apply correct_thermo_values_Ok in E as [-> _].
  destruct (_ || _).
  - cbv [bind thermo_store modify] in H. injection H as <-. simpl.
    eexists _, false, _, _. split.
    { rewrite !lookup_alter_eq, lookup_insert_eq. simpl. reflexivity. }
    simpl. repeat split; try reflexivity. discriminate.
  - apply bind_Ok in H as ([] & s0 & E & H). injection E as <-.
    apply bind_Ok in H as ([] & s0 & E & H).
    assert (exists g, rxn_thermo s0 !! Reaction.id reaction
                      = Some {| isTrans := imports.check_transport_reaction ext reaction;
                                computed := Some true; deltaGR := Some g;
                                deltaGRerr := None;
                                deltaGrxn :=
                                  if imports.check_transport_reaction ext reaction
                                  then Some (snd (imports.calcDGtpt_rhs ext
                                                    (met_thermo s) reaction
                                                    (compartments s)))
                                  else None |}
                      /\ met_thermo s0 = met_thermo s) as (g & Hg & Hmt).
    { destruct (imports.check_transport_reaction ext reaction) eqn:Ht.
      - apply bind_Ok in E as (self & s1 & E1 & E). injection E1 as <- <-.
        simpl in E. destruct (imports.calcDGtpt_rhs _ _ _ _) as [rhs sm].
        cbv [bind thermo_store modify] in E. injection E as <-.
        exists rhs. simpl. split; [|reflexivity].
        rewrite !lookup_alter_eq, lookup_insert_eq. reflexivity.
      - apply bind_Ok in E as (x & s1 & E1 & E).
        apply readonly_sum_deltaGrxn in E1 as ->.
        cbv [thermo_store modify] in E. injection E as <-.
        exists x. simpl. split; [|reflexivity].
        rewrite !lookup_alter_eq, lookup_insert_eq. reflexivity. }
    cbv [bind get thermo_store modify] in H. injection H as <-. simpl.
    eexists _, true, g, _. split.
    { rewrite lookup_alter_eq, Hg. simpl. reflexivity. }
    simpl. repeat split; try reflexivity; try discriminate.
    intros _. case_decide; [lra | assumption].
Qed.

(** X3.  After a prepare that returns, the thermo record of every reaction
    has the keys that convert reads: isTrans (the answer of
    check_transport_reaction), computed, deltaGR and deltaGRerr.  A reaction
    that is not computed has deltaGR = deltaGRerr = BIGM_DG; a computed one
    never has an error of 0, since an estimate of 0 is replaced by 2. *)
Theorem prepare_thermo_keys num ext m m' r :
  prepare num ext m = (Ok tt, m') ->
  NoDup (Reaction.id <$> reactions m) -> r ∈ reactions m ->
  exists th c g e,
    rxn_thermo m' !! Reaction.id r = Some th
    /\ isTrans th = imports.check_transport_reaction ext r
    /\ computed th = Some c /\ deltaGR th = Some g /\ deltaGRerr th = Some e
    /\ (c = false -> g = numerics.BIGM_DG num /\ e = numerics.BIGM_DG num)
    /\ (c = true -> e <> 0).
Proof.
  intros H Hnd Hr. unfold prepare in H.
  apply bind_Ok in H as (self & s0 & E & H). injection E as <- <-.
  apply bind_Ok in H as ([] & sa & _ & H).
  apply bind_Ok in H as ([] & sb & _ & H).
  destruct (prepare_reactions_at _ _ _ _ _ _ Hnd Hr H)
    as (s1 & s2 & _ & Hrun & _ & Hlook).
  apply _prepare_reaction_keys in Hrun as (th & c & g & e & Hth & Hrest).
  exists th, c, g, e. split; [congruence | exact Hrest].
Qed.

Lemma prepare_thermo_keys_witness :
  exists m',
    prepare example.num example.ext example.raw = (Ok tt, m')
    /\ exists th c g e,
         rxn_thermo m' !! "R1" = Some th
         /\ isTrans th = imports.check_transport_reaction example.ext example.R1
         /\ computed th = Some c /\ deltaGR th = Some g /\ deltaGRerr th = Some e
         /\ (c = false -> g = numerics.BIGM_DG example.num
                          /\ e = numerics.BIGM_DG example.num)
         /\ (c = true -> e <> 0).
Proof.
  destruct example_prepare_runs as [m' H]. exists m'. split; [exact H|].
  exact (prepare_thermo_keys example.num example.ext example.raw m' example.R1
           H example_NoDup example_R1).
Defined.

Lemma prepare_frame_refl m : prepare_frame m m.
Proof. repeat split. Qed.

Lemma prepare_frame_trans m1 m2 m3 :
  prepare_frame m1 m2 -> prepare_frame m2 m3 -> prepare_frame m1 m3.
Proof. unfold prepare_frame. intuition congruence. Qed.



(* ===================================================================== *)
(* Further properties of convert                                          *)
(* ===================================================================== *)

(** The loop of convert over the reactions, seen from one of them, with what
    the turns before it left on its hook. *)
Lemma convert_reactions_around num ext ap ad v l s s' r :
  lc_ok s -> NoDup (Reaction.id <$> l) -> r ∈ l ->
  for_each l (fun rxn => _convert_reaction num ext rxn ap ad v) s = (Ok tt, s') ->
  exists s1 s2,
    same_host s s1 /\ lc_ok s1 /\ same_on_hook (Reaction.id r) s s1
    /\ LC_vars s1 = LC_vars s
    /\ _convert_reaction num ext r ap ad v s1 = (Ok tt, s2)
    /\ same_host s2 s' /\ same_on_hook (Reaction.id r) s2 s'
    /\ LC_vars s' = LC_vars s2.
Proof.
  intros Hlc Hnd Hr H.
  apply (for_each_elem _ _ _ _ _ Hr) in H
    as (l1 & l2 & s1 & s2 & -> & H1 & Hrun & H2).
  rewrite fmap_app, fmap_cons in Hnd.
  apply NoDup_app in Hnd as (_ & Hl1 & Hnd). apply NoDup_cons in Hnd as [Hl2 _].
  assert (forall l0 t t',
            (forall x, x ∈ l0 -> Reaction.id x <> Reaction.id r) -> lc_ok t ->
            for_each l0 (fun rxn => _convert_reaction num ext rxn ap ad v) t
            = (Ok tt, t') ->
            same_host t t' /\ lc_ok t' /\ same_on_hook (Reaction.id r) t t'
            /\ LC_vars t' = LC_vars t) as Hloop.
  { intros l0 t t' Hl0 Ht Hrun0. revert Ht.
    apply (for_each_invariant
             (fun s s' => lc_ok s ->
                same_host s s' /\ lc_ok s' /\ same_on_hook (Reaction.id r) s s'
                /\ LC_vars s' = LC_vars s)
             l0 (fun rxn => _convert_reaction num ext rxn ap ad v))
      with (s := t) (s' := t'); [| | |exact Hrun0].
    - intros u Hu. split; [apply same_host_refl|]. split; [exact Hu|].
      split; [apply same_on_hook_refl | reflexivity].
    - intros t1 t2 t3 H12 H23 Hu.
      destruct (H12 Hu) as (A & B & C & D). destruct (H23 B) as (A' & B' & C' & D').
      split; [eapply same_host_trans; eassumption|]. split; [exact B'|].
      split; [eapply same_on_hook_trans; eassumption | congruence].
    - intros x u u' Hx Hu' Hu.
      destruct (_convert_reaction_frame _ _ _ _ _ _ _ _ (Reaction.id r) Hu
                  (fun E => Hl0 x Hx (eq_sym E)) Hu') as (A & B & C).
      split; [exact A|]. split; [exact B|]. split; [exact C|].
      apply _convert_reaction_Ok in Hu' as (th & c & _ & _ & Hu'); [|exact Hu].
      destruct Hu' as [(_ & _ & ? & ? & ? & ? & _ & _ & _ & _ & _ & ->) | [_ ->]];
        reflexivity. }
  destruct (Hloop l1 s s1) as (A & B & C & D); [|exact Hlc|exact H1|].
  { intros x Hx Heq. apply (Hl1 (Reaction.id r)).
    - rewrite <- Heq. apply list_elem_of_fmap_2, Hx.
    - left. }
  destruct (_convert_reaction_host _ _ _ _ _ _ _ _ B Hrun) as [_ Hlc2].
  destruct (Hloop l2 s2 s') as (A' & _ & C' & D'); [|exact Hlc2|exact H2|].
  { intros x Hx Heq. apply Hl2. rewrite <- Heq. apply list_elem_of_fmap_2, Hx. }
  exists s1, s2. auto 10.
Qed.

(** The loop of convert over the metabolites registers log-concentration
    variables only. *)
Lemma convert_metabolites_frame ap v l s s' :
  lc_ok s ->
  for_each l (fun met => _convert_metabolite met ap v) s = (Ok tt, s') ->
  _cons_dict s' = _cons_dict s
  /\ forall k h, k <> LogConcentration ->
       _var_dict s' !! (k, h) = _var_dict s !! (k, h).
Proof.
  intros Hlc H.
  cut (lc_ok s' /\ _cons_dict s' = _cons_dict s
       /\ forall k h, k <> LogConcentration ->
            _var_dict s' !! (k, h) = _var_dict s !! (k, h)); [tauto|].
  revert Hlc.
  apply (for_each_invariant
           (fun s s' => lc_ok s ->
              lc_ok s' /\ _cons_dict s' = _cons_dict s
              /\ forall k h, k <> LogConcentration ->
                   _var_dict s' !! (k, h) = _var_dict s !! (k, h))
           l (fun met => _convert_metabolite met ap v))
    with (s := s) (s' := s'); [| | |exact H].
  - auto.
  - intros t1 t2 t3 H12 H23 Ht. destruct (H12 Ht) as (A & B & C).
    destruct (H23 A) as (A' & B' & C'). split; [exact A'|].
    split; [congruence|]. intros k h Hk. rewrite (C' k h Hk). apply C, Hk.
  - intros x t t' _ Hx Ht.
    destruct (_convert_metabolite_host _ _ _ _ _ Ht Hx) as (_ & A & B).
    split; [exact A|]. split; [exact B|].
    apply _convert_metabolite_Ok in Hx as (th & comp & _ & _ & _ & _ & Hx).
    destruct (LC_of x th comp); [|subst t'; reflexivity].
    destruct Hx as (d & _ & _ & ->). intros k h Hk. simpl.
    apply lookup_insert_ne. congruence.
Qed.

Lemma lookup_insert_is_Some_mono {V} `{Countable K} (m : gmap K V) i x j :
  is_Some (m !! j) -> is_Some (<[i := x]> m !! j).
Proof.
  intros Hj. destruct (decide (i = j)) as [->|Hne].
  - rewrite lookup_insert_eq. eauto.
  - rewrite lookup_insert_ne by exact Hne. exact Hj.
Qed.



(** The three use constraints of a reaction, as the registry holds them
    after convert. *)
Lemma convert_use_lookups num ext ap ad v m m' r :
  convert num ext ap ad v m = (Ok tt, m') ->
  NoDup (Reaction.id <$> reactions m) -> r ∈ reactions m ->
  _cons_dict m' !! (SimultaneousUse, Reaction.id r)
  = Some (SimultaneousUse_of (Reaction.id r))
  /\ _cons_dict m' !! (ForwardDirectionCoupling, Reaction.id r)
     = Some (ForwardDirectionCoupling_of num (Reaction.id r))
  /\ _cons_dict m' !! (BackwardDirectionCoupling, Reaction.id r)
     = Some (BackwardDirectionCoupling_of num (Reaction.id r)).
Proof.
  intros H Hnd Hr.
  destruct (convert_reaction_view _ _ _ _ _ _ _ _ H Hnd Hr)
    as (s1 & s2 & _ & Hlc1 & Hrun & _ & Hon).
  destruct (Hon _ eq_refl) as [_ HC].
  apply _convert_reaction_Ok in Hrun as (th & c & _ & _ & Hrun); [|exact Hlc1].
  assert (exists C, _cons_dict s2 = use_cons num (Reaction.id r) C) as (C & HCs).
  { destruct Hrun as [(_ & _ & ? & ? & ? & ? & _ & _ & _ & _ & _ & ->) | [_ ->]];
      simpl; eexists; reflexivity. }
  rewrite !HC, HCs. unfold use_cons.
  repeat split; lookup_registry; reflexivity.
Qed.

(** X6.  In every feasible solution of a converted model, and for every
    reaction, thermo-constrained or not: 0 <= ForwardUse + BackwardUse <= 1,
    forward_flux <= BIGM*ForwardUse and reverse_flux <= BIGM*BackwardUse.
    Hence the two use variables are never both 1, a direction whose use
    variable is 0 carries no positive flux, and with 0/1 use variables the
    forward and the reverse flux are never both positive. *)
Theorem convert_use_semantics num ext ap ad v m m' r rho :
  convert num ext ap ad v m = (Ok tt, m') ->
  NoDup (Reaction.id <$> reactions m) -> r ∈ reactions m ->
  feasible rho m' ->
  let id := Reaction.id r in
  let FU := rho (TVar ForwardUseVariable id) in
  let BU := rho (TVar BackwardUseVariable id) in
  0 <= FU + BU <= 1
  /\ rho (forward_variable id) <= numerics.BIGM num * FU
  /\ rho (reverse_variable id) <= numerics.BIGM num * BU
  /\ ~ (FU = 1 /\ BU = 1)
  /\ (FU = 0 -> rho (forward_variable id) <= 0)
  /\ (BU = 0 -> rho (reverse_variable id) <= 0)
  /\ ((FU = 0 \/ FU = 1) -> (BU = 0 \/ BU = 1) ->
      ~ (rho (forward_variable id) > 0 /\ rho (reverse_variable id) > 0)).
Proof.
  intros H Hnd Hr Hrho id FU BU.
  destruct (convert_use_lookups _ _ _ _ _ _ _ _ H Hnd Hr) as (HS & HF & HB).
  destruct (Hrho _ _ HS) as [HS1 HS2].
  destruct (Hrho _ _ HF) as [_ HF2]. destruct (Hrho _ _ HB) as [_ HB2].
  simpl in HS1, HS2, HF2, HB2. fold id in HS1, HS2, HF2, HB2.
  fold FU BU in HS1, HS2, HF2, HB2.
  split; [lra|]. split; [lra|]. split; [lra|]. split; [lra|].
  split; [intros E; rewrite E in HF2; lra|].
  split; [intros E; rewrite E in HB2; lra|].
  intros [E|E] [E'|E'] [A B]; rewrite ?E, ?E' in *; lra.
Qed.

Lemma convert_use_semantics_witness :
  convert example.num example.ext false false true example.prepared
  = (Ok tt, example.converted false)
  /\ forall rho, feasible rho (example.converted false) ->
       ~ (rho (TVar ForwardUseVariable "R1") = 1
          /\ rho (TVar BackwardUseVariable "R1") = 1).
Proof.
  split; [exact (example_convert_runs false)|].
  intros rho Hrho.
  exact (proj1 (proj2 (proj2 (proj2
           (convert_use_semantics example.num example.ext false false true
              example.prepared (example.converted false) example.R1 rho
              (example_convert_runs false) example_NoDup example_R1 Hrho))))).
Defined.

(** X7.  In every feasible solution of a converted model in which the use
    variables of a thermo-constrained reaction take the values 0 or 1, a
    positive forward flux implies DeltaG <= -epsilon and a positive reverse
    flux implies DeltaG >= epsilon: flux runs downhill only. *)
Theorem convert_flux_follows_deltaG num ext ap ad v m m' r th rho :
  convert num ext ap ad v m = (Ok tt, m') ->
  NoDup (Reaction.id <$> reactions m) -> r ∈ reactions m ->
  rxn_thermo m !! Reaction.id r = Some th ->
  computed th = Some true -> ~ water_transport r th ->
  feasible rho m' ->
  let id := Reaction.id r in
  (rho (TVar ForwardUseVariable id) = 0 \/ rho (TVar ForwardUseVariable id) = 1) ->
  (rho (TVar BackwardUseVariable id) = 0 \/ rho (TVar BackwardUseVariable id) = 1) ->
  (rho (forward_variable id) > 0 -> rho (TVar DeltaG id) <= - feasibility m)
  /\ (rho (reverse_variable id) > 0 -> rho (TVar DeltaG id) >= feasibility m).
Proof.
  intros H Hnd Hr Hth Hc Hw Hrho id HFU HBU.
  destruct (convert_use_lookups _ _ _ _ _ _ _ _ H Hnd Hr) as (_ & HF & HB).
  destruct (convert_thermo_reaction _ _ _ _ _ _ _ _ _ H Hnd Hr Hth Hc Hw)
    as (dGR & err & LCT & LCC & V & C & _ & _ & _ & _ & _ & _ & HC).
  assert (_cons_dict m' !! (ForwardDeltaGCoupling, id)
          = Some (ForwardDeltaGCoupling_of num id (feasibility m))) as HFG.
  { rewrite HC. unfold use_cons, thermo_branch_cons. lookup_registry. reflexivity. }
  assert (_cons_dict m' !! (BackwardDeltaGCoupling, id)
          = Some (BackwardDeltaGCoupling_of num id (feasibility m))) as HBG.
  { rewrite HC. unfold use_cons, thermo_branch_cons. lookup_registry. reflexivity. }
  destruct (Hrho _ _ HF) as [_ HF2]. destruct (Hrho _ _ HB) as [_ HB2].
  destruct (Hrho _ _ HFG) as [_ HFG2]. destruct (Hrho _ _ HBG) as [_ HBG2].
  simpl in HF2, HB2, HFG2, HBG2. fold id in HF2, HB2, HFG2, HBG2.
  split; intros Hpos.
  - destruct HFU as [E|E]; rewrite E in *; lra.
  - destruct HBU as [E|E]; rewrite E in *; lra.
Qed.

Lemma convert_flux_follows_deltaG_witness :
  convert example.num example.ext false false true example.prepared
  = (Ok tt, example.converted false)
  /\ forall rho, feasible rho (example.converted false) ->
       (rho (TVar ForwardUseVariable "R1") = 0
        \/ rho (TVar ForwardUseVariable "R1") = 1) ->
       (rho (TVar BackwardUseVariable "R1") = 0
        \/ rho (TVar BackwardUseVariable "R1") = 1) ->
       (rho (forward_variable "R1") > 0 ->
        rho (TVar DeltaG "R1") <= - feasibility example.prepared)
       /\ (rho (reverse_variable "R1") > 0 ->
           rho (TVar DeltaG "R1") >= feasibility example.prepared).
Proof.
  split; [exact (example_convert_runs false)|].
  intros rho Hrho.
  exact (convert_flux_follows_deltaG example.num example.ext false false true
           example.prepared (example.converted false) example.R1
           example.thermo_R1 rho (example_convert_runs false) example_NoDup
           example_R1 example_thermo_R1 eq_refl example_not_water Hrho).
Defined.

(** X8.  A reaction that is not computed, or that is a water transport,
    receives its two use variables and its three use constraints and nothing
    else: whatever the options, no object of another kind hooked to it is
    added or changed, so that on a model converted for the first time it has
    no DeltaG, DeltaGstd or ThermoDisplacement variable and no NegativeDeltaG,
    DisplacementCoupling or DeltaG coupling constraint. *)
Theorem convert_skips_energy num ext ap ad v m m' r th :
  convert num ext ap ad v m = (Ok tt, m') ->
  NoDup (Reaction.id <$> reactions m) -> r ∈ reactions m ->
  rxn_thermo m !! Reaction.id r = Some th ->
  computed th = Some false \/ water_transport r th ->
  (forall k, k <> LogConcentration -> k <> ForwardUseVariable ->
             k <> BackwardUseVariable ->
     _var_dict m' !! (k, Reaction.id r) = _var_dict m !! (k, Reaction.id r))
  /\ (forall k, k <> SimultaneousUse -> k <> ForwardDirectionCoupling ->
                k <> BackwardDirectionCoupling ->
        _cons_dict m' !! (k, Reaction.id r) = _cons_dict m !! (k, Reaction.id r)).
Proof.
  intros H Hnd Hr Hth Hskip.
  apply convert_Ok in H as (_ & s & Hh & Hlc & Hm & Hrun).
  destruct (convert_metabolites_frame _ _ _ _ _ (lc_ok_fresh m) Hm) as [HCs HVs].
  destruct (convert_reactions_around _ _ _ _ _ _ _ _ _ Hlc Hnd Hr Hrun)
    as (s1 & s2 & Hh1 & Hlc1 & Hon1 & _ & Hr1 & _ & Hon2 & _).
  apply _convert_reaction_Ok in Hr1 as (th' & c & Hth' & Hc & Hr1); [|exact Hlc1].
  assert (th' = th) as ->.
  { destruct Hh1 as (_ & _ & _ & _ & _ & _ & _ & E1).
    destruct Hh as (_ & _ & _ & _ & _ & _ & _ & E).
    rewrite E1, E, Hth in Hth'. congruence. }
  destruct Hr1 as [(Hct & Hnw & _) | [_ ->]].
  { exfalso. destruct Hskip as [Hf|Hw]; [congruence | contradiction]. }
  destruct (Hon2 _ eq_refl) as [HV2 HC2]. destruct (Hon1 _ eq_refl) as [HV1 HC1].
  split; intros k K1 K2 K3.
  - rewrite HV2. simpl. unfold use_vars.
    rewrite !lookup_insert_ne by congruence. rewrite HV1. apply (HVs _ _ K1).
  - rewrite HC2. simpl. unfold use_cons.
    rewrite !lookup_insert_ne by congruence. rewrite HC1, HCs. reflexivity.
Qed.

Lemma scenario_metabolites_run :
  for_each (metabolites scenario.skipped)
    (fun met => _convert_metabolite met false true)
    (set_P_vars ∅ (set_LC_vars ∅ scenario.skipped))
  = (Ok tt, scenario.skipped_with_LC).
Proof. run. Defined.

Lemma scenario_reaction_run :
  _convert_reaction example.num example.ext example.R1 false false true
    scenario.skipped_with_LC
  = (Ok tt, scenario.skipped_converted).
Proof. run. Defined.

Lemma scenario_convert_runs :
  convert example.num example.ext false false true scenario.skipped
  = (Ok tt, scenario.skipped_converted).
Proof.
  unfold convert.
  eapply run_bind; [reflexivity|].
  eapply run_bind.
  { apply check_bounds_loop. intros r Hr.
    apply list_elem_of_singleton in Hr as ->. simpl. lra. }
  eapply run_bind.
  { eapply run_bind; [|reflexivity].
    eapply check_thermo_run. apply lookup_singleton_eq. }
  eapply run_bind; [reflexivity|].
  eapply run_bind; [reflexivity|].
  eapply run_bind; [exact scenario_metabolites_run|].
  eapply run_bind; [exact scenario_reaction_run|].
  reflexivity.
Defined.

Lemma convert_skips_energy_witness :
  convert example.num example.ext false false true scenario.skipped
  = (Ok tt, scenario.skipped_converted)
  /\ _var_dict scenario.skipped_converted !! (DeltaG, "R1") = None
  /\ _cons_dict scenario.skipped_converted !! (NegativeDeltaG, "R1") = None.
Proof.
  split; [exact scenario_convert_runs|].
  destruct (convert_skips_energy example.num example.ext false false true
              scenario.skipped scenario.skipped_converted example.R1
              scenario.thermo_skipped scenario_convert_runs
              example_NoDup example_R1 (lookup_singleton_eq _ _)
              (or_introl eq_refl)) as [HV HC].
  split.
  - etransitivity; [apply (HV DeltaG); discriminate | reflexivity].
  - etransitivity; [apply (HC NegativeDeltaG); discriminate | reflexivity].
Defined.

(** One turn of each loop of convert, without any assumption on the ids. *)
Lemma convert_metabolite_turn ap v l s s' met :
  lc_ok s -> met ∈ l ->
  for_each l (fun met => _convert_metabolite met ap v) s = (Ok tt, s') ->
  exists s1 s2,
    same_host s s1 /\ lc_ok s1
    /\ _convert_metabolite met ap v s1 = (Ok tt, s2).
Proof.
  intros Hlc Hmet H.
  apply (for_each_elem _ _ _ _ _ Hmet) in H
    as (l1 & l2 & s1 & s2 & -> & H1 & Hx & _).
  exists s1, s2. cut (same_host s s1 /\ lc_ok s1); [tauto|]. revert Hlc.
  apply (for_each_invariant (fun s s' => lc_ok s -> same_host s s' /\ lc_ok s')
           l1 (fun met => _convert_metabolite met ap v))
    with (s := s) (s' := s1); [| | |exact H1].
  - intros t Ht. split; [apply same_host_refl | exact Ht].
  - intros t1 t2 t3 H12 H23 Ht. destruct (H12 Ht) as [A B].
    destruct (H23 B) as [A' B'].
    split; [eapply same_host_trans; eassumption | exact B'].
  - intros x t t' _ Hrun Ht.
    destruct (_convert_metabolite_host _ _ _ _ _ Ht Hrun) as (A & B & _). auto.
Qed.

Lemma convert_reaction_turn num ext ap ad v l s s' r :
  lc_ok s -> r ∈ l ->
  for_each l (fun rxn => _convert_reaction num ext rxn ap ad v) s = (Ok tt, s') ->
  exists s1 s2,
    same_host s s1 /\ lc_ok s1
    /\ _convert_reaction num ext r ap ad v s1 = (Ok tt, s2).
Proof.
  intros Hlc Hr H.
  apply (for_each_elem _ _ _ _ _ Hr) in H
    as (l1 & l2 & s1 & s2 & -> & H1 & Hx & _).
  exists s1, s2. cut (same_host s s1 /\ lc_ok s1); [tauto|]. revert Hlc.
  apply (for_each_invariant (fun s s' => lc_ok s -> same_host s s' /\ lc_ok s')
           l1 (fun rxn => _convert_reaction num ext rxn ap ad v))
    with (s := s) (s' := s1); [| | |exact H1].
  - intros t Ht. split; [apply same_host_refl | exact Ht].
  - intros t1 t2 t3 H12 H23 Ht. destruct (H12 Ht) as [A B].
    destruct (H23 B) as [A' B'].
    split; [eapply same_host_trans; eassumption | exact B'].
  - intros x t t' _ Hrun Ht. eapply _convert_reaction_host; eassumption.
Qed.

(** X9.  The potential mode cannot be used: for a metabolite that is neither
    water, nor a proton, nor the biomass marker, and whose Gibbs energy of
    formation is known, _convert_metabolite with add_potentials calls
    add_variable with one positional argument too many.  The call raises
    TypeError after the log-concentration variable was registered and before
    LC_vars learns of it, and convert with add_potentials never returns on a
    model that has such a metabolite. *)
Theorem convert_potentials_TypeError num ext ad v m met th :
  met ∈ metabolites m ->
  met_thermo m !! Metabolite.id met = Some th ->
  Metabolite.formula met <> "H2O" -> Metabolite.formula met <> "H" ->
  seed_id_is met "cpd11416" = false -> deltaGf_tr th < 10 ^ 6 ->
  (forall comp,
     compartments m !! Metabolite.compartment met = Some comp ->
     0 < c_min comp -> 0 < c_max comp ->
     _convert_metabolite met true v m
     = (Raise (TypeError "add_variable() takes 3 positional arguments but 4 were given"),
        upd_var_dict
          (insert (LogConcentration, Metabolite.id met)
             (Var LogConcentration (Metabolite.id met)
                (Some (ln (c_min comp))) (Some (ln (c_max comp))))) m))
  /\ exists e m', convert num ext true ad v m = (Raise e, m').
Proof.
  intros Hmet Hth HW HH Hmark HG. split.
  - intros comp Hcomp Hmin Hmax.
    unfold _convert_metabolite, thermo_of, subscript, log, attribute.
    cbv [bind get]. rewrite Hth. cbv [ret]. rewrite Hcomp.
    rewrite !decide_True by assumption.
    rewrite decide_False by exact HW. rewrite decide_False by exact HH.
    rewrite Hmark. rewrite decide_True by exact HG. reflexivity.
  - destruct (convert num ext true ad v m) as [[[]|e] m'] eqn:H; [exfalso|eauto].
    apply convert_Ok in H as (_ & s & _ & _ & Hm & _).
    destruct (convert_metabolite_turn _ _ _ _ _ _ (lc_ok_fresh m) Hmet Hm)
      as (s1 & s2 & Hh1 & _ & Hrun).
    apply _convert_metabolite_Ok in Hrun as (th' & comp & Hth' & _ & _ & _ & Hrun).
    destruct Hh1 as (_ & _ & _ & _ & _ & _ & E & _). simpl in E.
    rewrite E, Hth in Hth'. injection Hth' as <-.
    unfold LC_of in Hrun.
    rewrite decide_False in Hrun by exact HW.
    rewrite decide_False in Hrun by exact HH.
    rewrite Hmark in Hrun. rewrite decide_True in Hrun by exact HG.
    destruct Hrun as (d & _ & Hap & _).
    destruct (Hap eq_refl); contradiction.
Qed.

Lemma convert_potentials_TypeError_witness :
  _convert_metabolite example.A true true example.prepared
  = (Raise (TypeError "add_variable() takes 3 positional arguments but 4 were given"),
     upd_var_dict (insert (LogConcentration, "A") example.LC_A) example.prepared)
  /\ exists e m',
       convert example.num example.ext true false true example.prepared
       = (Raise e, m').
Proof.
  assert (10 ^ 6 = 1000000) as E6 by (simpl; lra).
  destruct (convert_potentials_TypeError example.num example.ext false true
              example.prepared example.A example.thermo_A) as [Hcall Hconv].
  - simpl. left.
  - reflexivity.
  - discriminate.
  - discriminate.
  - reflexivity.
  - simpl deltaGf_tr. rewrite E6. lra.
  - split; [|exact Hconv].
    apply (Hcall example.cytosol); [reflexivity | simpl; lra | simpl; lra].
Defined.

(** X10.  What a conversion that returns has found in the model: every
    metabolite has a thermo record and lives in a known compartment whose
    concentration bounds c_min and c_max are positive (the logarithms are
    taken for every metabolite, water and protons included); every reaction
    has a thermo record with the key computed, and a computed reaction that
    is not a water transport has the keys deltaGR and deltaGRerr; with
    add_displacement, RT is not zero as soon as one such reaction exists. *)
Theorem convert_requires num ext ap ad v m m' :
  convert num ext ap ad v m = (Ok tt, m') ->
  (forall met, met ∈ metabolites m ->
     exists th comp,
       met_thermo m !! Metabolite.id met = Some th
       /\ compartments m !! Metabolite.compartment met = Some comp
       /\ 0 < c_min comp /\ 0 < c_max comp)
  /\ (forall r, r ∈ reactions m ->
        exists th c,
          rxn_thermo m !! Reaction.id r = Some th /\ computed th = Some c
          /\ (c = true -> ~ water_transport r th ->
              is_Some (deltaGR th) /\ is_Some (deltaGRerr th)
              /\ (ad = true -> RT m <> 0))).
Proof.
  intros H. apply convert_Ok in H as (_ & s & Hh & Hlc & Hm & Hr). split.
  - intros met Hmet.
    destruct (convert_metabolite_turn _ _ _ _ _ _ (lc_ok_fresh m) Hmet Hm)
      as (s1 & s2 & Hh1 & _ & Hrun).
    apply _convert_metabolite_Ok in Hrun as (th & comp & Hth & Hcomp & A & B & _).
    destruct Hh1 as (E1 & _ & _ & _ & _ & _ & E2 & _). simpl in E1, E2.
    exists th, comp. rewrite <- E1, <- E2. auto.
  - intros r Hin.
    destruct (convert_reaction_turn _ _ _ _ _ _ _ _ _ Hlc Hin Hr)
      as (s1 & s2 & Hh1 & Hlc1 & Hrun).
    apply _convert_reaction_Ok in Hrun as (th & c & Hth & Hc & Hrun); [|exact Hlc1].
    pose proof (same_host_trans _ _ _ Hh Hh1) as (_ & _ & _ & ERT & _ & _ & _ & E).
    exists th, c. rewrite <- E. split; [exact Hth|]. split; [exact Hc|].
    intros Hct Hnw.
    destruct Hrun as [(_ & _ & dGR & err & LCT & LCC & A & B & _ & _ & HRT & _)
                     | [[Hf|Hw] _]].
    + rewrite A, B, <- ERT. eauto.
    + congruence.
    + contradiction.
Qed.

Lemma convert_requires_witness :
  convert example.num example.ext false true true example.prepared
  = (Ok tt, example.converted true)
  /\ (exists th comp,
        met_thermo example.prepared !! "A" = Some th
        /\ compartments example.prepared !! "c" = Some comp
        /\ 0 < c_min comp /\ 0 < c_max comp)
  /\ RT example.prepared <> 0.
Proof.
  split; [exact (example_convert_runs true)|].
  destruct (convert_requires example.num example.ext false true true
              example.prepared (example.converted true)
              (example_convert_runs true)) as [Hmets Hrxns].
  split.
  - apply (Hmets example.A). simpl. left.
  - destruct (Hrxns example.R1 example_R1) as (th & c & Hth & Hc & Hrest).
    rewrite example_thermo_R1 in Hth. injection Hth as <-.
    injection Hc as <-.
    exact (proj2 (proj2 (Hrest eq_refl example_not_water)) eq_refl).
Defined.

(* ===================================================================== *)
(* When convert returns                                                   *)
(* ===================================================================== *)

Lemma receives_LC_same_host m m' met :
  same_host m m' -> receives_LC m met <-> receives_LC m' met.
Proof.
  intros (E1 & _ & _ & _ & _ & _ & E2 & _). unfold receives_LC.
  rewrite E1, E2. reflexivity.
Qed.

(** The keys of LC_vars after the loop of convert over the metabolites:
    nothing is removed, and what is added is the id of a metabolite of the
    loop that receives a variable. *)
Lemma convert_metabolites_keys ap v l s s' :
  lc_ok s ->
  for_each l (fun met => _convert_metabolite met ap v) s = (Ok tt, s') ->
  same_host s s' /\ lc_ok s'
  /\ forall d, LC_vars s = Some d ->
       exists d', LC_vars s' = Some d'
         /\ (forall k, is_Some (d !! k) -> is_Some (d' !! k))
         /\ (forall k, is_Some (d' !! k) ->
               is_Some (d !! k)
               \/ exists met, met ∈ l /\ Metabolite.id met = k /\ receives_LC s met).
Proof.
  intros Hlc H. revert Hlc.
  apply (for_each_invariant
           (fun s s' => lc_ok s ->
              same_host s s' /\ lc_ok s'
              /\ forall d, LC_vars s = Some d ->
                   exists d', LC_vars s' = Some d'
                     /\ (forall k, is_Some (d !! k) -> is_Some (d' !! k))
                     /\ (forall k, is_Some (d' !! k) ->
                           is_Some (d !! k)
                           \/ exists met, met ∈ l /\ Metabolite.id met = k
                                          /\ receives_LC s met))
           l (fun met => _convert_metabolite met ap v))
    with (s := s) (s' := s'); [| | |exact H].
  - intros t Ht. split; [apply same_host_refl|]. split; [exact Ht|].
    intros d Hd. exists d. auto.
  - intros t1 t2 t3 H12 H23 Ht. destruct (H12 Ht) as (A & B & C).
    destruct (H23 B) as (A' & B' & C').
    split; [eapply same_host_trans; eassumption|]. split; [exact B'|].
    intros d Hd. destruct (C d Hd) as (d2 & Hd2 & M2 & T2).
    destruct (C' d2 Hd2) as (d3 & Hd3 & M3 & T3).
    exists d3. split; [exact Hd3|]. split; [auto|].
    intros k Hk. destruct (T3 k Hk) as [Hk2|(met & Hin & Hid & Hrec)].
    + apply T2, Hk2.
    + right. exists met. split; [exact Hin|]. split; [exact Hid|].
      apply (receives_LC_same_host _ _ _ A), Hrec.
  - intros x t t' Hx Hrun Ht.
    destruct (_convert_metabolite_host _ _ _ _ _ Ht Hrun) as (A & B & _).
    split; [exact A|]. split; [exact B|]. intros d Hd.
    apply _convert_metabolite_Ok in Hrun as (th & comp & Hth & Hcomp & _ & _ & Hrun).
    destruct (LC_of x th comp) as [LC|] eqn:ELC.
    + destruct Hrun as (d0 & Hd0 & _ & ->). rewrite Hd in Hd0. injection Hd0 as <-.
      eexists. split; [reflexivity|]. split.
      * intros k. apply lookup_insert_is_Some_mono.
      * intros k Hk. destruct (decide (Metabolite.id x = k)) as [<-|Hne].
        -- right. exists x. split; [exact Hx|]. split; [reflexivity|].
           exists th, comp. rewrite ELC. eauto.
        -- left. rewrite lookup_insert_ne in Hk by exact Hne. exact Hk.
    + subst t'. exists d. auto.
Qed.

(** A metabolite of the loop that receives a variable has an entry in
    LC_vars when the loop is through. *)
Lemma convert_metabolites_entry ap v l s s' met :
  lc_ok s -> is_Some (LC_vars s) -> met ∈ l -> receives_LC s met ->
  for_each l (fun met => _convert_metabolite met ap v) s = (Ok tt, s') ->
  exists d', LC_vars s' = Some d' /\ is_Some (d' !! Metabolite.id met).
Proof.
  intros Hlc [d Hd] Hmet Hrec H.
  destruct (for_each_elem _ _ _ _ _ Hmet H)
    as (l1 & l2 & s1 & s2 & -> & H1 & Hx & H2).
  destruct (convert_metabolites_keys _ _ _ _ _ Hlc H1) as (A & B & C).
  destruct (C d Hd) as (d1 & Hd1 & _).
  destruct (_convert_metabolite_host _ _ _ _ _ B Hx) as (_ & B2 & _).
  apply (receives_LC_same_host _ _ _ A) in Hrec as (th & comp & Hth & Hcomp & HLC).
  apply _convert_metabolite_Ok in Hx as (th' & comp' & Hth' & Hcomp' & _ & _ & Hx).
  rewrite Hth in Hth'. injection Hth' as <-.
  rewrite Hcomp in Hcomp'. injection Hcomp' as <-.
  destruct HLC as [LC HLC]. rewrite HLC in Hx. destruct Hx as (d0 & _ & _ & ->).
  destruct (convert_metabolites_keys _ _ _ _ _ B2 H2) as (_ & _ & C2).
  destruct (C2 _ eq_refl) as (d' & Hd' & Mono & _).
  exists d'. split; [exact Hd'|]. apply Mono. rewrite lookup_insert_eq. eauto.
Qed.

(** The loop of convert over the reactions leaves LC_vars alone. *)
Lemma convert_reactions_LC_vars num ext ap ad v l s s' :
  lc_ok s ->
  for_each l (fun rxn => _convert_reaction num ext rxn ap ad v) s = (Ok tt, s') ->
  same_host s s' /\ lc_ok s' /\ LC_vars s' = LC_vars s.
Proof.
  intros Hlc H. revert Hlc.
  apply (for_each_invariant
           (fun s s' => lc_ok s -> same_host s s' /\ lc_ok s' /\ LC_vars s' = LC_vars s)
           l (fun rxn => _convert_reaction num ext rxn ap ad v))
    with (s := s) (s' := s'); [| | |exact H].
  - intros t Ht. split; [apply same_host_refl|]. auto.
  - intros t1 t2 t3 H12 H23 Ht. destruct (H12 Ht) as (A & B & C).
    destruct (H23 B) as (A' & B' & C').
    split; [eapply same_host_trans; eassumption|]. split; [exact B' | congruence].
  - intros x t t' _ Hrun Ht.
    destruct (_convert_reaction_host _ _ _ _ _ _ _ _ Ht Hrun) as [A B].
    split; [exact A|]. split; [exact B|].
    apply _convert_reaction_Ok in Hrun as (th & c & _ & _ & Hrun); [|exact Ht].
    destruct Hrun as [(_ & _ & ? & ? & ? & ? & _ & _ & _ & _ & _ & ->) | [_ ->]];
      reflexivity.
Qed.

(** The subscripts of LC_vars that the sum over a chemical reaction takes. *)
Lemma chemical_terms_needs RT l e s e' s' mv :
  chemical_terms RT l e s = (Ok e', s') ->
  mv ∈ l -> Metabolite.formula (fst mv) ∉ ["H"; "H2O"] ->
  exists d w, LC_vars s = Some d /\ d !! Metabolite.id (fst mv) = Some w.
Proof.
  revert e. induction l as [|[met c] l IH]; intros e H Hin Hf; [inversion Hin|].
  simpl in H. apply elem_of_cons in Hin as [->|Hin].
  - simpl in Hf. rewrite bool_decide_eq_true_2 in H by exact Hf.
    apply bind_Ok in H as (w & s1 & Hw & _).
    apply LC_var_Ok in Hw as (_ & d & Hd & Hk). eauto.
  - case_bool_decide.
    + apply bind_Ok in H as (w & s1 & Hw & H).
      apply LC_var_Ok in Hw as (-> & _). exact (IH _ H Hin Hf).
    + exact (IH _ H Hin Hf).
Qed.

Lemma chemical_terms_run RT l e s d :
  LC_vars s = Some d ->
  (forall mv, mv ∈ l -> Metabolite.formula (fst mv) ∉ ["H"; "H2O"] ->
     is_Some (d !! Metabolite.id (fst mv))) ->
  exists e', chemical_terms RT l e s = (Ok e', s).
Proof.
  intros Hd. revert e. induction l as [|[met c] l IH]; intros e Hall; simpl.
  - eauto.
  - assert (forall mv, mv ∈ l -> Metabolite.formula (fst mv) ∉ ["H"; "H2O"] ->
              is_Some (d !! Metabolite.id (fst mv))) as Hl
      by (intros mv Hin; apply Hall; right; exact Hin).
    case_bool_decide as Hf; [|exact (IH _ Hl)].
    destruct (Hall (met, c)) as [w Hw]; [left | exact Hf |]. simpl in Hw.
    assert (LC_var met s = (Ok w, s)) as Hrun.
    { unfold LC_var, bind, get, attribute, subscript. rewrite Hd. simpl.
      rewrite Hw. reflexivity. }
    rewrite (bind_step _ _ _ _ _ Hrun). exact (IH _ Hl).
Qed.

(** The turn of a reaction that takes the thermodynamic branch of a chemical
    reaction reads the log-concentration variable of every participant other
    than protons and water. *)
Lemma _convert_reaction_needs num ext r ad v s s' th mv :
  _convert_reaction num ext r false ad v s = (Ok tt, s') ->
  rxn_thermo s !! Reaction.id r = Some th ->
  computed th = Some true -> ~ water_transport r th -> isTrans th = false ->
  mv ∈ Reaction.metabolites r -> Metabolite.formula (fst mv) ∉ ["H"; "H2O"] ->
  exists d w, LC_vars s = Some d /\ d !! Metabolite.id (fst mv) = Some w.
Proof.
  intros H Hth Hc Hnw Hiso Hin Hf. unfold _convert_reaction in H.
  apply bind_Ok in H as (th' & s0 & E & H). apply rxn_thermo_of_Ok in E as [-> Hth'].
  rewrite Hth in Hth'. injection Hth' as <-.
  apply bind_Ok in H as (w & s0 & E & H). apply H2OtRxns_Ok in E as [-> Hw].
  assert (w = false) as ->.
  { destruct w; [|reflexivity]. exfalso. apply Hnw, Hw. reflexivity. }
  apply bind_Ok in H as (c & s0 & E & H). apply thermo_key_Ok in E as [-> Hc'].
  rewrite Hc in Hc'. injection Hc' as <-.
  apply bind_Ok in H as ([FU BU] & s0 & E & _). simpl in E.
  unfold thermo_branch in E.
  apply bind_Ok in E as (self & s1 & E1 & E). injection E1 as <- <-.
  apply bind_Ok in E as (DGR & s1 & E1 & E). injection E1 as <- <-.
  apply bind_Ok in E as (err & s1 & E1 & E). apply thermo_key_Ok in E1 as [-> _].
  apply bind_Ok in E as (dGR & s1 & E1 & E). apply thermo_key_Ok in E1 as [-> _].
  apply bind_Ok in E as (DGoR & s1 & E1 & E). injection E1 as <- <-.
  apply bind_Ok in E as ([LCT LCC] & s1 & E1 & _).
  rewrite Hiso in E1.
  apply bind_Ok in E1 as (e' & s2 & E2 & _).
  destruct (chemical_terms_needs _ _ _ _ _ _ _ E2 Hin Hf) as (d & x & Hd & Hx).
  exists d, x. split; [exact Hd | exact Hx].
Qed.

(** X11.  Without potentials, a conversion that returns has found, for every
    computed chemical reaction (not a transport) and every participant of it
    other than protons and water, a metabolite of the model with the
    participant's id that received a log-concentration variable: it has a
    thermo record and a compartment, and it is not a biomass marker or a
    compound without Gibbs energy of formation.  Otherwise the subscript
    LC_vars[met] raises KeyError and convert does not return. *)
Theorem convert_needs_log_concentrations num ext ad v m m' r th mv :
  convert num ext false ad v m = (Ok tt, m') ->
  r ∈ reactions m -> rxn_thermo m !! Reaction.id r = Some th ->
  computed th = Some true -> ~ water_transport r th -> isTrans th = false ->
  mv ∈ Reaction.metabolites r -> Metabolite.formula (fst mv) ∉ ["H"; "H2O"] ->
  exists met,
    met ∈ metabolites m /\ Metabolite.id met = Metabolite.id (fst mv)
    /\ receives_LC m met.
Proof.
  intros H Hr Hth Hc Hnw Hiso Hin Hf.
  apply convert_Ok in H as (_ & s & Hh & Hlc & Hm & Hrun).
  destruct (convert_metabolites_keys _ _ _ _ _ (lc_ok_fresh m) Hm) as (_ & _ & C).
  destruct (C ∅ eq_refl) as (d' & Hd' & _ & Trace).
  destruct (for_each_elem _ _ _ _ _ Hr Hrun)
    as (l1 & l2 & s1 & s2 & _ & H1 & Hx & _).
  destruct (convert_reactions_LC_vars _ _ _ _ _ _ _ _ Hlc H1) as (Hh1 & _ & HLC).
  pose proof (same_host_trans _ _ _ Hh Hh1) as (_ & _ & _ & _ & _ & _ & _ & E).
  rewrite <- E in Hth.
  destruct (_convert_reaction_needs _ _ _ _ _ _ _ _ _ Hx Hth Hc Hnw Hiso Hin Hf)
    as (d & w & Hd & Hw).
  rewrite HLC, Hd' in Hd. injection Hd as <-.
  destruct (Trace (Metabolite.id (fst mv))) as [Hk|(met & Hmet & Hid & Hrec)].
  - rewrite Hw. eauto.
  - rewrite lookup_empty in Hk. destruct Hk as [? Hk]. discriminate Hk.
  - exists met. split; [exact Hmet|]. split; [exact Hid | exact Hrec].
Qed.

Lemma example_receives_A : receives_LC example.prepared example.A.
Proof.
  exists example.thermo_A, example.cytosol.
  split; [reflexivity|]. split; [reflexivity|].
  unfold LC_of. rewrite decide_False by discriminate.
  rewrite decide_False by discriminate.
  assert (seed_id_is example.A "cpd11416" = false) as -> by reflexivity.
  rewrite decide_True by (simpl; lra). eauto.
Defined.

Lemma example_receives_B : receives_LC example.prepared example.B.
Proof.
  exists example.thermo_B, example.cytosol.
  split; [reflexivity|]. split; [reflexivity|].
  unfold LC_of. rewrite decide_False by discriminate.
  rewrite decide_False by discriminate.
  assert (seed_id_is example.B "cpd11416" = false) as -> by reflexivity.
  rewrite decide_True by (simpl; lra). eauto.
Defined.

Lemma example_formula_A : Metabolite.formula example.A ∉ ["H"; "H2O"].
Proof.
  simpl. rewrite !elem_of_cons, elem_of_nil. intros [H|[H|H]];
    [discriminate H | discriminate H | exact H].
Defined.

Lemma example_formula_B : Metabolite.formula example.B ∉ ["H"; "H2O"].
Proof.
  simpl. rewrite !elem_of_cons, elem_of_nil. intros [H|[H|H]];
    [discriminate H | discriminate H | exact H].
Defined.

Lemma convert_needs_log_concentrations_witness :
  convert example.num example.ext false false true example.prepared
  = (Ok tt, example.converted false)
  /\ exists met,
       met ∈ metabolites example.prepared /\ Metabolite.id met = "A"
       /\ receives_LC example.prepared met.
Proof.
  split; [exact (example_convert_runs false)|].
  apply (convert_needs_log_concentrations example.num example.ext false true
           example.prepared (example.converted false) example.R1
           example.thermo_R1 (example.A, -1)
           (example_convert_runs false) example_R1 example_thermo_R1 eq_refl
           example_not_water eq_refl).
  - simpl. left.
  - exact example_formula_A.
Defined.

(* --------------------------------------------------------------------- *)
(* Models on which convert returns                                        *)
(* --------------------------------------------------------------------- *)

Lemma bind_returns {S A B} (c : M S A) (k : A -> M S B) s a s1 :
  c s = (Ok a, s1) ->
  (exists b s', k a s1 = (Ok b, s')) ->
  exists b s', bind c k s = (Ok b, s').
Proof. intros Hc (b & s' & Hk). exists b, s'. rewrite (bind_step _ _ _ _ _ Hc). exact Hk. Qed.

(** A loop returns as soon as each turn returns and keeps what the next
    turns rely on. *)
Lemma for_each_returns {S A} (Inv : S -> Prop) (l : list A) (body : A -> M S unit) :
  (forall x s, x ∈ l -> Inv s -> exists s', body x s = (Ok tt, s') /\ Inv s') ->
  forall s, Inv s -> exists s', for_each l body s = (Ok tt, s') /\ Inv s'.
Proof.
  induction l as [|x l IH]; intros Hb s Hs; simpl.
  - exists s. auto.
  - destruct (Hb x s) as (s1 & H1 & I1); [left | exact Hs |].
    destruct (IH (fun y t Hy => Hb y t (proj2 (elem_of_cons _ _ _) (or_intror Hy)))
                s1 I1) as (s' & H' & I').
    exists s'. split; [|exact I']. rewrite (bind_step _ _ _ _ _ H1). exact H'.
Qed.

Lemma check_thermo_loop l s :
  (forall r, r ∈ l -> is_Some (rxn_thermo s !! Reaction.id r)) ->
  for_each l check_thermo s = (Ok tt, s).
Proof.
  induction l as [|x l IH]; intros Hall; simpl; [reflexivity|].
  destruct (Hall x) as [th Hth]; [left|].
  rewrite (bind_step _ _ _ _ _ (check_thermo_run _ _ _ Hth)).
  apply IH. intros r Hr. apply Hall. right. exact Hr.
Qed.

(** The turn of a metabolite that has what the loop reads. *)
Lemma _convert_metabolite_run met v s th comp d :
  met_thermo s !! Metabolite.id met = Some th ->
  compartments s !! Metabolite.compartment met = Some comp ->
  0 < c_min comp -> 0 < c_max comp -> LC_vars s = Some d ->
  _convert_metabolite met false v s
  = (Ok tt,
     match LC_of met th comp with
     | Some LC =>
         set_LC_vars (<[Metabolite.id met := LC]> d)
           (upd_var_dict (insert (LogConcentration, Metabolite.id met) LC) s)
     | None => s
     end).
Proof.
  intros Hth Hcomp Hmin Hmax Hd.
  unfold _convert_metabolite, thermo_of, subscript, log, attribute, LC_of.
  cbv [bind get]. rewrite Hth. cbv [ret]. rewrite Hcomp.
  rewrite !decide_True by assumption.
  destruct (decide (Metabolite.formula met = "H2O"));
    [|destruct (decide (Metabolite.formula met = "H"));
      [|destruct (seed_id_is met "cpd11416");
        [|destruct (decide (deltaGf_tr th < 10 ^ 6))]]];
    cbv [add_variable bind modify ret]; simpl; rewrite ?Hd; reflexivity.
Qed.

Lemma H2OtRxns_run r th s :
  (isTrans th = true -> forall met, Reaction.reactants r = [met] ->
     is_Some (Metabolite.annotation met !! "seed_id")) ->
  exists w, H2OtRxns r th s = (Ok w, s).
Proof.
  intros Hann. unfold H2OtRxns. destruct (isTrans th); simpl; [|eauto].
  case_bool_decide as Hlen; [|eauto].
  destruct (Reaction.reactants r) as [|met [|]] eqn:E; try discriminate Hlen.
  destruct (Hann eq_refl met eq_refl) as [sid Hsid].
  unfold bind, subscript. rewrite Hsid. eauto.
Qed.

Lemma thermo_branch_run num ext r th ad s d :
  LC_vars s = Some d -> isTrans th = false ->
  is_Some (deltaGR th) -> is_Some (deltaGRerr th) -> (ad = true -> RT s <> 0) ->
  (forall mv, mv ∈ Reaction.metabolites r ->
     Metabolite.formula (fst mv) ∉ ["H"; "H2O"] ->
     is_Some (d !! Metabolite.id (fst mv))) ->
  exists p s', thermo_branch num ext r th false ad s = (Ok p, s').
Proof.
  intros Hd Hiso [dGR HdGR] [err Herr] HRT Hall.
  unfold thermo_branch. rewrite Hiso, HdGR, Herr.
  eapply bind_returns; [reflexivity|].
  eapply bind_returns; [reflexivity|].
  eapply bind_returns; [reflexivity|].
  eapply bind_returns; [reflexivity|].
  eapply bind_returns; [reflexivity|].
  match goal with
  | |- exists _ _, bind (bind (chemical_terms ?RT ?l ?e) _) _ ?t = _ =>
      destruct (chemical_terms_run RT l e t d Hd Hall) as [e' He']
  end.
  eapply bind_returns.
  { rewrite (bind_step _ _ _ _ _ He'). reflexivity. }
  destruct ad.
  - cbv [bind add_constraint add_variable modify ret raise]. simpl.
    rewrite decide_False by (apply HRT; reflexivity). eauto.
  - cbv [bind add_constraint add_variable modify ret raise]. eauto.
Qed.

Lemma _convert_reaction_run num ext r ad v s th c d :
  rxn_thermo s !! Reaction.id r = Some th -> computed th = Some c ->
  LC_vars s = Some d ->
  (isTrans th = true -> forall met, Reaction.reactants r = [met] ->
     is_Some (Metabolite.annotation met !! "seed_id")) ->
  (c = true -> ~ water_transport r th ->
   isTrans th = false /\ is_Some (deltaGR th) /\ is_Some (deltaGRerr th)
   /\ (ad = true -> RT s <> 0)
   /\ forall mv, mv ∈ Reaction.metabolites r ->
        Metabolite.formula (fst mv) ∉ ["H"; "H2O"] ->
        is_Some (d !! Metabolite.id (fst mv))) ->
  exists s', _convert_reaction num ext r false ad v s = (Ok tt, s').
Proof.
  intros Hth Hc Hd Hann Hbranch.
  destruct (H2OtRxns_run r th s Hann) as [w Hw].
  cut (exists (u : unit) s', _convert_reaction num ext r false ad v s = (Ok u, s')).
  { intros ([] & s' & H). eauto. }
  unfold _convert_reaction.
  eapply bind_returns.
  { unfold rxn_thermo_of, bind, get, attribute. rewrite Hth. reflexivity. }
  eapply bind_returns; [exact Hw|].
  rewrite Hc. eapply bind_returns; [reflexivity|].
  destruct c, w; simpl.
  2: { destruct Hbranch as (Hiso & HdGR & Herr & HRT & Hall); [reflexivity| |].
       { intros Hwt. apply H2OtRxns_Ok in Hw as [_ Hw'].
         apply Hw' in Hwt. discriminate. }
       destruct (thermo_branch_run num ext r th ad s d Hd Hiso HdGR Herr HRT Hall)
         as ([FU BU] & s1 & H1).
       rewrite (bind_step _ _ _ _ _ H1).
       cbv [bind add_constraint modify ret]. eauto. }
  all: cbv [bind add_variable add_constraint modify ret]; eauto.
Qed.

(** convert returns on a convertible model. *)
Lemma convertible_returns num ext ad v m :
  convertible num ad m ->
  exists m', convert num ext false ad v m = (Ok tt, m').
Proof.
  intros (Hbounds & Hmets & Hrxns).
  cut (exists (u : unit) m', convert num ext false ad v m = (Ok u, m')).
  { intros ([] & m' & H). eauto. }
  unfold convert.
  eapply bind_returns; [reflexivity|].
  eapply bind_returns.
  { apply check_bounds_loop. intros r Hr [Hlb|Hub];
      destruct (Hbounds r Hr); lra. }
  eapply bind_returns.
  { apply check_thermo_loop. intros r Hr.
    destruct (Hrxns r Hr) as (th & c & Hth & _). eauto. }
  eapply bind_returns; [reflexivity|].
  eapply bind_returns; [reflexivity|].
  set (s0 := set_P_vars ∅ (set_LC_vars ∅ m)).
  destruct (for_each_returns
              (fun s => same_host s0 s /\ lc_ok s /\ is_Some (LC_vars s))
              (metabolites m) (fun met => _convert_metabolite met false v))
    with (s := s0) as (s & Hm & Hhs & Hlcs & [d Hd]).
  { intros met t Hmet (Ht & Hlct & [dt Hdt]).
    destruct (Hmets met Hmet) as (th & comp & Hth & Hcomp & Hmin & Hmax).
    pose proof Ht as (E1 & _ & _ & _ & _ & _ & E2 & _). simpl in E1, E2.
    rewrite <- E2 in Hth. rewrite <- E1 in Hcomp.
    pose proof (_convert_metabolite_run met v t th comp dt Hth Hcomp Hmin Hmax Hdt)
      as Hrun.
    eexists. split; [exact Hrun|].
    destruct (_convert_metabolite_host _ _ _ _ _ Hlct Hrun) as (A & B & _).
    split; [eapply same_host_trans; eassumption|]. split; [exact B|].
    destruct (LC_of met th comp); simpl; eauto. }
  { split; [apply same_host_refl|]. split; [apply lc_ok_fresh|]. simpl. eauto. }
  eapply bind_returns; [exact Hm|].
  destruct (for_each_returns
              (fun t => same_host s t /\ lc_ok t /\ LC_vars t = Some d)
              (reactions m)
              (fun rxn => _convert_reaction num ext rxn false ad v))
    with (s := s) as (m' & Hr & _).
  { intros r t Hr (Ht & Hlct & Hdt).
    destruct (Hrxns r Hr) as (th & c & Hth & Hc & Hann & Hbranch).
    pose proof (same_host_trans _ _ _ Hhs Ht) as (_ & _ & _ & ERT & _ & _ & _ & E).
    simpl in ERT, E.
    destruct (_convert_reaction_run num ext r ad v t th c d) as [t' Hrun];
      [rewrite E; exact Hth | exact Hc | exact Hdt | exact Hann | |].
    { intros Hct Hnw.
      destruct (Hbranch Hct Hnw) as (Hiso & HdGR & Herr & HRT & Hall).
      split; [exact Hiso|]. split; [exact HdGR|]. split; [exact Herr|].
      split; [rewrite ERT; exact HRT|].
      intros mv Hin Hf. destruct (Hall mv Hin Hf) as (met & Hmet & Hid & Hrec).
      destruct (convert_metabolites_entry false v (metabolites m) s0 s met)
        as (d' & Hd' & Hk);
        [apply lc_ok_fresh | simpl; eauto | exact Hmet | exact Hrec | exact Hm |].
      rewrite Hd in Hd'. injection Hd' as <-. rewrite <- Hid. exact Hk. }
    exists t'. split; [exact Hrun|].
    destruct (convert_reactions_LC_vars num ext false ad v [r] t t')
      as (A & B & C); [exact Hlct | simpl; rewrite (bind_step _ _ _ _ _ Hrun); reflexivity |].
    split; [eapply same_host_trans; eassumption|]. split; [exact B | congruence]. }
  { split; [apply same_host_refl|]. auto. }
  exists tt, m'. exact Hr.
Qed.

(** X12.  The conversion proper (convert up to the repair that ends it),
    without potentials, returns on every model of which the
    reactions have their bounds within the big M and a thermo record with
    the key computed, the metabolites a thermo record and a compartment with
    positive concentration bounds, and each computed reaction that is not a
    water transport is a chemical reaction with its two energies whose
    participants other than protons and water received a log-concentration
    variable (with add_displacement, RT must not be zero). *)
Theorem convert_returns num ext ad v m :
  convertible num ad m ->
  exists m', convert num ext false ad v m = (Ok tt, m').
Proof. exact (convertible_returns num ext ad v m). Qed.

Lemma example_convertible ad : convertible example.num ad example.prepared.
Proof.
  split; [|split].
  - intros r Hr. apply list_elem_of_singleton in Hr as ->. simpl. lra.
  - intros met Hmet. simpl in Hmet. rewrite !elem_of_cons, elem_of_nil in Hmet.
    destruct Hmet as [->|[->|[->|[]]]];
      eexists _, example.cytosol;
      (split; [reflexivity|]); (split; [reflexivity|]); simpl; lra.
  - intros r Hr. apply list_elem_of_singleton in Hr as ->.
    exists example.thermo_R1, true.
    split; [reflexivity|]. split; [reflexivity|].
    split; [intros Hiso; discriminate Hiso|].
    intros _ _. split; [reflexivity|]. split; [simpl; eauto|].
    split; [simpl; eauto|]. split; [intros _; simpl; lra|].
    intros mv Hin _. simpl in Hin. rewrite !elem_of_cons, elem_of_nil in Hin.
    destruct Hin as [->|[->|[]]].
    + exists example.A. split; [simpl; left|]. split; [reflexivity|].
      exact example_receives_A.
    + exists example.B. split; [simpl; right; left|]. split; [reflexivity|].
      exact example_receives_B.
Defined.

Lemma convert_returns_witness :
  convertible example.num true example.prepared
  /\ exists m', convert example.num example.ext false true true example.prepared
                = (Ok tt, m').
Proof.
  split; [exact (example_convertible true)|].
  exact (convert_returns example.num example.ext true true example.prepared
           (example_convertible true)).
Defined.

(* ===================================================================== *)
(* Further properties of chebyshev_center and copy                        *)
(* ===================================================================== *)

(* --------------------------------------------------------------------- *)
(* Linear expressions                                                     *)
(* --------------------------------------------------------------------- *)

Lemma sum_list_zero {A} (l : list A) (f : A -> R) :
  (forall x, x ∈ l -> f x = 0) -> sum_list (map f l) = 0.
Proof.
  induction l as [|x l IH]; intros Hf; simpl; [reflexivity|].
  rewrite (Hf x) by left. fold (sum_list (map f l)).
  rewrite IH; [lra|]. intros y Hy. apply Hf. right. exact Hy.
Qed.

Lemma sum_list_plus {A} (l : list A) (f g : A -> R) :
  sum_list (map (fun x => f x + g x) l) = sum_list (map f l) + sum_list (map g l).
Proof.
  induction l as [|x l IH]; simpl; [lra|].
  fold (sum_list (map (fun x => f x + g x) l)) (sum_list (map f l))
    (sum_list (map g l)).
  rewrite IH. lra.
Qed.

Lemma sum_list_scale {A} (l : list A) (c : R) (f : A -> R) :
  sum_list (map (fun x => c * f x) l) = c * sum_list (map f l).
Proof.
  induction l as [|x l IH]; simpl; [lra|].
  fold (sum_list (map (fun x => c * f x) l)) (sum_list (map f l)).
  rewrite IH. lra.
Qed.

Lemma sum_list_ext {A} (l : list A) (f g : A -> R) :
  (forall x, x ∈ l -> f x = g x) -> sum_list (map f l) = sum_list (map g l).
Proof.
  induction l as [|x l IH]; intros Hfg; simpl; [reflexivity|].
  fold (sum_list (map f l)) (sum_list (map g l)).
  rewrite (Hfg x) by left. rewrite IH; [reflexivity|].
  intros y Hy. apply Hfg. right. exact Hy.
Qed.

(** Terms that vanish outside of [P] can be left out of a sum. *)
Lemma sum_list_filter {A} (P : A -> Prop) `{forall x, Decision (P x)}
  (l : list A) (f : A -> R) :
  (forall x, x ∈ l -> ~ P x -> f x = 0) ->
  sum_list (map f (filter P l)) = sum_list (map f l).
Proof.
  induction l as [|x l IH]; intros Hf; [reflexivity|].
  assert (sum_list (map f (filter P l)) = sum_list (map f l)) as IH'.
  { apply IH. intros y Hy. apply Hf. right. exact Hy. }
  destruct (decide (P x)) as [Hx|Hx].
  - rewrite filter_cons_True by exact Hx. simpl.
    fold (sum_list (map f (filter P l))) (sum_list (map f l)). rewrite IH'.
    reflexivity.
  - rewrite filter_cons_False by exact Hx. simpl.
    fold (sum_list (map f l)). rewrite IH', (Hf x) by (left || exact Hx). lra.
Qed.

Lemma sum_list_indicator (l : list Symbol) (y : Symbol) (d : Symbol -> R) :
  NoDup l -> y ∈ l ->
  sum_list (map (fun x => (if decide (y = x) then 1 else 0) * d x) l) = d y.
Proof.
  induction l as [|x l IH]; intros Hnd Hy; [inversion Hy|].
  apply NoDup_cons in Hnd as [Hx Hnd]. simpl.
  fold (sum_list (map (fun x => (if decide (y = x) then 1 else 0) * d x) l)).
  destruct (decide (y = x)) as [->|Hne].
  - rewrite sum_list_zero; [lra|].
    intros z Hz. destruct (decide (x = z)) as [->|_]; [contradiction | lra].
  - apply elem_of_cons in Hy as [->|Hy]; [contradiction|].
    rewrite (IH Hnd Hy). lra.
Qed.

(** An expression is affine: moving the point by [d] moves its value by the
    sum of coefficient times displacement over its symbols. *)
Lemma eval_moved_on rho d e (l : list Symbol) :
  NoDup l -> (forall x, x ∈ symbols e -> x ∈ l) ->
  eval (moved rho d) e
  = eval rho e + sum_list (map (fun x => coeff e x * d x) l).
Proof.
  intros Hnd. induction e as [c|y|a IHa b IHb|a IHa b IHb|c a IHa];
    intros Hsub; simpl.
  - rewrite sum_list_zero; [lra|]. intros; lra.
  - rewrite sum_list_indicator; [reflexivity | exact Hnd |].
    apply Hsub. simpl. left.
  - rewrite IHa, IHb by (intros x Hx; apply Hsub; simpl; apply elem_of_app; auto).
    rewrite (sum_list_ext l (fun x => (coeff a x + coeff b x) * d x)
               (fun x => coeff a x * d x + coeff b x * d x)) by (intros; lra).
    rewrite sum_list_plus. lra.
  - rewrite IHa, IHb by (intros x Hx; apply Hsub; simpl; apply elem_of_app; auto).
    rewrite (sum_list_ext l (fun x => (coeff a x - coeff b x) * d x)
               (fun x => coeff a x * d x + (-1) * (coeff b x * d x)))
      by (intros; lra).
    rewrite sum_list_plus, sum_list_scale. lra.
  - rewrite IHa by exact Hsub.
    rewrite (sum_list_ext l (fun x => c * coeff a x * d x)
               (fun x => c * (coeff a x * d x))) by (intros; lra).
    rewrite sum_list_scale. lra.
Qed.

(** When only the targets move, only the targets that the constraint holds
    count. *)
Lemma eval_moved_targets rho d vars cons :
  (forall x, x ∉ vars -> d x = 0) ->
  eval (moved rho d) (c_expr cons)
  = eval rho (c_expr cons)
    + sum_list (map (fun x => coeff (c_expr cons) x * d x)
                  (chebyshev.targets_in vars cons)).
Proof.
  intros Hd.
  rewrite (eval_moved_on rho d (c_expr cons) (remove_dups (symbols (c_expr cons))))
    by (apply NoDup_remove_dups || (intros x Hx; apply elem_of_remove_dups, Hx)).
  f_equal. unfold chebyshev.targets_in, free_symbols.
  rewrite sum_list_filter.
  - rewrite sum_list_filter; [reflexivity|].
    intros x _ Hx. apply dec_stable in Hx. rewrite Hx. lra.
  - intros x _ Hx. rewrite (Hd x Hx). lra.
Qed.

(* --------------------------------------------------------------------- *)
(* The inequality of Cauchy and Schwarz                                   *)
(* --------------------------------------------------------------------- *)

Lemma sum_squares_nonneg (l : list R) : 0 <= sum_list (map (fun x => x * x) l).
Proof.
  induction l as [|x l IH]; simpl; [lra|].
  fold (sum_list (map (fun x => x * x) l)). nra.
Qed.

Lemma norm_nonneg l : 0 <= chebyshev.norm l.
Proof. apply sqrt_pos. Qed.

Lemma cauchy_schwarz {A} (l : list A) (a b : A -> R) :
  sum_list (map (fun x => a x * b x) l)
  <= chebyshev.norm (map a l) * chebyshev.norm (map b l).
Proof.
  unfold chebyshev.norm. induction l as [|x l IH]; simpl.
  - rewrite sqrt_0. lra.
  - fold (sum_list (map (fun x => a x * b x) l)) in *.
    fold (sum_list (map (fun x => x * x) (map a l))) in *.
    fold (sum_list (map (fun x => x * x) (map b l))) in *.
    pose proof (sum_squares_nonneg (map a l)) as HA.
    pose proof (sum_squares_nonneg (map b l)) as HB.
    set (SA := sum_list (map (fun x => x * x) (map a l))) in *.
    set (SB := sum_list (map (fun x => x * x) (map b l))) in *.
    set (S := sum_list (map (fun x => a x * b x) l)) in *.
    pose proof (sqrt_pos SA) as Hp. pose proof (sqrt_pos SB) as Hq.
    pose proof (sqrt_sqrt SA HA) as Hpp. pose proof (sqrt_sqrt SB HB) as Hqq.
    set (p := sqrt SA) in *. set (q := sqrt SB) in *.
    rewrite <- sqrt_mult by nra.
    destruct (Rle_dec (a x * b x + p * q) 0) as [Hneg|Hpos].
    + pose proof (sqrt_pos ((a x * a x + SA) * (b x * b x + SB))). lra.
    + apply Rle_trans with (a x * b x + p * q); [lra|].
      rewrite <- (sqrt_Rsqr (a x * b x + p * q)) by lra.
      apply sqrt_le_1_alt. unfold Rsqr.
      pose proof (Rle_0_sqr (a x * q - p * b x)) as Hsq. unfold Rsqr in Hsq.
      assert ((a x * a x + SA) * (b x * b x + SB)
              - (a x * b x + p * q) * (a x * b x + p * q)
              = (a x * q - p * b x) * (a x * q - p * b x)) as Hdiff.
      { rewrite <- Hpp, <- Hqq. ring. }
      lra.
Qed.

Lemma norm_opp {A} (l : list A) (b : A -> R) :
  chebyshev.norm (map (fun x => - b x) l) = chebyshev.norm (map b l).
Proof.
  unfold chebyshev.norm. f_equal. induction l as [|x l IH]; simpl; [reflexivity|].
  rewrite IH. lra.
Qed.

(** If a point satisfies an inequality rewritten with the norm of the
    coefficients of its targets, the points within the radius of it satisfy
    the inequality itself. *)
Lemma edit_ball vars big_m cons rho d :
  c_lb cons = None \/ c_ub cons = None ->
  satisfies rho
    (chebyshev.edit (chebyshev.radius big_m) cons (chebyshev.norm_a vars cons)) ->
  (forall x, x ∉ vars -> d x = 0) ->
  chebyshev.norm (map d (chebyshev.targets_in vars cons)) <= rho chebyshev.r ->
  satisfies (moved rho d) cons.
Proof.
  intros Hineq [Hlb Hub] Hd Hdist.
  pose proof (cauchy_schwarz (chebyshev.targets_in vars cons)
                (fun x => coeff (c_expr cons) x) d) as Hcs.
  pose proof (cauchy_schwarz (chebyshev.targets_in vars cons)
                (fun x => coeff (c_expr cons) x) (fun x => - d x)) as Hcs'.
  rewrite norm_opp in Hcs'.
  rewrite (sum_list_ext _ (fun x => coeff (c_expr cons) x * - d x)
             (fun x => -1 * (coeff (c_expr cons) x * d x))) in Hcs'
    by (intros; lra).
  rewrite sum_list_scale in Hcs'.
  pose proof (norm_nonneg (map (fun x => coeff (c_expr cons) x)
                             (chebyshev.targets_in vars cons))) as Ha.
  pose proof (norm_nonneg (map d (chebyshev.targets_in vars cons))) as Hn.
  fold (chebyshev.norm_a vars cons) in Hcs, Hcs', Ha.
  unfold satisfies. rewrite (eval_moved_targets rho d vars cons Hd).
  unfold chebyshev.edit in Hlb, Hub. simpl in Hlb, Hub.
  change (variable (chebyshev.radius big_m)) with chebyshev.r in Hlb, Hub.
  set (a := chebyshev.norm_a vars cons) in *.
  set (n := chebyshev.norm (map d (chebyshev.targets_in vars cons))) in *.
  set (S := sum_list _) in *.
  assert (a * n <= a * rho chebyshev.r) as Har by nra.
  destruct (c_lb cons) as [lb|] eqn:Elb, (c_ub cons) as [ub|] eqn:Eub;
    simpl in Hlb, Hub.
  - destruct Hineq; discriminate.
  - split; [lra | exact I].
  - split; [exact I | lra].
  - split; exact I.
Qed.

(** The constraint that [center] leaves in the place of one that takes
    part. *)
Lemma center_edits
  (solver : option Symbol -> ThermoModel -> option (Symbol -> R))
  variables big_m include exclude new key cons :
  let vars := chebyshev.target_symbols variables in
  _cons_dict new !! key = Some cons ->
  chebyshev.takes_part vars include exclude cons ->
  _cons_dict (snd (chebyshev.center solver variables big_m include exclude new))
  !! key
  = Some (chebyshev.edit (chebyshev.radius big_m) cons (chebyshev.norm_a vars cons)).
Proof.
  intros vars Hkey Ht. rewrite center_state. fold vars.
  rewrite decide_False.
  - unfold chebyshev.reformulated. simpl.
    rewrite map_lookup_imap, Hkey. simpl. rewrite lookup_omap, Hkey. simpl.
    rewrite (to_edit_Some _ _ _ _ Ht). reflexivity.
  - intros Hnil. destruct Ht as (_ & _ & _ & Ht). apply Ht.
    rewrite Hnil. apply targets_in_nil.
Qed.

(** X13.  What chebyshev_center achieves.  Take a feasible point of the
    model that the routine leaves, and a constraint of the model it worked
    on that took part in the rewriting.  Every point reached from the
    feasible one by moving target variables only, over a Euclidean distance
    of at most the value of the radius, satisfies the constraint as it was
    before the rewriting: the ball of that radius lies inside the half-space
    of each rewritten inequality. *)
Theorem chebyshev_ball
  (solver : option Symbol -> ThermoModel -> option (Symbol -> R))
  model new variables inplace big_m include exclude key cons rho d :
  chebyshev.working_model solver model inplace = Ok new ->
  _cons_dict new !! key = Some cons ->
  let vars := chebyshev.target_symbols variables in
  let final := snd (chebyshev.chebyshev_center solver model variables inplace
                      big_m include exclude) in
  chebyshev.takes_part vars include exclude cons ->
  feasible rho final ->
  (forall x, x ∉ vars -> d x = 0) ->
  chebyshev.norm (map d (chebyshev.targets_in vars cons)) <= rho chebyshev.r ->
  satisfies (moved rho d) cons.
Proof.
  intros Hwm Hkey vars final Ht Hrho Hd Hdist.
  assert (final = snd (chebyshev.center solver variables big_m include exclude new))
    as Hfinal.
  { unfold final, chebyshev.chebyshev_center. rewrite Hwm. reflexivity. }
  apply (edit_ball vars big_m cons rho d); [| |exact Hd|exact Hdist].
  - destruct Ht as (_ & _ & Hineq & _). exact Hineq.
  - apply (Hrho key). rewrite Hfinal.
    apply (center_edits solver variables big_m include exclude new key cons Hkey Ht).
Qed.

Lemma chebyshev_ball_witness :
  let rho := fun x => if decide (x = chebyshev.r) then 1
                      else if decide (x = TVar ForwardUseVariable "R1") then 1
                      else 0 in
  let d := fun x => if decide (x = forward_variable "R1") then 1 else 0 in
  feasible rho
    (snd (chebyshev.chebyshev_center example.solver example.coupled
            (chebyshev.names [forward_variable "R1"]) true chebyshev.BIGM
            [ForwardDirectionCoupling] []))
  /\ satisfies (moved rho d) (ForwardDirectionCoupling_of example.num "R1").
Proof.
  intros rho d.
  assert (feasible rho
            (snd (chebyshev.chebyshev_center example.solver example.coupled
                    (chebyshev.names [forward_variable "R1"]) true chebyshev.BIGM
                    [ForwardDirectionCoupling] []))) as Hfeas.
  { intros k c Hk.
    change (chebyshev.chebyshev_center example.solver example.coupled
              (chebyshev.names [forward_variable "R1"]) true chebyshev.BIGM
              [ForwardDirectionCoupling] [])
      with (chebyshev.center example.solver
              (chebyshev.names [forward_variable "R1"]) chebyshev.BIGM
              [ForwardDirectionCoupling] [] example.coupled) in Hk.
    destruct (decide (k = (ForwardDirectionCoupling, "R1"))) as [->|Hne].
    - rewrite (center_edits example.solver
                 (chebyshev.names [forward_variable "R1"]) chebyshev.BIGM
                 [ForwardDirectionCoupling] [] example.coupled _ _
                 example_coupling_lookup example_takes_part) in Hk.
      injection Hk as <-. simpl chebyshev.target_symbols. rewrite example_norm.
      split; [exact I|]. unfold rho. simpl. lra.
    - rewrite center_state in Hk. simpl in Hk.
      unfold chebyshev.reformulated in Hk. simpl in Hk.
      rewrite map_lookup_imap in Hk.
      rewrite lookup_singleton_ne in Hk by congruence. discriminate Hk. }
  split; [exact Hfeas|].
  apply (chebyshev_ball example.solver example.coupled example.coupled
           (chebyshev.names [forward_variable "R1"]) true chebyshev.BIGM
           [ForwardDirectionCoupling] [] (ForwardDirectionCoupling, "R1")
           (ForwardDirectionCoupling_of example.num "R1") rho d
           eq_refl example_coupling_lookup example_takes_part Hfeas).
  - intros x Hx. unfold d. rewrite decide_False; [reflexivity|].
    intros ->. apply Hx. left.
  - simpl chebyshev.target_symbols. rewrite example_targets.
    unfold chebyshev.norm, d, rho. simpl.
    replace (1 * 1 + 0) with 1 by ring. rewrite sqrt_1. lra.
Defined.



(* --------------------------------------------------------------------- *)
(* copy                                                                   *)
(* --------------------------------------------------------------------- *)

(** A loop with a turn that raises whatever the state does not return. *)
Lemma for_each_raises {S A} (l : list A) (body : A -> M S unit) (Q : exn -> Prop) x :
  x ∈ l ->
  (forall s, exists e s', body x s = (Raise e, s')) ->
  (forall y s e s', body y s = (Raise e, s') -> Q e) ->
  forall s, exists e s', for_each l body s = (Raise e, s') /\ Q e.
Proof.
  intros Hx Hraise HQ. induction l as [|y l IH]; intros s; [inversion Hx|].
  simpl. unfold bind. destruct (body y s) as [[[]|e] s1] eqn:E.
  - apply elem_of_cons in Hx as [->|Hx].
    + destruct (Hraise s) as (e & s' & E'). congruence.
    + apply (IH Hx).
  - exists e, s1. split; [reflexivity|]. exact (HQ _ _ _ _ E).
Qed.

Lemma copy_variable_raises v s e s' :
  copy_variable v s = (Raise e, s') ->
  e = TypeError "Class copy not handled yet" \/ exists id, e = KeyError id.
Proof.
  unfold copy_variable, get_reaction_by_id, get_metabolite_by_id.
  destruct (var_class (v_kind v)); cbv [bind get].
  - destruct (list_find _ (reactions s)) as [[i r]|]; simpl.
    + discriminate.
    + intros H. injection H as <- _. eauto.
  - destruct (list_find _ (metabolites s)) as [[i r]|]; simpl.
    + discriminate.
    + intros H. injection H as <- _. eauto.
  - intros H. injection H as <- _. auto.
Qed.

(** A registry that holds a variable hooked to the model itself cannot be
    copied. *)
Lemma copy_raises_on_model_hook self key v :
  _var_dict self !! key = Some v -> var_class (v_kind v) = ModelHook ->
  exists e, copy self = Raise e
    /\ (e = TypeError "Class copy not handled yet" \/ exists id, e = KeyError id).
Proof.
  intros Hkey Hclass. unfold copy.
  destruct (for_each_raises (map_to_list (_var_dict self)).*2 copy_variable
              (fun e => e = TypeError "Class copy not handled yet"
                        \/ exists id, e = KeyError id) v)
    with (s := fresh_model self) as (e & s' & Hrun & He).
  - apply elem_of_map_to_list in Hkey.
    apply (list_elem_of_fmap_2 snd) in Hkey. exact Hkey.
  - intros s. unfold copy_variable. rewrite Hclass. eauto.
  - apply copy_variable_raises.
  - exists e. split; [|exact He]. unfold bind. rewrite Hrun. reflexivity.
Qed.

(** X15.  copy handles the variables hooked to a reaction or to a metabolite
    only: a model whose registry holds a variable of another class (the
    Chebyshev radius is hooked to the model) cannot be copied.  The call
    raises, TypeError at that variable unless the hook of a variable met
    before it is unknown to the model, which is a KeyError. *)
Theorem copy_rejects_model_variables self key v :
  _var_dict self !! key = Some v -> var_class (v_kind v) = ModelHook ->
  exists e, copy self = Raise e
    /\ (e = TypeError "Class copy not handled yet" \/ exists id, e = KeyError id).
Proof. exact (copy_raises_on_model_hook self key v). Qed.

Lemma copy_rejects_model_variables_witness :
  exists e,
    copy (upd_var_dict (insert (ChebyshevRadius, "radius") (chebyshev.radius 1000))
            example.coupled) = Raise e
    /\ (e = TypeError "Class copy not handled yet" \/ exists id, e = KeyError id).
Proof.
  apply (copy_rejects_model_variables
           (upd_var_dict (insert (ChebyshevRadius, "radius") (chebyshev.radius 1000))
              example.coupled)
           (ChebyshevRadius, "radius") (chebyshev.radius 1000)).
  - apply lookup_insert_eq.
  - reflexivity.
Defined.

(** X16.  chebyshev_center cannot be repeated out of place.  Once a call
    with inplace=True and at least one target has run, whatever its outcome,
    the model holds the radius: it can no longer be copied, and every later
    call with inplace=False raises before it reads its other arguments,
    leaving the model as it is. *)
Theorem chebyshev_center_blocks_copy
  (solver : option Symbol -> ThermoModel -> option (Symbol -> R))
  model variables big_m include exclude :
  chebyshev.target_symbols variables <> [] ->
  let centred := snd (chebyshev.chebyshev_center solver model variables true
                        big_m include exclude) in
  (exists e, copy centred = Raise e)
  /\ forall variables' big_m' include' exclude',
       exists e, chebyshev.chebyshev_center solver centred variables' false
                   big_m' include' exclude' = (Raise e, centred).
Proof.
  intros Hne centred.
  assert (exists e, copy centred = Raise e) as [e He].
  { destruct (copy_raises_on_model_hook centred (ChebyshevRadius, "radius")
                (chebyshev.radius big_m)) as (e & He & _); [|reflexivity|eauto].
    unfold centred.
    change (chebyshev.chebyshev_center solver model variables true big_m
              include exclude)
      with (chebyshev.center solver variables big_m include exclude model).
    rewrite center_state, decide_False by exact Hne.
    unfold chebyshev.reformulated. simpl. apply lookup_insert_eq. }
  split; [eauto|].
  intros variables' big_m' include' exclude'. exists e.
  unfold chebyshev.chebyshev_center, chebyshev.working_model. simpl.
  rewrite He. reflexivity.
Qed.

Lemma chebyshev_center_blocks_copy_witness :
  let centred :=
    snd (chebyshev.chebyshev_center example.solver example.coupled
           (chebyshev.names [forward_variable "R1"]) true chebyshev.BIGM
           [ForwardDirectionCoupling] []) in
  exists e,
    chebyshev.chebyshev_center example.solver centred
      (chebyshev.names [forward_variable "R1"]) false chebyshev.BIGM
      [ForwardDirectionCoupling] []
    = (Raise e, centred).
Proof.
  intros centred.
  apply (proj2 (chebyshev_center_blocks_copy example.solver example.coupled
                  (chebyshev.names [forward_variable "R1"]) chebyshev.BIGM
                  [ForwardDirectionCoupling] []
                  ltac:(discriminate))).
Defined.







Lemma example_coupled_ok : registry_ok example.coupled.
Proof.
  split; intros k w H; simpl in H.
  - rewrite lookup_empty in H. discriminate.
  - apply lookup_singleton_Some in H as [<- <-]. reflexivity.
Defined.



(* ===================================================================== *)
(* The registry: adding and removing                                      *)
(* ===================================================================== *)


Lemma upd_cons_dict_id m : upd_cons_dict (fun _ => _cons_dict m) m = m.
Proof. destruct m. reflexivity. Qed.



(** X19.  Removing a constraint can only enlarge the feasible set: after a
    removal that returns, every point that was feasible still is, the
    constraint is no longer registered, the other constraints and the
    variables are as they were; and a constraint added under a free name and
    then removed leaves the model exactly as it was. *)
Theorem remove_constraint_relaxes m cons m' :
  remove_constraint cons m = (Ok tt, m') ->
  (forall rho, feasible rho m -> feasible rho m')
  /\ _cons_dict m' !! c_name cons = None
  /\ (forall k, k <> c_name cons -> _cons_dict m' !! k = _cons_dict m !! k)
  /\ _var_dict m' = _var_dict m
  /\ (forall kind hook expr lb ub,
        _cons_dict m !! (kind, hook) = None ->
        (let* c := add_constraint kind hook expr lb ub in remove_constraint c) m
        = (Ok tt, m)).
Proof.
  intros H. unfold remove_constraint, bind, get, subscript in H.
  destruct (_cons_dict m !! c_name cons) as [w|] eqn:E; simpl in H; [|discriminate].
  injection H as <-. split; [|split; [|split; [|split]]]; simpl.
  - intros rho Hrho k c Hk. simpl in Hk.
    apply lookup_delete_Some in Hk as [_ Hk]. exact (Hrho k c Hk).
  - apply lookup_delete_eq.
  - intros k Hk. apply lookup_delete_ne. congruence.
  - reflexivity.
  - intros kind hook expr lb ub Hfree.
    cbv [bind add_constraint modify ret remove_constraint get subscript].
    simpl. rewrite lookup_insert_eq. f_equal.
    unfold upd_cons_dict. simpl. rewrite delete_insert_id by exact Hfree.
    apply (upd_cons_dict_id m).
Qed.

Lemma remove_constraint_relaxes_witness :
  exists m',
    remove_constraint (ForwardDirectionCoupling_of example.num "R1") example.coupled
    = (Ok tt, m')
    /\ _cons_dict m' !! (ForwardDirectionCoupling, "R1") = None
    /\ forall rho, feasible rho example.coupled -> feasible rho m'.
Proof.
  eexists. split; [reflexivity|].
  destruct (remove_constraint_relaxes example.coupled
              (ForwardDirectionCoupling_of example.num "R1") _ eq_refl)
    as (Hfeas & Hgone & _).
  split; [exact Hgone | exact Hfeas].
Defined.

(* ===================================================================== *)
(* normalize_reactions                                                    *)
(* ===================================================================== *)

Lemma foldl_Rmax_spec (l : list R) (x : R) :
  (foldl Rmax x l = x \/ foldl Rmax x l ∈ l)
  /\ x <= foldl Rmax x l /\ forall y, y ∈ l -> y <= foldl Rmax x l.
Proof.
  revert x. induction l as [|a l IH]; intros x; simpl.
  - split; [left; reflexivity|]. split; [lra|]. intros y Hy. inversion Hy.
  - destruct (IH (Rmax x a)) as (Hin & Hle & Hall).
    pose proof (Rmax_l x a). pose proof (Rmax_r x a).
    split; [|split].
    + destruct Hin as [->|Hin]; [|right; right; exact Hin].
      unfold Rmax. destruct (Rle_dec x a); [right; left | left; reflexivity].
    + lra.
    + intros y Hy. apply elem_of_cons in Hy as [->|Hy]; [lra | auto].
Qed.

(** [max] returns an element that none exceeds. *)
Lemma max_of_spec (l : list R) (m : R) :
  max_of l = Some m <-> m ∈ l /\ forall x, x ∈ l -> x <= m.
Proof.
  destruct l as [|a l]; simpl.
  - split; [discriminate|]. intros [H _]. inversion H.
  - destruct (foldl_Rmax_spec l a) as (Hin & Hle & Hall). split.
    + intros E. injection E as <-. split.
      * destruct Hin as [->|Hin]; [left | right; exact Hin].
      * intros x Hx. apply elem_of_cons in Hx as [->|Hx]; [exact Hle | auto].
    + intros [Hm Hmax]. f_equal. apply Rle_antisym.
      * apply Hmax. destruct Hin as [->|Hin]; [left | right; exact Hin].
      * apply elem_of_cons in Hm as [->|Hm]; [exact Hle | auto].
Qed.

Lemma stoich_add_own (pre rest : list (Metabolite.t * R)) k v k' x :
  (forall p, p ∈ pre -> Metabolite.id (fst p) <> Metabolite.id k') ->
  Metabolite.id k = Metabolite.id k' ->
  stoich_add (pre ++ (k, v) :: rest)%list k' x
  = Some (pre ++ (k, v + x) :: rest)%list.
Proof.
  intros Hpre Hid. induction pre as [|[a b] pre IH]; simpl.
  - rewrite decide_True by exact Hid. reflexivity.
  - rewrite decide_False by (apply (Hpre (a, b)); left).
    rewrite IH; [reflexivity|]. intros p Hp. apply Hpre. right. exact Hp.
Qed.

(** Adding to each metabolite of a reaction a number computed from its own
    entry changes the coefficients in place. *)
Lemma add_each (g : Metabolite.t * R -> R) (pre l : list (Metabolite.t * R)) :
  NoDup (map (fun mv => Metabolite.id (fst mv)) (pre ++ l)%list) ->
  foldl (fun acc kx =>
           match stoich_add acc (fst kx) (snd kx) with
           | Some acc' => acc'
           | None => (acc ++ [kx])%list
           end)
    (pre ++ l)%list (map (fun kv => (fst kv, g kv)) l)
  = (pre ++ map (fun kv => (fst kv, snd kv + g kv)) l)%list.
Proof.
  revert pre. induction l as [|[k v] l IH]; intros pre Hnd; simpl.
  - reflexivity.
  - rewrite stoich_add_own; [| |reflexivity].
    + rewrite (cons_middle _ pre l), (cons_middle _ pre (map _ l)), !app_assoc.
      apply IH. rewrite <- app_assoc. simpl.
      rewrite map_app in Hnd |- *. simpl in Hnd |- *. exact Hnd.
    + intros p Hp Heq. rewrite map_app in Hnd. simpl in Hnd.
      apply NoDup_app in Hnd as (_ & Hdis & _).
      apply (Hdis (Metabolite.id (fst p))).
      * apply (list_elem_of_fmap_2 (fun mv => Metabolite.id (fst mv))) in Hp.
        exact Hp.
      * rewrite Heq. left.
Qed.

(** The metabolites of a reaction that the loop rescales. *)
Lemma add_metabolites_scales (mets : list (Metabolite.t * R)) (mx : R) :
  NoDup (map (fun mv => Metabolite.id (fst mv)) mets) -> mx <> 0 ->
  add_metabolites (map (fun kv => (fst kv, - snd kv + snd kv / mx)) mets) mets
  = map (fun kv => (fst kv, snd kv / mx)) (filter (fun kv => snd kv <> 0) mets).
Proof.
  intros Hnd Hmx. unfold add_metabolites.
  pose proof (add_each (fun kv => - snd kv + snd kv / mx) [] mets Hnd) as E.
  simpl in E. rewrite E. clear E.
  induction mets as [|[k v] mets IH]; [reflexivity|].
  simpl in Hnd. apply NoDup_cons in Hnd as [_ Hnd]. simpl.
  replace (v + (- v + v / mx)) with (v / mx) by lra.
  destruct (decide (v = 0)) as [->|Hv].
  - rewrite filter_cons_False by (simpl; unfold Rdiv; rewrite Rmult_0_l; tauto).
    rewrite (filter_cons_False _ (k, 0)) by (simpl; tauto).
    apply IH, Hnd.
  - rewrite filter_cons_True.
    + rewrite (filter_cons_True _ (k, v)) by exact Hv. simpl. f_equal. apply IH, Hnd.
    + simpl. intros Hz. apply Hv.
      apply (Rmult_eq_reg_r (/ mx)); [|apply Rinv_neq_0_compat, Hmx].
      unfold Rdiv in Hz. rewrite Hz. ring.
Qed.

(** What one turn does to a reaction. *)
Lemma normalize_reaction_Ok r r' :
  well_formed r -> normalize_reaction r = Ok r' ->
  Reaction.id r' = Reaction.id r
  /\ Reaction.lower_bound r' = Reaction.lower_bound r
  /\ Reaction.upper_bound r' = Reaction.upper_bound r
  /\ exists mx,
       max_of (coefficients r) = Some mx
       /\ (mx <= MAX_STOICH -> r' = r)
       /\ (mx > MAX_STOICH ->
           Reaction.metabolites r'
           = map (fun kv => (fst kv, snd kv / mx))
               (filter (fun kv => snd kv <> 0) (Reaction.metabolites r))
           /\ max_of (coefficients r') = Some 1).
Proof.
  intros Hwf H. unfold normalize_reaction in H. fold (coefficients r) in H.
  destruct (max_of (coefficients r)) as [mx|] eqn:Emax; [|discriminate].
  case_decide as Hbig.
  - injection H as <-. simpl. repeat (split; [reflexivity|]).
    exists mx. split; [reflexivity|]. split; [lra|]. intros _.
    assert (mx <> 0) as Hmx by (unfold MAX_STOICH in Hbig; lra).
    rewrite (add_metabolites_scales _ _ Hwf Hmx). split; [reflexivity|].
    apply max_of_spec in Emax as [Hin Hmax].
    unfold coefficients in *. simpl.
    apply max_of_spec. unfold MAX_STOICH in Hbig. split.
    + apply list_elem_of_fmap in Hin as ([k v] & -> & Hin). simpl in *.
      apply list_elem_of_fmap. exists (k, v / v). split; [simpl; field; lra|].
      apply (list_elem_of_fmap_2 (fun kv => (fst kv, snd kv / v)) _ (k, v)).
      apply list_elem_of_filter. split; [simpl; lra | exact Hin].
    + intros x Hx. apply list_elem_of_fmap in Hx as ([k w] & -> & Hx). simpl.
      apply list_elem_of_fmap in Hx as ([k' v] & E & Hx). injection E as -> ->.
      apply list_elem_of_filter in Hx as [_ Hx].
      assert (v <= mx) as Hv.
      { apply Hmax. apply (list_elem_of_fmap_2 snd _ (k', v)), Hx. }
      apply (Rmult_le_reg_r mx); [lra|]. unfold Rdiv.
      rewrite Rmult_assoc, Rinv_l by lra. lra.
  - injection H as <-. repeat (split; [reflexivity|]).
    exists mx. split; [reflexivity|]. split; [reflexivity|]. intros Hc. lra.
Qed.

Lemma normalize_loop_Ok l l' :
  normalize_loop l = (Ok tt, l') ->
  Forall2 (fun r r' => normalize_reaction r = Ok r') l l'.
Proof.
  revert l'. induction l as [|r l IH]; intros l' H; simpl in H.
  - injection H as <-. constructor.
  - destruct (normalize_reaction r) as [r'|e] eqn:E; [|discriminate].
    destruct (normalize_loop l) as [res rest'] eqn:El.
    injection H as -> <-. constructor; [exact E | apply IH; reflexivity].
Qed.

Lemma normalize_loop_fixed l :
  Forall (fun r => normalize_reaction r = Ok r) l -> normalize_loop l = (Ok tt, l).
Proof.
  induction 1 as [|r l Hr _ IH]; simpl; [reflexivity|].
  rewrite Hr, IH. reflexivity.
Qed.

Lemma set_reactions_id m : set_reactions (reactions m) m = m.
Proof. destruct m. reflexivity. Qed.

(** X20.  A normalisation that returns has divided the coefficients of
    every reaction whose greatest coefficient exceeds MAX_STOICH = 10 by that
    coefficient, which leaves 1 as the greatest one, and has left every
    other reaction as it was, however large its negative coefficients: the
    test reads the greatest signed coefficient, not the greatest magnitude.
    Ids, flux bounds and the rest of the model are untouched. *)
Theorem normalize_reactions_scales m m' :
  normalize_reactions m = (Ok tt, m') ->
  (forall r, r ∈ reactions m -> well_formed r) ->
  m' = set_reactions (reactions m') m
  /\ length (reactions m') = length (reactions m)
  /\ forall i r, reactions m !! i = Some r ->
       exists r' mx,
         reactions m' !! i = Some r'
         /\ Reaction.id r' = Reaction.id r
         /\ Reaction.lower_bound r' = Reaction.lower_bound r
         /\ Reaction.upper_bound r' = Reaction.upper_bound r
         /\ max_of (coefficients r) = Some mx
         /\ (mx <= MAX_STOICH -> r' = r)
         /\ (mx > MAX_STOICH ->
             Reaction.metabolites r'
             = map (fun kv => (fst kv, snd kv / mx))
                 (filter (fun kv => snd kv <> 0) (Reaction.metabolites r))
             /\ max_of (coefficients r') = Some 1).
Proof.
  intros H Hwf. unfold normalize_reactions in H.
  destruct (normalize_loop (reactions m)) as [res l] eqn:El.
  injection H as -> <-. apply normalize_loop_Ok in El.
  split; [reflexivity|]. split; [symmetry; exact (Forall2_length _ _ _ El)|].
  intros i r Hi. simpl.
  destruct (Forall2_lookup_l _ _ _ _ _ El Hi) as (r' & Hi' & Hr).
  apply normalize_reaction_Ok in Hr
    as (A & B & C & mx & D & E & F); [|apply Hwf, (list_elem_of_lookup_2 _ _ _ Hi)].
  exists r', mx. auto 10.
Qed.

Lemma stoichiometry_max : max_of (coefficients stoichiometry.R2) = Some 20.
Proof.
  apply max_of_spec. unfold coefficients. simpl. split; [right; left|].
  intros x Hx. rewrite !elem_of_cons, elem_of_nil in Hx.
  destruct Hx as [->|[->|[]]]; lra.
Defined.

Lemma stoichiometry_well_formed r :
  r ∈ reactions stoichiometry.model -> well_formed r.
Proof.
  intros Hr. apply list_elem_of_singleton in Hr as ->.
  unfold well_formed, participant_ids. simpl.
  apply NoDup_cons. split; [|apply NoDup_singleton].
  intros Hx. apply list_elem_of_singleton in Hx. discriminate Hx.
Defined.

Lemma stoichiometry_runs :
  exists m', normalize_reactions stoichiometry.model = (Ok tt, m').
Proof.
  unfold normalize_reactions. simpl. unfold normalize_reaction.
  fold (coefficients stoichiometry.R2). rewrite stoichiometry_max.
  rewrite decide_True by (unfold MAX_STOICH; lra). eauto.
Defined.

Lemma normalize_reactions_scales_witness :
  exists m' r',
    normalize_reactions stoichiometry.model = (Ok tt, m')
    /\ reactions m' !! 0%nat = Some r'
    /\ Reaction.metabolites r' = [(example.A, -1 / 20); (example.B, 20 / 20)].
Proof.
  destruct stoichiometry_runs as [m' H].
  destruct (normalize_reactions_scales stoichiometry.model m' H
              stoichiometry_well_formed) as (_ & _ & Hall).
  destruct (Hall 0%nat stoichiometry.R2 eq_refl)
    as (r' & mx & Hr' & _ & _ & _ & Hmx & _ & Hbig).
  rewrite stoichiometry_max in Hmx. injection Hmx as <-.
  destruct Hbig as [Hmets _]; [unfold MAX_STOICH; lra|].
  exists m', r'. split; [exact H|]. split; [exact Hr'|].
  rewrite Hmets. simpl.
  rewrite filter_cons_True by (simpl; lra).
  rewrite filter_cons_True by (simpl; lra). reflexivity.
Defined.

(** X21.  normalize_reactions is idempotent: on a model that it has
    normalised it returns again and changes nothing. *)
Theorem normalize_reactions_idempotent m m' :
  normalize_reactions m = (Ok tt, m') ->
  (forall r, r ∈ reactions m -> well_formed r) ->
  normalize_reactions m' = (Ok tt, m').
Proof.
  intros H Hwf. unfold normalize_reactions in H.
  destruct (normalize_loop (reactions m)) as [res l] eqn:El.
  injection H as -> <-. apply normalize_loop_Ok in El.
  unfold normalize_reactions. simpl.
  rewrite normalize_loop_fixed.
  - reflexivity.
  - apply Forall_forall. intros r' Hr'.
    apply list_elem_of_lookup in Hr' as [i Hi'].
    destruct (Forall2_lookup_r _ _ _ _ _ El Hi') as (r & Hi & Hr).
    apply normalize_reaction_Ok in Hr
      as (_ & _ & _ & mx & Hmax & Hsmall & Hbig);
      [|apply Hwf, (list_elem_of_lookup_2 _ _ _ Hi)].
    unfold normalize_reaction. fold (coefficients r').
    destruct (Rle_dec mx MAX_STOICH) as [Hle|Hgt].
    + rewrite (Hsmall Hle), Hmax. rewrite decide_False by lra. reflexivity.
    + destruct Hbig as [_ Hone]; [lra|]. rewrite Hone.
      rewrite decide_False by (unfold MAX_STOICH; lra). reflexivity.
Qed.

Lemma normalize_reactions_idempotent_witness :
  exists m',
    normalize_reactions stoichiometry.model = (Ok tt, m')
    /\ normalize_reactions m' = (Ok tt, m').
Proof.
  destruct stoichiometry_runs as [m' H]. exists m'. split; [exact H|].
  exact (normalize_reactions_idempotent stoichiometry.model m' H
           stoichiometry_well_formed).
Defined.

(** X22.  normalize_reactions does not return on a model that has a
    reaction without metabolites: max() of the empty sequence raises
    ValueError, and the reactions before that one stay normalised. *)
Theorem normalize_reactions_empty m r :
  r ∈ reactions m -> Reaction.metabolites r = [] ->
  exists m', normalize_reactions m
             = (Raise (ValueError "max() arg is an empty sequence"), m').
Proof.
  intros Hr Hempty. unfold normalize_reactions.
  cut (exists l, normalize_loop (reactions m)
                 = (Raise (ValueError "max() arg is an empty sequence"), l)).
  { intros [l ->]. eauto. }
  induction (reactions m) as [|x l IH]; [inversion Hr|]. simpl.
  destruct (normalize_reaction x) as [x'|e] eqn:E.
  - apply elem_of_cons in Hr as [->|Hr].
    + unfold normalize_reaction in E. rewrite Hempty in E. discriminate E.
    + destruct (IH Hr) as [l' ->]. eauto.
  - exists (x :: l). f_equal. f_equal.
    unfold normalize_reaction in E.
    destruct (max_of _); [case_decide; discriminate E|]. injection E as <-.
    reflexivity.
Qed.

Lemma normalize_reactions_empty_witness :
  exists m',
    normalize_reactions (set_reactions [Reaction.Build "EX" [] 0 1000] example.raw)
    = (Raise (ValueError "max() arg is an empty sequence"), m').
Proof.
  apply (normalize_reactions_empty
           (set_reactions [Reaction.Build "EX" [] 0 1000] example.raw)
           (Reaction.Build "EX" [] 0 1000)).
  - simpl. left.
  - reflexivity.
Defined.

(* ===================================================================== *)
(* prepare, then convert                                                  *)
(* ===================================================================== *)

(** What a prepare that returns leaves: the frame, the thermo record of each
    metabolite, the keys of the thermo record of each reaction. *)
Lemma prepare_Ok_view num ext m m1 :
  prepare num ext m = (Ok tt, m1) ->
  prepare_frame m m1
  /\ (NoDup (Metabolite.id <$> metabolites m) ->
      forall met, met ∈ metabolites m ->
        is_Some (thermo_record ext m met)
        /\ met_thermo m1 !! Metabolite.id met = thermo_record ext m met)
  /\ (NoDup (Reaction.id <$> reactions m) ->
      forall r, r ∈ reactions m ->
        exists th c g e,
          rxn_thermo m1 !! Reaction.id r = Some th
          /\ isTrans th = imports.check_transport_reaction ext r
          /\ computed th = Some c /\ deltaGR th = Some g /\ deltaGRerr th = Some e).
Proof.
  intros H. unfold prepare in H.
  apply bind_Ok in H as (self & s0 & E & H). injection E as <- <-.
  apply bind_Ok in H as ([] & sa & Hm & H).
  apply bind_Ok in H as ([] & sb & Hp & H).
  assert (sb = set_proton_of (find_protons (metabolites m)) sa) as ->.
  { case_decide; [discriminate|]. injection Hp as <-. reflexivity. }
  assert (rxn_thermo_only (set_proton_of (find_protons (metabolites m)) sa) m1)
    as Hr.
  { apply (for_each_invariant rxn_thermo_only (reactions m)
             (_prepare_reaction num ext)) with (s' := m1);
      [apply rxn_thermo_only_refl | apply rxn_thermo_only_trans | | exact H].
    intros x t t' _ Hx. apply _prepare_reaction_Ok in Hx as [Hx _]. exact Hx. }
  split; [|split].
  - apply prepare_frame_trans with sa;
      [|apply prepare_frame_trans
          with (set_proton_of (find_protons (metabolites m)) sa)].
    + apply (for_each_invariant prepare_frame (metabolites m)
               (_prepare_metabolite ext)) with (s' := sa);
        [apply prepare_frame_refl | apply prepare_frame_trans | | exact Hm].
      intros x t t' _ Hx.
      apply _prepare_metabolite_Ok in Hx as (? & ? & _ & _ & ->). repeat split.
    + repeat split.
    + apply (for_each_invariant prepare_frame (reactions m)
               (_prepare_reaction num ext)) with (s' := m1);
        [apply prepare_frame_refl | apply prepare_frame_trans | | exact H].
      intros x t t' _ Hx. apply _prepare_reaction_Ok in Hx as [-> _]. repeat split.
  - intros Hnd met Hmet.
    destruct (prepare_metabolites_loop _ _ _ _ _ Hnd Hmet Hm)
      as (comp & sid & A & B & C).
    apply rxn_thermo_only_met_thermo in Hr as [-> _]. simpl.
    unfold thermo_record. rewrite A, B. split; [eauto | exact C].
  - intros Hnd r Hin.
    destruct (prepare_reactions_at _ _ _ _ _ _ Hnd Hin H)
      as (s1 & s2 & _ & Hrun & _ & Hlook).
    apply _prepare_reaction_keys in Hrun
      as (th & c & g & e & Hth & Ht & Hc & Hg & He & _).
    exists th, c, g, e. split; [congruence|]. auto.
Qed.

Lemma ready_convertible num ext ad m m1 :
  prepare num ext m = (Ok tt, m1) -> ready num ext ad m -> convertible num ad m1.
Proof.
  intros H (Hndm & Hndr & Hbounds & Hconc & Hnotrans & Hpart & HRT).
  destruct (prepare_Ok_view _ _ _ _ H) as (Hframe & Hmets & Hrxns).
  specialize (Hmets Hndm). specialize (Hrxns Hndr).
  destruct Hframe as (Ec & Em & Er & _ & ERT & _).
  assert (forall met, met ∈ metabolites m ->
            exists th comp,
              met_thermo m1 !! Metabolite.id met = Some th
              /\ thermo_record ext m met = Some th
              /\ compartments m1 !! Metabolite.compartment met = Some comp
              /\ 0 < c_min comp /\ 0 < c_max comp) as Hmet.
  { intros met Hin. destruct (Hmets met Hin) as [[th Hth] Heq].
    rewrite Hth in Heq. unfold thermo_record in Hth.
    destruct (compartments m !! Metabolite.compartment met) as [comp|] eqn:Ecomp;
      [|discriminate].
    destruct (Hconc met comp Hin Ecomp) as [A B].
    exists th, comp. rewrite Ec. unfold thermo_record. rewrite Ecomp. auto. }
  split; [|split].
  - intros r Hr. rewrite Er in Hr. exact (Hbounds r Hr).
  - intros met Hin. rewrite Em in Hin.
    destruct (Hmet met Hin) as (th & comp & A & _ & B & C & D). eauto 10.
  - intros r Hr. rewrite Er in Hr.
    destruct (Hrxns r Hr) as (th & c & g & e & Hth & Ht & Hc & Hg & He).
    rewrite (Hnotrans r Hr) in Ht.
    exists th, c. split; [exact Hth|]. split; [exact Hc|].
    split; [intros Htrue; congruence|].
    intros _ _. split; [exact Ht|]. split; [rewrite Hg; eauto|].
    split; [rewrite He; eauto|]. split; [rewrite ERT; exact HRT|].
    intros mv Hmv Hf. destruct (Hpart r mv Hr Hmv Hf) as (Hin & Hmark & HG).
    exists (fst mv). rewrite Em. split; [exact Hin|]. split; [reflexivity|].
    destruct (Hmet (fst mv) Hin) as (th' & comp & A & A' & B & _).
    exists th', comp. split; [exact A|]. split; [exact B|].
    unfold LC_of.
    rewrite decide_False
      by (intros E; apply Hf; rewrite E; right; left).
    rewrite decide_False by (intros E; apply Hf; rewrite E; left).
    rewrite Hmark. rewrite decide_True by (apply HG, A'). eauto.
Qed.

(** X23.  prepare and convert compose.  On a model whose metabolites and
    reactions have distinct ids, with flux bounds within the big M, positive
    concentration bounds and no transport reaction, in which every
    participant of a reaction other than protons and water is a metabolite
    of the model, is not the biomass marker and has a known Gibbs energy of
    formation, a prepare that returns is followed by a conversion (without
    potentials, and up to the repair that ends convert) that returns. *)
Theorem prepare_then_convert num ext ad v m m1 :
  prepare num ext m = (Ok tt, m1) -> ready num ext ad m ->
  exists m2, convert num ext false ad v m1 = (Ok tt, m2).
Proof.
  intros H Hready. apply convertible_returns.
  exact (ready_convertible num ext ad m m1 H Hready).
Qed.

Lemma example_NoDup_metabolites : NoDup (Metabolite.id <$> metabolites example.raw).
Proof.
  simpl. repeat (apply NoDup_cons; split;
                 [rewrite ?elem_of_cons, elem_of_nil; intros Hx;
                  repeat (destruct Hx as [Hx|Hx]; [discriminate Hx|]); exact Hx|]).
  apply NoDup_nil. exact I.
Defined.

Lemma example_record_A :
  thermo_record example.ext example.raw example.A = Some example.thermo_A.
Proof. unfold thermo_record. simpl. run_lookup. simpl. run_lookup. reflexivity. Defined.

Lemma example_record_B :
  thermo_record example.ext example.raw example.B = Some example.thermo_B.
Proof. unfold thermo_record. simpl. run_lookup. simpl. run_lookup. reflexivity. Defined.

Lemma example_ready ad : ready example.num example.ext ad example.raw.
Proof.
  split; [exact example_NoDup_metabolites|]. split; [exact example_NoDup|].
  split; [|split; [|split; [|split]]].
  - intros r Hr. apply list_elem_of_singleton in Hr as ->. simpl. lra.
  - intros met comp Hmet Hcomp. simpl in Hmet.
    rewrite !elem_of_cons, elem_of_nil in Hmet.
    destruct Hmet as [->|[->|[->|[]]]]; simpl in Hcomp;
      rewrite lookup_singleton_eq in Hcomp; injection Hcomp as <-; simpl; lra.
  - intros r _. reflexivity.
  - intros r mv Hr Hmv Hf. apply list_elem_of_singleton in Hr as ->.
    simpl in Hmv. rewrite !elem_of_cons, elem_of_nil in Hmv.
    destruct Hmv as [->|[->|[]]]; simpl.
    + split; [left|]. split; [reflexivity|].
      intros th Hth. rewrite example_record_A in Hth. injection Hth as <-.
      simpl. lra.
    + split; [right; left|]. split; [reflexivity|].
      intros th Hth. rewrite example_record_B in Hth. injection Hth as <-.
      simpl. lra.
  - intros _. simpl. lra.
Defined.

Lemma prepare_then_convert_witness :
  exists m1 m2,
    prepare example.num example.ext example.raw = (Ok tt, m1)
    /\ convert example.num example.ext false true true m1 = (Ok tt, m2).
Proof.
  destruct example_prepare_runs as [m1 H].
  destruct (prepare_then_convert example.num example.ext true true example.raw m1
              H (example_ready true)) as [m2 H2].
  exists m1, m2. split; [exact H | exact H2].
Defined.

(* ===================================================================== *)
(* Models that can be copied                                              *)
(* ===================================================================== *)


















(* ===================================================================== *)
(* repair and the lookups by kind                                         *)
(* ===================================================================== *)

Section grouping_facts.

Context {K V : Type} `{Countable K}.
Variable kind : V -> K.
Variable id : V -> string.

Lemma append_to_Ok (kinds kinds' : gmap K (list V)) v :
  append_to kind id kinds v = Ok kinds' ->
  dom kinds' = {[kind v]} ∪ dom kinds
  /\ forall k x, x ∈ default [] (kinds' !! k)
                 <-> x ∈ default [] (kinds !! k) \/ (x = v /\ kind v = k).
Proof.
  unfold append_to. case_decide as Hdup; [discriminate|]. intros E.
  injection E as <-. split; [apply dom_insert_L|]. intros k x.
  destruct (decide (kind v = k)) as [<-|Hne].
  - rewrite lookup_insert_eq. simpl. rewrite elem_of_app, list_elem_of_singleton.
    tauto.
  - rewrite lookup_insert_ne by exact Hne. tauto.
Qed.

Lemma group_by_Ok items (kinds kinds' : gmap K (list V)) :
  group_by kind id items kinds = Ok kinds' ->
  dom kinds' = list_to_set (kind <$> items) ∪ dom kinds
  /\ forall k x, x ∈ default [] (kinds' !! k)
                 <-> x ∈ default [] (kinds !! k) \/ (x ∈ items /\ kind x = k).
Proof.
  revert kinds. induction items as [|v items IH]; intros kinds E; simpl in E.
  - injection E as <-. split.
    { simpl. symmetry. apply (left_id_L ∅ (∪)). }
    intros k x. split; [auto|].
    intros [Hx|[Hx _]]; [exact Hx | inversion Hx].
  - destruct (append_to kind id kinds v) as [kinds1|e] eqn:E1; [|discriminate].
    apply append_to_Ok in E1 as [D1 M1]. apply IH in E as [D M].
    split.
    { rewrite D, D1. apply set_eq. intros k. rewrite fmap_cons. simpl.
      rewrite !elem_of_union. tauto. }
    intros k x. rewrite M, M1, elem_of_cons. split.
    + intros [[Hx|[-> Hk]]|[Hx Hk]]; auto.
    + intros [Hx|[[->|Hx] Hk]]; auto.
Qed.

(** The grouping goes through when no two objects share kind and id. *)
Lemma group_by_returns items (kinds : gmap K (list V)) :
  NoDup ((fun v => (kind v, id v)) <$> items) ->
  (forall k x, x ∈ default [] (kinds !! k) ->
     kind x = k /\ (kind x, id x) ∉ ((fun v => (kind v, id v)) <$> items)) ->
  exists kinds', group_by kind id items kinds = Ok kinds'.
Proof.
  revert kinds. induction items as [|v items IH]; intros kinds Hnd Hold; simpl.
  - eauto.
  - rewrite fmap_cons in Hnd. apply NoDup_cons in Hnd as [Hv Hnd].
    unfold append_to. rewrite decide_False.
    + apply IH; [exact Hnd|]. intros k x Hx.
      destruct (decide (kind v = k)) as [<-|Hne].
      * rewrite lookup_insert_eq in Hx. simpl in Hx.
        apply elem_of_app in Hx as [Hx|Hx].
        -- destruct (Hold _ _ Hx) as [A B]. split; [exact A|].
           intros Hin. apply B. rewrite fmap_cons. right. exact Hin.
        -- apply list_elem_of_singleton in Hx as ->. split; [reflexivity | exact Hv].
      * rewrite lookup_insert_ne in Hx by exact Hne.
        destruct (Hold _ _ Hx) as [A B]. split; [exact A|].
        intros Hin. apply B. rewrite fmap_cons. right. exact Hin.
    + intros Hdup. apply list_elem_of_fmap in Hdup as (x & Hid & Hx).
      destruct (Hold _ _ Hx) as [A B]. apply B. rewrite fmap_cons.
      rewrite A, <- Hid. left.
Qed.

End grouping_facts.

(** The values of a registry that files each object under its name. *)
Lemma registry_names {V} `{Countable K} (name : V -> K) (d : gmap K V) :
  (forall k v, d !! k = Some v -> name v = k) ->
  NoDup (name <$> (map_to_list d).*2).
Proof.
  intros Hok.
  assert (name <$> (map_to_list d).*2 = (map_to_list d).*1) as ->.
  { rewrite <- list_fmap_compose. apply list_fmap_ext.
    intros i [k v] Hi. simpl. apply Hok. apply elem_of_map_to_list.
    exact (list_elem_of_lookup_2 _ _ _ Hi). }
  apply NoDup_fst_map_to_list.
Qed.

Lemma registry_values {V} `{Countable K} (d : gmap K V) v :
  v ∈ (map_to_list d).*2 <-> exists key, d !! key = Some v.
Proof.
  split.
  - intros Hin. apply list_elem_of_fmap in Hin as ([k v'] & -> & Hin).
    apply elem_of_map_to_list in Hin. eauto.
  - intros [key Hkey]. apply elem_of_map_to_list in Hkey.
    apply (list_elem_of_fmap_2 snd) in Hkey. exact Hkey.
Qed.

(* --------------------------------------------------------------------- *)
(* The loops over the attributes                                          *)
(* --------------------------------------------------------------------- *)

Lemma delattr_cons_loop l m g :
  (forall k, k ∈ l -> k ∈ cons_fields g) -> NoDup l ->
  exists F,
    for_each l delattr_cons (m, g) = (Ok tt, (m, set_cons_fields F g))
    /\ forall k, k ∈ F <-> k ∈ cons_fields g /\ k ∉ l.
Proof.
  revert g. induction l as [|k l IH]; intros g Hall Hnd; simpl.
  - exists (cons_fields g). split; [destruct g; reflexivity|].
    intros k. rewrite elem_of_nil. tauto.
  - apply NoDup_cons in Hnd as [Hk Hnd].
    unfold bind at 1, delattr_cons at 1. cbv [bind get]. simpl.
    rewrite decide_True by (apply Hall; left). cbv [upd_groupings modify]. simpl.
    destruct (IH (set_cons_fields (cons_fields g ∖ {[k]}) g)) as (F & HF & HFk);
      [|exact Hnd|].
    { intros k' Hk'. simpl. apply elem_of_difference. split.
      - apply Hall. right. exact Hk'.
      - intros E. apply elem_of_singleton in E as ->. contradiction. }
    exists F. split; [exact HF|]. intros k'. rewrite HFk. simpl.
    rewrite elem_of_difference, elem_of_singleton, elem_of_cons. tauto.
Qed.

Lemma delattr_var_loop l m g :
  (forall k, k ∈ l -> k ∈ var_fields g) -> NoDup l ->
  exists F,
    for_each l delattr_var (m, g) = (Ok tt, (m, set_var_fields F g))
    /\ forall k, k ∈ F <-> k ∈ var_fields g /\ k ∉ l.
Proof.
  revert g. induction l as [|k l IH]; intros g Hall Hnd; simpl.
  - exists (var_fields g). split; [destruct g; reflexivity|].
    intros k. rewrite elem_of_nil. tauto.
  - apply NoDup_cons in Hnd as [Hk Hnd].
    unfold bind at 1, delattr_var at 1. cbv [bind get]. simpl.
    rewrite decide_True by (apply Hall; left). cbv [upd_groupings modify]. simpl.
    destruct (IH (set_var_fields (var_fields g ∖ {[k]}) g)) as (F & HF & HFk);
      [|exact Hnd|].
    { intros k' Hk'. simpl. apply elem_of_difference. split.
      - apply Hall. right. exact Hk'.
      - intros E. apply elem_of_singleton in E as ->. contradiction. }
    exists F. split; [exact HF|]. intros k'. rewrite HFk. simpl.
    rewrite elem_of_difference, elem_of_singleton, elem_of_cons. tauto.
Qed.

(** The loop stops at the kind that has no attribute. *)
Lemma delattr_cons_loop_raises l m g k :
  NoDup l -> k ∈ l -> k ∉ cons_fields g ->
  (forall k', k' ∈ l -> k' <> k -> k' ∈ cons_fields g) ->
  exists g', for_each l delattr_cons (m, g)
             = (Raise (AttributeError (ConsKind_name k)), (m, g')).
Proof.
  revert g. induction l as [|x l IH]; intros g Hnd Hin Hk Hothers; [inversion Hin|].
  apply NoDup_cons in Hnd as [Hx Hnd].
  simpl. unfold bind at 1, delattr_cons at 1. cbv [bind get]. simpl.
  destruct (decide (x = k)) as [->|Hne].
  - rewrite decide_False by exact Hk. eauto.
  - rewrite decide_True by (apply Hothers; [left | exact Hne]).
    cbv [upd_groupings modify]. simpl.
    apply elem_of_cons in Hin as [->|Hin]; [contradiction|].
    apply IH; [exact Hnd | exact Hin | |].
    + simpl. intros E. apply elem_of_difference in E as [E _]. contradiction.
    + intros k' Hk' Hne'. simpl. apply elem_of_difference. split.
      * apply Hothers; [right; exact Hk' | exact Hne'].
      * intros E. apply elem_of_singleton in E as ->. contradiction.
Qed.

Lemma delattr_var_loop_raises l m g k :
  NoDup l -> k ∈ l -> k ∉ var_fields g ->
  (forall k', k' ∈ l -> k' <> k -> k' ∈ var_fields g) ->
  exists g', for_each l delattr_var (m, g)
             = (Raise (AttributeError (VarKind_name k)), (m, g')).
Proof.
  revert g. induction l as [|x l IH]; intros g Hnd Hin Hk Hothers; [inversion Hin|].
  apply NoDup_cons in Hnd as [Hx Hnd].
  simpl. unfold bind at 1, delattr_var at 1. cbv [bind get]. simpl.
  destruct (decide (x = k)) as [->|Hne].
  - rewrite decide_False by exact Hk. eauto.
  - rewrite decide_True by (apply Hothers; [left | exact Hne]).
    cbv [upd_groupings modify]. simpl.
    apply elem_of_cons in Hin as [->|Hin]; [contradiction|].
    apply IH; [exact Hnd | exact Hin | |].
    + simpl. intros E. apply elem_of_difference in E as [E _]. contradiction.
    + intros k' Hk' Hne'. simpl. apply elem_of_difference. split.
      * apply Hothers; [right; exact Hk' | exact Hne'].
      * intros E. apply elem_of_singleton in E as ->. contradiction.
Qed.

Lemma elem_of_keys {V} `{Countable K} (d : gmap K V) k :
  k ∈ (map_to_list d).*1 <-> k ∈ dom d.
Proof.
  rewrite elem_of_dom. split.
  - intros Hin. apply list_elem_of_fmap in Hin as ([k' v] & -> & Hin).
    apply elem_of_map_to_list in Hin. eauto.
  - intros [v Hk]. apply elem_of_map_to_list in Hk.
    apply (list_elem_of_fmap_2 fst) in Hk. exact Hk.
Qed.

(* --------------------------------------------------------------------- *)
(* regenerate_constraints, regenerate_variables, repair                   *)
(* --------------------------------------------------------------------- *)

(** The keys that a defaultdict holds. *)
Lemma regenerate_constraints_run m g :
  registry_ok m ->
  (forall kinds k, _cons_kinds g = Some kinds -> k ∈ dom kinds -> k ∈ cons_fields g) ->
  exists kinds F,
    regenerate_constraints (m, g)
    = (Ok tt, (m, set_cons_kinds kinds (set_cons_fields F g)))
    /\ (forall k c, c ∈ default [] (kinds !! k)
                    <-> (exists key, _cons_dict m !! key = Some c) /\ c_kind c = k)
    /\ (forall k, k ∈ dom kinds <-> exists key c, _cons_dict m !! key = Some c
                                                  /\ c_kind c = k)
    /\ (forall k, k ∈ F <->
          k ∈ dom kinds
          \/ (k ∈ cons_fields g
              /\ forall old, _cons_kinds g = Some old -> k ∉ dom old)).
Proof.
  intros [_ HC] Hfields.
  destruct (group_by_returns c_kind c_hook (map_to_list (_cons_dict m)).*2 ∅)
    as [kinds Hk].
  { apply (registry_names c_name). exact HC. }
  { intros k x Hx. rewrite lookup_empty in Hx. inversion Hx. }
  pose proof (group_by_Ok _ _ _ _ _ Hk) as [Hdom Hmem].
  assert (exists F0,
            (match _cons_kinds g with
             | Some kinds => for_each (map_to_list kinds).*1 delattr_cons
             | None => ret tt
             end) (m, g) = (Ok tt, (m, set_cons_fields F0 g))
            /\ forall k, k ∈ F0 <->
                 k ∈ cons_fields g
                 /\ forall old, _cons_kinds g = Some old -> k ∉ dom old)
    as (F0 & Hloop & HF0).
  { destruct (_cons_kinds g) as [old|] eqn:Eold.
    - destruct (delattr_cons_loop (map_to_list old).*1 m g) as (F0 & Hrun & HF0).
      + intros k Hin. apply (Hfields old k eq_refl), elem_of_keys, Hin.
      + apply NoDup_fst_map_to_list.
      + exists F0. split; [exact Hrun|]. intros k. rewrite HF0. split.
        * intros [A B]. split; [exact A|]. intros old' E. injection E as <-.
          intros Hd. apply B, elem_of_keys, Hd.
        * intros [A B]. split; [exact A|]. intros Hd.
          apply (B old eq_refl), elem_of_keys, Hd.
    - exists (cons_fields g). split; [destruct g; reflexivity|].
      intros k. split; [intros A; split; [exact A | discriminate] | tauto]. }
  exists kinds, (F0 ∪ dom kinds). split; [|split; [|split]].
  - unfold regenerate_constraints.
    rewrite (bind_step _ _ (m, g) (m, g) (m, g)) by reflexivity.
    cbn [snd]. rewrite (bind_step _ _ _ _ _ Hloop).
    rewrite (bind_step _ _ _ (m, set_cons_fields F0 g) (m, set_cons_fields F0 g))
      by reflexivity.
    cbn [fst]. rewrite Hk. reflexivity.
  - intros k c. rewrite Hmem, lookup_empty. simpl. rewrite elem_of_nil.
    rewrite registry_values. tauto.
  - intros k. rewrite Hdom, elem_of_union, elem_of_list_to_set, dom_empty.
    rewrite elem_of_empty. split.
    + intros [Hin|[]]. apply list_elem_of_fmap in Hin as (c & -> & Hin).
      apply registry_values in Hin as [key Hkey]. eauto.
    + intros (key & c & Hkey & <-). left.
      apply (list_elem_of_fmap_2 c_kind). apply registry_values. eauto.
  - intros k. rewrite elem_of_union, HF0. tauto.
Qed.

Lemma regenerate_variables_run m g :
  registry_ok m ->
  (forall kinds k, _var_kinds g = Some kinds -> k ∈ dom kinds -> k ∈ var_fields g) ->
  exists kinds F,
    regenerate_variables (m, g)
    = (Ok tt, (m, set_var_kinds kinds (set_var_fields F g)))
    /\ (forall k v, v ∈ default [] (kinds !! k)
                    <-> (exists key, _var_dict m !! key = Some v) /\ v_kind v = k)
    /\ (forall k, k ∈ dom kinds <-> exists key v, _var_dict m !! key = Some v
                                                  /\ v_kind v = k)
    /\ (forall k, k ∈ F <->
          k ∈ dom kinds
          \/ (k ∈ var_fields g
              /\ forall old, _var_kinds g = Some old -> k ∉ dom old)).
Proof.
  intros [HV _] Hfields.
  destruct (group_by_returns v_kind v_hook (map_to_list (_var_dict m)).*2 ∅)
    as [kinds Hk].
  { apply (registry_names v_name). exact HV. }
  { intros k x Hx. rewrite lookup_empty in Hx. inversion Hx. }
  pose proof (group_by_Ok _ _ _ _ _ Hk) as [Hdom Hmem].
  assert (exists F0,
            (match _var_kinds g with
             | Some kinds => for_each (map_to_list kinds).*1 delattr_var
             | None => ret tt
             end) (m, g) = (Ok tt, (m, set_var_fields F0 g))
            /\ forall k, k ∈ F0 <->
                 k ∈ var_fields g
                 /\ forall old, _var_kinds g = Some old -> k ∉ dom old)
    as (F0 & Hloop & HF0).
  { destruct (_var_kinds g) as [old|] eqn:Eold.
    - destruct (delattr_var_loop (map_to_list old).*1 m g) as (F0 & Hrun & HF0).
      + intros k Hin. apply (Hfields old k eq_refl), elem_of_keys, Hin.
      + apply NoDup_fst_map_to_list.
      + exists F0. split; [exact Hrun|]. intros k. rewrite HF0. split.
        * intros [A B]. split; [exact A|]. intros old' E. injection E as <-.
          intros Hd. apply B, elem_of_keys, Hd.
        * intros [A B]. split; [exact A|]. intros Hd.
          apply (B old eq_refl), elem_of_keys, Hd.
    - exists (var_fields g). split; [destruct g; reflexivity|].
      intros k. split; [intros A; split; [exact A | discriminate] | tauto]. }
  exists kinds, (F0 ∪ dom kinds). split; [|split; [|split]].
  - unfold regenerate_variables.
    rewrite (bind_step _ _ (m, g) (m, g) (m, g)) by reflexivity.
    cbn [snd]. rewrite (bind_step _ _ _ _ _ Hloop).
    rewrite (bind_step _ _ _ (m, set_var_fields F0 g) (m, set_var_fields F0 g))
      by reflexivity.
    cbn [fst]. rewrite Hk. reflexivity.
  - intros k c. rewrite Hmem, lookup_empty. simpl. rewrite elem_of_nil.
    rewrite registry_values. tauto.
  - intros k. rewrite Hdom, elem_of_union, elem_of_list_to_set, dom_empty.
    rewrite elem_of_empty. split.
    + intros [Hin|[]]. apply list_elem_of_fmap in Hin as (c & -> & Hin).
      apply registry_values in Hin as [key Hkey]. eauto.
    + intros (key & c & Hkey & <-). left.
      apply (list_elem_of_fmap_2 v_kind). apply registry_values. eauto.
  - intros k. rewrite elem_of_union, HF0. tauto.
Qed.

(** repair on tidy groupings: it returns, leaves the model alone and the
    groupings tidy and up to date. *)
Lemma repair_run m g :
  registry_ok m -> tidy g ->
  exists g', repair (m, g) = (Ok tt, (m, g')) /\ tidy g' /\ up_to_date (m, g').
Proof.
  intros Hok [TV TC].
  destruct (regenerate_constraints_run m g Hok)
    as (kc & Fc & Hc & Mc & Dc & HFc).
  { intros kinds k E Hk. rewrite TC, E. exact Hk. }
  set (g1 := set_cons_kinds kc (set_cons_fields Fc g)) in *.
  destruct (regenerate_variables_run m g1 Hok)
    as (kv & Fv & Hv & Mv & Dv & HFv).
  { intros kinds k E Hk. simpl in E |- *. rewrite TV, E. exact Hk. }
  exists (set_var_kinds kv (set_var_fields Fv g1)).
  split; [|split].
  - unfold repair. rewrite (bind_step _ _ _ _ _ Hc). exact Hv.
  - split; simpl.
    + apply set_eq. intros k. rewrite HFv. simpl. rewrite TV. split; [|auto].
      intros [A|[A B]]; [exact A|]. destruct (_var_kinds g) as [old|].
      * destruct (B old eq_refl A).
      * apply elem_of_empty in A. destruct A.
    + apply set_eq. intros k. rewrite HFc, TC. split; [|auto].
      intros [A|[A B]]; [exact A|]. destruct (_cons_kinds g) as [old|].
      * destruct (B old eq_refl A).
      * apply elem_of_empty in A. destruct A.
  - split; simpl; eauto.
Qed.

(** A lookup by kind on up-to-date groupings. *)
Lemma get_constraints_of_type_run k s :
  up_to_date s ->
  exists l s',
    get_constraints_of_type k s = (Ok l, s') /\ fst s' = fst s
    /\ forall c, c ∈ l <-> (exists key, _cons_dict (fst s) !! key = Some c)
                           /\ c_kind c = k.
Proof.
  intros (_ & kinds & Hk & Hmem). destruct s as [m g]. simpl in *.
  unfold get_constraints_of_type. cbv [bind get]. simpl. rewrite Hk.
  specialize (Hmem k). destruct (kinds !! k) as [l|] eqn:E; simpl in Hmem.
  - exists l, (m, g). auto.
  - eexists [], _. split; [reflexivity|]. split; [reflexivity | exact Hmem].
Qed.

Lemma get_variables_of_type_run k s :
  up_to_date s ->
  exists l s',
    get_variables_of_type k s = (Ok l, s') /\ fst s' = fst s
    /\ forall v, v ∈ l <-> (exists key, _var_dict (fst s) !! key = Some v)
                           /\ v_kind v = k.
Proof.
  intros ((kinds & Hk & Hmem) & _). destruct s as [m g]. simpl in *.
  unfold get_variables_of_type. cbv [bind get]. simpl. rewrite Hk.
  specialize (Hmem k). destruct (kinds !! k) as [l|] eqn:E; simpl in Hmem.
  - exists l, (m, g). auto.
  - eexists [], _. split; [reflexivity|]. split; [reflexivity | exact Hmem].
Qed.

(** X26.  The lookups by kind after a repair.  On a model that files its
    objects under their names and whose groupings are tidy (a new model, or
    one as a repair left it), repair returns and changes nothing of the
    model proper; after it get_constraints_of_type and get_variables_of_type
    return, for every kind, exactly the registered objects of that kind.
    Before the first repair both lookups raise AttributeError. *)
Theorem repair_then_lookup m g :
  registry_ok m -> tidy g ->
  (exists g',
     repair (m, g) = (Ok tt, (m, g')) /\ tidy g'
     /\ (forall k, exists l s',
           get_constraints_of_type k (m, g') = (Ok l, s')
           /\ forall c, c ∈ l <-> (exists key, _cons_dict m !! key = Some c)
                                  /\ c_kind c = k)
     /\ (forall k, exists l s',
           get_variables_of_type k (m, g') = (Ok l, s')
           /\ forall v, v ∈ l <-> (exists key, _var_dict m !! key = Some v)
                                  /\ v_kind v = k))
  /\ (forall k, get_constraints_of_type k (m, no_groupings)
                = (Raise (AttributeError "_cons_kinds"), (m, no_groupings)))
  /\ (forall k, get_variables_of_type k (m, no_groupings)
                = (Raise (AttributeError "_var_kinds"), (m, no_groupings))).
Proof.
  intros Hok Htidy. split; [|split; reflexivity].
  destruct (repair_run m g Hok Htidy) as (g' & Hrun & Ht & Hup).
  exists g'. split; [exact Hrun|]. split; [exact Ht|]. split; intros k.
  - destruct (get_constraints_of_type_run k _ Hup) as (l & s' & A & _ & B). eauto.
  - destruct (get_variables_of_type_run k _ Hup) as (l & s' & A & _ & B). eauto.
Qed.

Lemma tidy_no_groupings : tidy no_groupings.
Proof. split; reflexivity. Defined.

Lemma repair_then_lookup_witness :
  exists g' l s',
    repair (example.coupled, no_groupings) = (Ok tt, (example.coupled, g'))
    /\ get_constraints_of_type ForwardDirectionCoupling (example.coupled, g')
       = (Ok l, s')
    /\ ForwardDirectionCoupling_of example.num "R1" ∈ l.
Proof.
  destruct (proj1 (repair_then_lookup example.coupled no_groupings
                     example_coupled_ok tidy_no_groupings))
    as (g' & Hrun & _ & Hcons & _).
  destruct (Hcons ForwardDirectionCoupling) as (l & s' & Hget & Hmem).
  exists g', l, s'. split; [exact Hrun|]. split; [exact Hget|].
  apply Hmem. split; [|reflexivity].
  exists (ForwardDirectionCoupling, "R1"). exact example_coupling_lookup.
Defined.

Lemma registry_ok_add_constraint m kind hook expr lb ub :
  registry_ok m ->
  registry_ok (upd_cons_dict (insert (kind, hook) (Cons kind hook expr lb ub)) m).
Proof.
  intros [HV HC]. split; simpl; [exact HV|].
  apply cons_ok_insert; [reflexivity | exact HC].
Qed.

(** X27.  The groupings are not kept up to date by add_constraint: a
    constraint added after a repair under a free name is not among the
    constraints of its kind that get_constraints_of_type returns, and is
    among them once repair has run again. *)
Theorem lookup_is_stale_until_repair m g kind hook expr lb ub :
  registry_ok m -> tidy g -> _cons_dict m !! (kind, hook) = None ->
  exists g1 c m2 l s' g3 l' s'',
    repair (m, g) = (Ok tt, (m, g1))
    /\ lift (add_constraint kind hook expr lb ub) (m, g1) = (Ok c, (m2, g1))
    /\ get_constraints_of_type kind (m2, g1) = (Ok l, s') /\ (c ∉ l)
    /\ repair (m2, g1) = (Ok tt, (m2, g3))
    /\ get_constraints_of_type kind (m2, g3) = (Ok l', s'') /\ c ∈ l'.
Proof.
  intros Hok Htidy Hfree.
  destruct (repair_run m g Hok Htidy) as (g1 & Hrun & Ht1 & Hup1).
  set (c := Cons kind hook expr lb ub).
  set (m2 := upd_cons_dict (insert (kind, hook) c) m).
  destruct (get_constraints_of_type_run kind _ Hup1) as (l & s1 & Hget & _ & Hmem).
  assert (get_constraints_of_type kind (m2, g1)
          = (Ok l, (m2, snd s1))) as Hget2.
  { revert Hget. unfold get_constraints_of_type. cbv [bind get]. simpl.
    destruct (_cons_kinds g1) as [kinds|]; [|discriminate].
    destruct (kinds !! kind); cbv [upd_groupings modify ret]; simpl;
      intros E; injection E as <- <-; reflexivity. }
  destruct (repair_run m2 g1 (registry_ok_add_constraint _ _ _ _ _ _ Hok) Ht1)
    as (g3 & Hrun3 & _ & Hup3).
  destruct (get_constraints_of_type_run kind _ Hup3) as (l' & s3 & Hget3 & _ & Hmem3).
  exists g1, c, m2, l, (m2, snd s1), g3, l', s3.
  split; [exact Hrun|]. split; [reflexivity|]. split; [exact Hget2|].
  split; [|split; [exact Hrun3|split; [exact Hget3|]]].
  - intros Hin. apply Hmem in Hin as [[key Hkey] _]. simpl in Hkey.
    destruct Hok as [_ HC].
    assert (key = (kind, hook)) as -> by (symmetry; exact (HC _ _ Hkey)).
    rewrite Hfree in Hkey. discriminate.
  - apply Hmem3. split; [|reflexivity]. exists (kind, hook). simpl.
    apply lookup_insert_eq.
Qed.

Lemma lookup_is_stale_until_repair_witness :
  exists g1 c m2 l s',
    repair (example.prepared, no_groupings) = (Ok tt, (example.prepared, g1))
    /\ lift (add_constraint SimultaneousUse "R1" (Num 0) None None)
         (example.prepared, g1) = (Ok c, (m2, g1))
    /\ get_constraints_of_type SimultaneousUse (m2, g1) = (Ok l, s') /\ (c ∉ l).
Proof.
  destruct (lookup_is_stale_until_repair example.prepared no_groupings
              SimultaneousUse "R1" (Num 0) None None
              example_registry_ok tidy_no_groupings eq_refl)
    as (g1 & c & m2 & l & s' & _ & _ & _ & A & B & C & D & _).
  exists g1, c, m2, l, s'. auto.
Defined.

(** X28.  A lookup can break the next repair.  After a repair, asking for
    the constraints of a kind of which the model has none returns the empty
    list, and files it in the defaultdict under a key for which no attribute
    was ever set: the repair that follows raises AttributeError at delattr,
    and so does every later one.  The model proper is not changed by any of
    this. *)
Theorem lookup_of_absent_kind_breaks_repair m g k :
  registry_ok m -> tidy g ->
  (forall key c, _cons_dict m !! key = Some c -> c_kind c <> k) ->
  exists g1 g2 g3,
    repair (m, g) = (Ok tt, (m, g1))
    /\ get_constraints_of_type k (m, g1) = (Ok [], (m, g2))
    /\ repair (m, g2) = (Raise (AttributeError (ConsKind_name k)), (m, g3)).
Proof.
  intros Hok [TV TC] Hnone.
  destruct (regenerate_constraints_run m g Hok)
    as (kc & Fc & Hc & Mc & Dc & HFc).
  { intros kinds k' E Hk. rewrite TC, E. exact Hk. }
  set (g0 := set_cons_kinds kc (set_cons_fields Fc g)) in *.
  destruct (regenerate_variables_run m g0 Hok)
    as (kv & Fv & Hv & Mv & Dv & HFv).
  { intros kinds k' E Hk. simpl in E |- *. rewrite TV, E. exact Hk. }
  set (g1 := set_var_kinds kv (set_var_fields Fv g0)) in *.
  assert (kc !! k = None) as Habsent.
  { apply not_elem_of_dom. rewrite Dc. intros (key & c & Hkey & Hkind).
    exact (Hnone _ _ Hkey Hkind). }
  assert (forall k', k' ∈ Fc <-> k' ∈ dom kc) as HFc'.
  { intros k'. rewrite HFc, TC. split; [|auto].
    intros [A|[A B]]; [exact A|]. destruct (_cons_kinds g) as [old|].
    - destruct (B old eq_refl A).
    - apply elem_of_empty in A. destruct A. }
  set (g2 := set_cons_kinds (<[k := []]> kc) g1).
  destruct (delattr_cons_loop_raises (map_to_list (<[k := []]> kc)).*1 m g2 k)
    as [g3 Hraise].
  { apply NoDup_fst_map_to_list. }
  { apply elem_of_keys. rewrite dom_insert_L. apply elem_of_union. left.
    apply elem_of_singleton. reflexivity. }
  { simpl. rewrite HFc'. apply not_elem_of_dom. exact Habsent. }
  { intros k' Hk' Hne. simpl. apply HFc'. apply elem_of_keys in Hk'.
    rewrite dom_insert_L in Hk'. apply elem_of_union in Hk' as [Hk'|Hk'];
      [apply elem_of_singleton in Hk'; contradiction | exact Hk']. }
  exists g1, g2, g3. split; [|split].
  - unfold repair. rewrite (bind_step _ _ _ _ _ Hc). exact Hv.
  - unfold get_constraints_of_type. cbv [bind get]. simpl. rewrite Habsent.
    reflexivity.
  - unfold repair, regenerate_constraints.
    unfold bind at 1. unfold bind at 1. cbv [get]. simpl.
    unfold bind at 1. rewrite Hraise. reflexivity.
Qed.

Lemma lookup_of_absent_kind_breaks_repair_witness :
  exists g1 g2 g3,
    repair (example.coupled, no_groupings) = (Ok tt, (example.coupled, g1))
    /\ get_constraints_of_type DisplacementCoupling (example.coupled, g1)
       = (Ok [], (example.coupled, g2))
    /\ repair (example.coupled, g2)
       = (Raise (AttributeError "DisplacementCoupling"), (example.coupled, g3)).
Proof.
  apply (lookup_of_absent_kind_breaks_repair example.coupled no_groupings
           DisplacementCoupling example_coupled_ok tidy_no_groupings).
  intros key c Hkey. simpl in Hkey.
  apply lookup_singleton_Some in Hkey as [_ <-]. discriminate.
Defined.

(** X29.  convert with the repair that ends it.  On a convertible model
    that files its objects under their names, with tidy groupings, the whole
    method returns: the conversion proper leaves the registries as convert
    does, and the repair makes the lookups by kind hold them, so that
    get_constraints_of_type(SimultaneousUse) then returns, among constraints
    that are all registered, the one of every reaction. *)
Theorem convert_repair_returns num ext ad v m g :
  registry_ok m -> tidy g -> convertible num ad m ->
  NoDup (Reaction.id <$> reactions m) ->
  exists m' g' l s',
    convert num ext false ad v m = (Ok tt, m')
    /\ convert_repair num ext false ad v (m, g) = (Ok tt, (m', g'))
    /\ tidy g'
    /\ get_constraints_of_type SimultaneousUse (m', g') = (Ok l, s')
    /\ (forall r, r ∈ reactions m -> SimultaneousUse_of (Reaction.id r) ∈ l)
    /\ (forall c, c ∈ l -> exists key, _cons_dict m' !! key = Some c).
Proof.
  intros Hok Htidy Hconv Hnd.
  destruct (convertible_returns num ext ad v m Hconv) as [m' H].
  pose proof (registry_ok_convert _ _ _ _ _ _ _ Hok H) as Hok'.
  destruct (repair_run m' g Hok' Htidy) as (g' & Hrun & Ht & Hup).
  destruct (get_constraints_of_type_run SimultaneousUse _ Hup)
    as (l & s' & Hget & _ & Hmem).
  exists m', g', l, s'. split; [exact H|]. split; [|split; [exact Ht|]].
  - unfold convert_repair, lift. unfold bind at 1. simpl. rewrite H. exact Hrun.
  - split; [exact Hget|]. split.
    + intros r Hr. apply Hmem. split; [|reflexivity].
      exists (SimultaneousUse, Reaction.id r).
      exact (proj1 (convert_use_lookups _ _ _ _ _ _ _ _ H Hnd Hr)).
    + intros c Hc. apply Hmem in Hc as [Hc _]. exact Hc.
Qed.

Lemma convert_repair_returns_witness :
  exists m' g' l s',
    convert_repair example.num example.ext false true true
      (example.prepared, no_groupings) = (Ok tt, (m', g'))
    /\ get_constraints_of_type SimultaneousUse (m', g') = (Ok l, s')
    /\ SimultaneousUse_of "R1" ∈ l.
Proof.
  destruct (convert_repair_returns example.num example.ext true true
              example.prepared no_groupings example_registry_ok
              tidy_no_groupings (example_convertible true) example_NoDup)
    as (m' & g' & l & s' & _ & A & _ & B & C & _).
  exists m', g', l, s'. split; [exact A|]. split; [exact B|].
  exact (C example.R1 example_R1).
Defined.
